(** * Thermal-Craft: geometry kernel, hydraulic analyser, layout generator,
      circuit solver, heat-grid simulator, heat loss and costs

    A shallow embedding of [src/models/PPipe.ts], [src/models/CostAPI.ts],
    [src/solvers/HydraulicSolver.ts], [js/heat-simulation.js],
    [src/models/LFloor.ts], the window-upgrade analysis of the Level 1
    example script, [js/cost-calculator.js] and the heat simulation that
    [runSimulation] of the main application script sets up and runs.

    Numbers.  A JavaScript [number] is modelled by a mathematical real
    ([R]): [+ - * /] are the field operations, [Math.sqrt] is [sqrt],
    [Math.asin] is [asin], [Math.PI] is [PI], [Math.abs] is [Rabs],
    [Math.max]/[Math.min] are [Rmax]/[Rmin], [Math.ceil] and [Math.floor]
    are [Zceil] and [Zfloor],
    [Math.pow(x, 2)] is [x ^ 2], [Math.pow(x, 0.9)] is [Rpower x 0.9] and
    [Math.log10 x] is [ln x / ln 10].  Rounding, infinities and NaN are
    outside this model; the two models agree on the arguments for which the
    JavaScript functions are defined over the reals (positive base for
    [Math.pow] with a fractional exponent, positive argument for
    [Math.log10], non-zero divisors).

    Rounding moves a continuous result by a relative error of some 1e-16.
    It can also move a discrete one: a quotient or a sum that is an integer
    over the reals may fall on the other side of it in double precision,
    and with it the value of [Math.ceil] or [Math.floor], or the outcome of
    a comparison.  Here this concerns the number of rows that the
    serpentine loop lays, the number of columns and rows of the heat grid,
    and the cell of the heat grid that a point falls into.  On inputs that
    are exact in binary (such as the grid size 0.125) and on inputs away
    from these borders the two models agree; the theorems on layouts and
    on heat sources below are stated in terms of what the loop has laid
    and of what [addHeatSource] has registered, and hold whichever way a
    border case falls. *)

From Stdlib Require Import Reals Lra Lia Psatz List String Bool Arith ZArith.
From Stdlib Require Import DecimalString FinFun.
From Stdlib Require DecimalNat DecimalFacts.
Import ListNotations.

Local Open Scope R_scope.

(** ** Numeric helpers shared by the modules below *)

Module JSNum.

(** [a < b], [a > b] as JavaScript comparisons returning a boolean. *)
Definition ltb (a b : R) : bool := if Rlt_dec a b then true else false.
Definition gtb (a b : R) : bool := if Rgt_dec a b then true else false.
Definition geb (a b : R) : bool := if Rge_dec a b then true else false.

(** [Math.log10]. *)
Definition log10 (v : R) : R := ln v / ln 10.

(** Truthiness of an optional number, as in [if (segment.bend_radius)]:
    [undefined] and [0] are falsy, every other real is truthy. *)
Definition truthy (o : option R) : option R :=
  match o with
  | Some r => if Req_dec_T r 0 then None else Some r
  | None => None
  end.

(** Decimal rendering of a counter inside a template literal. *)
Definition decimal (n : nat) : string := NilZero.string_of_uint (Nat.to_uint n).

End JSNum.

(** ** [src/models/PPipe.ts] *)

Module PPipe.

Record Point2D : Type := mkPoint2D { x : R; y : R }.

Record PipeSegment : Type := mkPipeSegment {
  id : string;
  start : Point2D;
  (* [end] in the source *)
  end_ : Point2D;
  diameter : R;
  is_curved : bool;
  control_points : option (list Point2D);
  bend_radius : option R
}.

Record HeatingCircuit : Type := mkHeatingCircuit {
  circuit_id : string;
  room_id : string;
  segments : list PipeSegment;
  flow_rate : R;
  supply_temperature : R;
  return_temperature : R
}.

(** [HYDRAULIC_CONSTANTS] *)
Definition WATER_DENSITY : R := 998.2.
Definition WATER_VISCOSITY : R := 0.001002.
Definition PIPE_ROUGHNESS : R := 0.0000015.
Definition CRITICAL_PRESSURE_LOSS : R := 300.

(** The body of the [for (const cp of segment.control_points)] loop: the
    pair is ([length], [prev]). *)
Definition spline_step (acc : R * Point2D) (cp : Point2D) : R * Point2D :=
  let '(length, prev) := acc in
  let dx := x cp - x prev in
  let dy := y cp - y prev in
  (length + sqrt (dx * dx + dy * dy), cp).

Definition calculateSegmentLength (segment : PipeSegment) : R :=
  let fallback :=
    let dx := x (end_ segment) - x (start segment) in
    let dy := y (end_ segment) - y (start segment) in
    sqrt (dx * dx + dy * dy) in
  if negb (is_curved segment) then
    let dx := x (end_ segment) - x (start segment) in
    let dy := y (end_ segment) - y (start segment) in
    sqrt (dx * dx + dy * dy)
  else
    match JSNum.truthy (bend_radius segment) with
    | Some radius =>
        let dx := x (end_ segment) - x (start segment) in
        let dy := y (end_ segment) - y (start segment) in
        let chordLength := sqrt (dx * dx + dy * dy) in
        let ratio := chordLength / (2 * radius) in
        let clampedRatio := Rmax (-1) (Rmin 1 ratio) in
        let angle := 2 * asin clampedRatio in
        radius * angle
    | None =>
        match control_points segment with
        | Some ((_ :: _) as cps) =>
            let '(length, prev) := fold_left spline_step cps (0, start segment) in
            let dx := x (end_ segment) - x prev in
            let dy := y (end_ segment) - y prev in
            length + sqrt (dx * dx + dy * dy)
        | _ => fallback
        end
    end.

Definition calculateCircuitLength (circuit : HeatingCircuit) : R :=
  fold_left (fun total segment => total + calculateSegmentLength segment)
            (segments circuit) 0.

Definition calculateReynolds (velocity diameter : R) : R :=
  (WATER_DENSITY * velocity * diameter) / WATER_VISCOSITY.

Definition calculateFrictionFactor (reynolds diameter : R) : R :=
  let roughness := PIPE_ROUGHNESS in
  let term1 := roughness / (3.7 * diameter) in
  let term2 := 5.74 / Rpower reynolds 0.9 in
  0.25 / (JSNum.log10 (term1 + term2)) ^ 2.

Definition calculatePressureLoss (circuit : HeatingCircuit) : R :=
  let length := calculateCircuitLength circuit in
  let flowRateCubicMetersPerSec := flow_rate circuit / 3600 / 1000 in
  match segments circuit with
  | [] => 0
  | first :: _ =>
      let diameter := diameter first in
      let area := PI * (diameter / 2) ^ 2 in
      let velocity := flowRateCubicMetersPerSec / area in
      let reynolds := calculateReynolds velocity diameter in
      let frictionFactor := calculateFrictionFactor reynolds diameter in
      let pressureLossPa :=
        frictionFactor * (length / diameter) *
        (WATER_DENSITY * velocity ^ 2 / 2) in
      pressureLossPa * 0.01
  end.

Definition isCriticalCircuit (circuit : HeatingCircuit) : bool :=
  let pressureLoss := calculatePressureLoss circuit in
  JSNum.gtb pressureLoss CRITICAL_PRESSURE_LOSS.

End PPipe.

(** ** [src/models/CostAPI.ts] *)

Module CostAPI.

(** A row of the price table; the display-only fields ([name], [unit],
    [description]) are left out. *)
Record MaterialPrice : Type := mkMaterialPrice {
  id : string;
  price_per_unit : R
}.

(** [MATERIAL_COSTS_2025.materials] *)
Definition MATERIAL_COSTS_2025 : list MaterialPrice :=
  [ mkMaterialPrice "pipe_16mm" 4.5;
    mkMaterialPrice "pipe_20mm" 5.8;
    mkMaterialPrice "eps_plate_30mm" 8.5;
    mkMaterialPrice "eps_plate_50mm" 12.0;
    mkMaterialPrice "alu_sheet" 18.0;
    mkMaterialPrice "window_single" 150.0;
    mkMaterialPrice "window_double" 280.0;
    mkMaterialPrice "window_triple" 450.0;
    mkMaterialPrice "manifold" 350.0;
    mkMaterialPrice "pump" 420.0;
    mkMaterialPrice "thermostat" 85.0 ]%string.

Record BudgetItem : Type := mkBudgetItem {
  material_id : string;
  quantity : R;
  unit_price : R;
  total_price : R
}.

Record Budget : Type := mkBudget {
  total_budget : R;
  items : list BudgetItem;
  total_spent : R;
  remaining_budget : R
}.

Definition getMaterialPrice (materialId : string) : option MaterialPrice :=
  find (fun m => String.eqb (id m) materialId) MATERIAL_COSTS_2025.

(** The body of the [for (const item of items)] loop of [calculateBudget];
    the pair is ([budgetItems], [totalSpent]). *)
Definition budget_step (acc : list BudgetItem * R) (item : string * R)
  : list BudgetItem * R :=
  let '(budgetItems, totalSpent) := acc in
  match getMaterialPrice (fst item) with
  | Some material =>
      let itemTotal := price_per_unit material * snd item in
      (budgetItems ++
         [mkBudgetItem (fst item) (snd item) (price_per_unit material) itemTotal],
       totalSpent + itemTotal)
  | None => acc
  end.

Definition calculateBudget (totalBudget : R) (items : list (string * R)) : Budget :=
  let '(budgetItems, totalSpent) := fold_left budget_step items ([], 0) in
  mkBudget totalBudget budgetItems totalSpent (totalBudget - totalSpent).

Definition isWithinBudget (budget : Budget) : bool :=
  JSNum.geb (remaining_budget budget) 0.

End CostAPI.

(** ** [src/solvers/HydraulicSolver.ts] *)

Module HydraulicSolver.

(** [HEAT_TRANSFER_CONSTANTS] *)
Definition WATER_SPECIFIC_HEAT : R := 4186.
Definition TYPICAL_TEMP_DROP : R := 5.
Definition BASE_HEAT_OUTPUT_PER_METER : R := 10.
Definition HEAT_OUTPUT_TEMP_COEFFICIENT : R := 2.
Definition STANDARD_ROOM_TEMP : R := 21.

Record CircuitDesignParams : Type := mkCircuitDesignParams {
  room_area : R;
  pipe_spacing : R;
  room_width : R;
  room_length : R;
  pipe_diameter : R;
  supply_temperature : R;
  return_temperature : R;
  heat_output_required : R
}.

Record CircuitSolution : Type := mkCircuitSolution {
  circuit : PPipe.HeatingCircuit;
  total_length : R;
  pressure_loss : R;
  is_critical : bool;
  budget : CostAPI.Budget;
  estimated_heat_output : R;
  flow_rate : R
}.

(** The [while (currentY < length)] loop of [generateSerpentineLayout].  The
    loop variables are [segments], [segmentId], [currentY] and [direction];
    [fuel] bounds the number of evaluations of the loop test, and [None]
    means that the loop is still running when the fuel is spent.
    [currentY] is accumulated over the reals: where [length - spacing / 2]
    is a multiple of [spacing] that the doubles do not represent exactly
    (spacing 0.1 and length 0.95), the sum in double precision can stay
    below [length] for one more row than it does here. *)
Fixpoint serpentine_loop (fuel : nat) (params : CircuitDesignParams)
    (segments : list PPipe.PipeSegment) (segmentId : nat)
    (currentY direction : R) : option (list PPipe.PipeSegment) :=
  let spacing := pipe_spacing params in
  let width := room_width params in
  let length := room_length params in
  match fuel with
  | O => None
  | S fuel' =>
      if JSNum.ltb currentY length then
        let startX := if Req_dec_T direction 1 then 0 else width in
        let endX := if Req_dec_T direction 1 then width else 0 in
        let segments :=
          segments ++
          [PPipe.mkPipeSegment ("seg_" ++ JSNum.decimal segmentId)
             (PPipe.mkPoint2D startX currentY) (PPipe.mkPoint2D endX currentY)
             (pipe_diameter params) false None None] in
        let segmentId := S segmentId in
        let nextY := currentY + spacing in
        let '(segments, segmentId) :=
          if JSNum.ltb nextY length then
            let turnStartX := endX in
            let turnEndX := endX in
            (segments ++
             [PPipe.mkPipeSegment ("seg_" ++ JSNum.decimal segmentId)
                (PPipe.mkPoint2D turnStartX currentY)
                (PPipe.mkPoint2D turnEndX nextY)
                (pipe_diameter params) true None (Some (spacing / 2))],
             S segmentId)
          else (segments, segmentId) in
        serpentine_loop fuel' params segments segmentId nextY (direction * -1)
      else Some segments
  end.

Definition generateSerpentineLayout (fuel : nat) (params : CircuitDesignParams)
  : option (list PPipe.PipeSegment) :=
  let spacing := pipe_spacing params in
  serpentine_loop fuel params [] 0 (spacing / 2) 1.

Definition calculateRequiredFlowRate (heatOutput supplyTemp returnTemp : R) : R :=
  let deltaT := supplyTemp - returnTemp in
  let massFlowRate := heatOutput / (WATER_SPECIFIC_HEAT * deltaT) in
  let volumeFlowRate := massFlowRate / PPipe.WATER_DENSITY in
  volumeFlowRate * 1000 * 3600.

Definition estimateHeatOutput (pipeLength supplyTemp roomTemp pipeSpacing : R)
    (returnTemp : option R) : R :=
  let effectiveReturnTemp :=
    match returnTemp with
    | Some t => t
    | None => supplyTemp - TYPICAL_TEMP_DROP
    end in
  let avgTemp := (supplyTemp + effectiveReturnTemp) / 2 in
  let deltaT := avgTemp - roomTemp in
  let q_per_meter :=
    BASE_HEAT_OUTPUT_PER_METER + (deltaT * HEAT_OUTPUT_TEMP_COEFFICIENT) in
  pipeLength * q_per_meter.

Definition solveHydraulicCircuit (fuel : nat) (params : CircuitDesignParams)
    (roomId : string) (totalBudget : R) : option CircuitSolution :=
  let flowRate :=
    calculateRequiredFlowRate (heat_output_required params)
      (supply_temperature params) (return_temperature params) in
  match generateSerpentineLayout fuel params with
  | None => None
  | Some segments =>
      let circuit :=
        PPipe.mkHeatingCircuit ("circuit_" ++ roomId) roomId segments flowRate
          (supply_temperature params) (return_temperature params) in
      let totalLength := PPipe.calculateCircuitLength circuit in
      let pressureLoss := PPipe.calculatePressureLoss circuit in
      let isCrit := PPipe.isCriticalCircuit circuit in
      let pipeType :=
        if JSNum.geb (pipe_diameter params) 0.02
        then "pipe_20mm"%string else "pipe_16mm"%string in
      let materialItems :=
        [ (pipeType, totalLength);
          ("eps_plate_30mm"%string, room_area params);
          ("alu_sheet"%string, room_area params);
          ("manifold"%string, 1);
          ("thermostat"%string, 1) ] in
      let budget := CostAPI.calculateBudget totalBudget materialItems in
      let estimatedOutput :=
        estimateHeatOutput totalLength (supply_temperature params)
          STANDARD_ROOM_TEMP (pipe_spacing params) None in
      Some (mkCircuitSolution circuit totalLength pressureLoss isCrit budget
              estimatedOutput flowRate)
  end.

Definition kitchenParams : CircuitDesignParams :=
  mkCircuitDesignParams 13.0 0.125 3.5 3.7 0.016 35 30 1300.

Definition solveKitchenPrototype (fuel : nat) : option CircuitSolution :=
  solveHydraulicCircuit fuel kitchenParams "kitchen" 15000.

End HydraulicSolver.

(** ** [js/heat-simulation.js] *)

Module HeatSimulation.

Record HeatSource : Type := mkHeatSource {
  row : Z;
  col : Z;
  temperature : R
}.

(** What the class writes to the console. *)
Inductive ConsoleLine : Type :=
| warn (msg : string)
| log (msg : string).

(** The instance fields.  [rows] and [cols] are array lengths, hence natural
    numbers; the two buffers are arrays of rows.  The [walls] list is only
    ever appended to by [addWall] and never read, and is left out. *)
Record t : Type := mkHeatSimulation {
  width : R;
  height : R;
  gridSize : R;
  cols : nat;
  rows : nat;
  temp : list (list R);
  tempNext : list (list R);
  heatSources : list HeatSource;
  outsideTemp : R
}.

(** [grid[i][j]] for an index inside the grid. *)
Definition get2 (grid : list (list R)) (i j : nat) : R :=
  nth j (nth i grid []) 0.

(** [a[i] = v] for an index inside the array. *)
Fixpoint set_nth {A : Type} (i : nat) (v : A) (a : list A) : list A :=
  match a, i with
  | [], _ => []
  | _ :: rest, O => v :: rest
  | h :: rest, S i' => h :: set_nth i' v rest
  end.

(** [grid[i][j] = v] for an index inside the grid. *)
Definition set2 (grid : list (list R)) (i j : nat) (v : R) : list (list R) :=
  set_nth i (set_nth j v (nth i grid [])) grid.

(** [new HeatSimulation(width, height, gridSize)].  [None] when [Array(n)]
    raises a RangeError: for a negative length, and for the infinite or NaN
    length that a zero [gridSize] gives.  The limit of 2^32 - 1 on array
    lengths is not modelled: the result [Some] stands for an instance only
    below this limit.  The quotients are taken over the reals: where
    [width / gridSize] is an integer that the doubles miss (1.1 / 0.1) the
    constructor can build one column more than [Zceil] gives. *)
Definition new (width height gridSize : R) : option t :=
  if Req_dec_T gridSize 0 then None
  else
    let cols := Zceil (width / gridSize) in
    let rows := Zceil (height / gridSize) in
    if ((0 <=? cols) && (0 <=? rows))%Z then
      Some (mkHeatSimulation width height gridSize (Z.to_nat cols) (Z.to_nat rows)
              (repeat (repeat 20 (Z.to_nat cols)) (Z.to_nat rows))
              (repeat (repeat 20 (Z.to_nat cols)) (Z.to_nat rows))
              [] (-10))
    else None.

Definition set_outsideTemp (v : R) (s : t) : t :=
  mkHeatSimulation (width s) (height s) (gridSize s) (cols s) (rows s)
    (temp s) (tempNext s) (heatSources s) v.

Definition in_range (s : t) (row col : Z) : bool :=
  ((0 <=? row) && (row <? Z.of_nat (rows s)) &&
   (0 <=? col) && (col <? Z.of_nat (cols s)))%Z.

(** [addHeatSource(x, y, temperature)].  The cell is the floor of a quotient
    taken over the reals: where [x / gridSize] is an integer that the
    doubles miss (0.9 / 0.1) the method can register the next cell, or
    accept a point that is dropped here. *)
Definition addHeatSource (x y temperature : R) (s : t) : t :=
  let col := Zfloor (x / gridSize s) in
  let row := Zfloor (y / gridSize s) in
  if in_range s row col then
    mkHeatSimulation (width s) (height s) (gridSize s) (cols s) (rows s)
      (temp s) (tempNext s)
      (heatSources s ++ [mkHeatSource row col temperature]) (outsideTemp s)
  else s.

Definition applyBoundary (s : t) (temp : R) : R :=
  let uValue := 1.4 in
  let heatLoss := uValue * (temp - outsideTemp s) * 0.01 in
  temp - heatLoss.

(** [this.heatSources.forEach(...)] of [step]: pin the source cells. *)
Definition pin (s : t) (grid : list (list R)) (source : HeatSource) : list (list R) :=
  if in_range s (row source) (col source) then
    set2 grid (Z.to_nat (row source)) (Z.to_nat (col source)) (temperature source)
  else grid.

(** The interior double loop of [step]: [i] and [j] range over
    [1 .. rows-2] and [1 .. cols-2]. *)
Definition diffuse (s : t) (r : R) (cur next : list (list R)) : list (list R) :=
  fold_left (fun next i =>
    fold_left (fun next j =>
      let laplacian :=
        get2 cur (i - 1) j + get2 cur (i + 1) j +
        get2 cur i (j - 1) + get2 cur i (j + 1) - 4 * get2 cur i j in
      set2 next i j (get2 cur i j + r * laplacian))
      (seq 1 (cols s - 2)) next)
    (seq 1 (rows s - 2)) next.

(** The two boundary loops of [step]. *)
Definition boundary_rows (s : t) (cur next : list (list R)) : list (list R) :=
  fold_left (fun next j =>
    let next := set2 next 0 j (applyBoundary s (get2 cur 0 j)) in
    set2 next (rows s - 1) j (applyBoundary s (get2 cur (rows s - 1) j)))
    (seq 0 (cols s)) next.

Definition boundary_cols (s : t) (cur next : list (list R)) : list (list R) :=
  fold_left (fun next i =>
    let next := set2 next i 0 (applyBoundary s (get2 cur i 0)) in
    set2 next i (cols s - 1) (applyBoundary s (get2 cur i (cols s - 1))))
    (seq 0 (rows s)) next.

(** [step(deltaTime)].  The result is the mutated instance and the console
    output of the call.  [None] when the call leaves the model: with no row
    but some column [this.temp[0][j]] raises a TypeError, and with no column
    but some row the boundary loop stores [NaN]. *)
Definition step (deltaTime : R) (s : t) : option (t * list ConsoleLine) :=
  let alpha := 0.0001 in
  let dx := gridSize s in
  let dt := deltaTime in
  let r := alpha * dt / (dx * dx) in
  let out :=
    if JSNum.gtb r 0.25
    then [warn "Simulation may be unstable. Consider smaller time step."]
    else [] in
  if xorb (rows s =? 0)%nat (cols s =? 0)%nat then None
  else
    let cur := fold_left (pin s) (heatSources s) (temp s) in
    let next := diffuse s r cur (tempNext s) in
    let next := boundary_rows s cur next in
    let next := boundary_cols s cur next in
    Some (mkHeatSimulation (width s) (height s) (gridSize s) (cols s) (rows s)
            next cur (heatSources s) (outsideTemp s), out).

Definition getMaxChange (s : t) : R :=
  fold_left (fun maxChange i =>
    fold_left (fun maxChange j =>
      let change := Rabs (get2 (temp s) i j - get2 (tempNext s) i j) in
      Rmax maxChange change)
      (seq 0 (cols s)) maxChange)
    (seq 0 (rows s)) 0.

(** The [for (let i = 0; i < maxSteps; i++)] loop of [runToSteadyState];
    [todo] is [maxSteps - i]. *)
Fixpoint run_loop (todo i : nat) (s : t) (out : list ConsoleLine)
  : option (t * list ConsoleLine) :=
  match todo with
  | O => Some (s, out)
  | S todo' =>
      match step 1.0 s with
      | None => None
      | Some (s', o) =>
          let out := out ++ o in
          if (i mod 100 =? 0)%nat then
            let maxChange := getMaxChange s' in
            if JSNum.ltb maxChange 0.01 then
              Some (s', out ++
                [log ("Converged after " ++ JSNum.decimal i ++ " steps")])
            else run_loop todo' (S i) s' out
          else run_loop todo' (S i) s' out
      end
  end.

(** [runToSteadyState(maxSteps)]: the method returns [undefined]; the caller
    is left with the mutated instance, and the console with its lines. *)
Definition runToSteadyState (maxSteps : nat) (s : t)
  : option (t * list ConsoleLine) :=
  run_loop maxSteps 0 s [].

Definition getAverageTemp (s : t) : R :=
  let '(sum, count) :=
    fold_left (fun acc i =>
      fold_left (fun acc j => (fst acc + get2 (temp s) i j, S (snd acc)))
        (seq 0 (cols s)) acc)
      (seq 0 (rows s)) (0, O) in
  sum / INR count.

(** [getTempAt(x, y)]: the cell is computed as in [addHeatSource], and so
    is the same cell as there, here and in double precision. *)
Definition getTempAt (x y : R) (s : t) : R :=
  let col := Zfloor (x / gridSize s) in
  let row := Zfloor (y / gridSize s) in
  if in_range s row col then get2 (temp s) (Z.to_nat row) (Z.to_nat col)
  else 20.

(** [k] calls of [step()], console output dropped. *)
Fixpoint steps (k : nat) (s : t) : option t :=
  match k with
  | O => Some s
  | S k' =>
      match step 1.0 s with
      | Some (s', _) => steps k' s'
      | None => None
      end
  end.

End HeatSimulation.

(** ** [src/models/LFloor.ts] *)

Module LFloor.

(** [MaterialProperties]; the optional [description] is left out. *)
Record MaterialProperties : Type := mkMaterialProperties {
  name : string;
  material_density : R;
  u_value : R;
  thermal_bridge_coefficient : R
}.

Definition HOLLOW_BLOCK_1957 : MaterialProperties :=
  mkMaterialProperties "Hohlblockstein 1957" 800 1.4 0.15.

Module Wall.
Record t : Type := mk {
  id : string;
  length : R;
  height : R;
  material : MaterialProperties;
  is_exterior : bool
}.
End Wall.

Module Window.
(** [glazing_type] is a number at run time (1, 2 or 3 by its type). *)
Record t : Type := mk {
  id : string;
  width : R;
  height : R;
  glazing_type : R;
  u_value : R
}.
End Window.

Module Room.
Record t : Type := mk {
  id : string;
  name : string;
  area : R;
  height : R;
  target_temperature : R;
  walls : list Wall.t;
  windows : list Window.t
}.
End Room.

(** The body of the [for (const wall of room.walls)] loop. *)
Definition wall_step (deltaT totalHeatLoss : R) (wall : Wall.t) : R :=
  if Wall.is_exterior wall then
    let area := Wall.length wall * Wall.height wall in
    let wallLoss := u_value (Wall.material wall) * area * deltaT in
    let bridgeLoss :=
      thermal_bridge_coefficient (Wall.material wall) * Wall.length wall * deltaT in
    totalHeatLoss + (wallLoss + bridgeLoss)
  else totalHeatLoss.

(** The body of the [for (const window of room.windows)] loop. *)
Definition window_step (deltaT totalHeatLoss : R) (window : Window.t) : R :=
  let area := Window.width window * Window.height window in
  let windowLoss := Window.u_value window * area * deltaT in
  totalHeatLoss + windowLoss.

Definition calculateRoomHeatLoss (room : Room.t) (exterior_temp : R) : R :=
  let deltaT := Room.target_temperature room - exterior_temp in
  let totalHeatLoss := fold_left (wall_step deltaT) (Room.walls room) 0 in
  fold_left (window_step deltaT) (Room.windows room) totalHeatLoss.

(** [WINDOW_U_VALUES] *)
Module WINDOW_U_VALUES.
Definition single : R := 5.8.
Definition double : R := 2.8.
Definition triple : R := 0.8.
End WINDOW_U_VALUES.

End LFloor.

(** ** The window-upgrade analysis of the Level 1 example script *)

Module WindowUpgrade.

Import LFloor.

(** [w.glazing_type === 1] *)
Definition is_single (w : Window.t) : bool :=
  if Req_dec_T (Window.glazing_type w) 1 then true else false.

(** [singleGlazedWindows.reduce((sum, w) => sum + w.width * w.height, 0)] *)
Definition windowArea (room : Room.t) : R :=
  fold_left (fun sum w => sum + Window.width w * Window.height w)
    (filter is_single (Room.windows room)) 0.

(** [{ ...room, windows: room.windows.map(...) }] *)
Definition upgradedRoom (room : Room.t) : Room.t :=
  Room.mk (Room.id room) (Room.name room) (Room.area room) (Room.height room)
    (Room.target_temperature room) (Room.walls room)
    (map (fun w =>
            if is_single w
            then Window.mk (Window.id w) (Window.width w) (Window.height w) 3
                   WINDOW_U_VALUES.triple
            else w)
       (Room.windows room)).

Definition heatLossReduction (room : Room.t) (exterior_temp : R) : R :=
  calculateRoomHeatLoss room exterior_temp -
  calculateRoomHeatLoss (upgradedRoom room) exterior_temp.

Definition upgradeCost (room : Room.t) : R := windowArea room * (450 - 150).

Definition costPerWatt (room : Room.t) (exterior_temp : R) : R :=
  upgradeCost room / heatLossReduction room exterior_temp.

End WindowUpgrade.

(** ** [js/cost-calculator.js] *)

Module CostCalculator.

(** [this.costs] *)
Record Costs : Type := mkCosts {
  pipes : R;
  insulation : R;
  windows : R;
  labor : R;
  misc : R
}.

Record t : Type := mk {
  budget : R;
  costs : Costs
}.

(** [new CostCalculator(budget)] *)
Definition new (budget : R) : t := mk budget (mkCosts 0 0 0 0 0).

(** The methods return the updated instance and the value returned;
    default arguments ([thickness = 0.1], [glazingType = 'DOPPEL'],
    [rate = 65]) are passed by the caller. *)
Definition calculatePipeCost (length radius : R) (c : t) : t * R :=
  let diameter := radius * 2000 in
  let materialCostPerMeter := 20 + (diameter / 16) * 5 in
  let installationCostPerMeter := 35 in
  let v := length * (materialCostPerMeter + installationCostPerMeter) in
  (mk (budget c)
      (mkCosts v (insulation (costs c)) (windows (costs c)) (labor (costs c))
         (misc (costs c))), v).

Definition calculateInsulationCost (area thickness : R) (c : t) : t * R :=
  let costPerSqm := 40 * (thickness / 0.1) in
  let v := area * costPerSqm in
  (mk (budget c)
      (mkCosts (pipes (costs c)) v (windows (costs c)) (labor (costs c))
         (misc (costs c))), v).

(** The price table of [calculateWindowCost], an object literal. *)
Definition glazing_costs : list (string * R) :=
  [ ("EINFACHGLAS", 0); ("DOPPEL", 350); ("DREIFACH", 500) ]%string.

(** The property names that an object literal inherits from
    [Object.prototype]: looking one of them up in the table yields a
    function or an object, not a price. *)
Definition inherited : list string :=
  [ "constructor"; "toString"; "toLocaleString"; "valueOf"; "hasOwnProperty";
    "isPrototypeOf"; "propertyIsEnumerable"; "__proto__"; "__defineGetter__";
    "__defineSetter__"; "__lookupGetter__"; "__lookupSetter__" ]%string.

(** [costs[glazingType]] for a string that names no inherited property. *)
Definition lookup (key : string) (table : list (string * R)) : option R :=
  option_map snd (find (fun e => String.eqb (fst e) key) table).

(** [calculateWindowCost(area, glazingType)] for a string [glazingType];
    [None] when the lookup yields an inherited property, whose product with
    the area is [NaN]. *)
Definition calculateWindowCost (area : R) (glazingType : string) (c : t)
  : option (t * R) :=
  if existsb (String.eqb glazingType) inherited then None
  else
    let perSqm :=
      match JSNum.truthy (lookup glazingType glazing_costs) with
      | Some v => v
      | None => 350
      end in
    let v := area * perSqm in
    Some (mk (budget c)
            (mkCosts (pipes (costs c)) (insulation (costs c)) v
               (labor (costs c)) (misc (costs c))), v).

Definition addLaborCost (hours rate : R) (c : t) : t * R :=
  let v := hours * rate in
  (mk (budget c)
      (mkCosts (pipes (costs c)) (insulation (costs c)) (windows (costs c)) v
         (misc (costs c))), v).

Definition addMiscCost (amount : R) (c : t) : t * R :=
  let v := misc (costs c) + amount in
  (mk (budget c)
      (mkCosts (pipes (costs c)) (insulation (costs c)) (windows (costs c))
         (labor (costs c)) v), v).

(** [Object.values(this.costs).reduce((sum, cost) => sum + cost, 0)] *)
Definition getTotalCost (c : t) : R :=
  fold_left (fun sum cost => sum + cost)
    [ pipes (costs c); insulation (costs c); windows (costs c);
      labor (costs c); misc (costs c) ] 0.

Definition getRemainingBudget (c : t) : R := budget c - getTotalCost c.

Definition isOverBudget (c : t) : bool := JSNum.gtb (getTotalCost c) (budget c).

Definition reset (c : t) : t := mk (budget c) (mkCosts 0 0 0 0 0).

End CostCalculator.

(** ** Notions used to state the properties *)

Module Spec.

(** Euclidean distance between two points. *)
Definition distance (a b : PPipe.Point2D) : R :=
  sqrt ((PPipe.x b - PPipe.x a) * (PPipe.x b - PPipe.x a) +
        (PPipe.y b - PPipe.y a) * (PPipe.y b - PPipe.y a)).

(** The chord of a segment: the distance between its end points. *)
Definition chord (s : PPipe.PipeSegment) : R :=
  distance (PPipe.start s) (PPipe.end_ s).

Definition clamp (v lo hi : R) : R := Rmax lo (Rmin hi v).

End Spec.

Module Layout.

Import PPipe.
Import HydraulicSolver.

(** The straight run and the turn emitted by one iteration of the loop of
    [generateSerpentineLayout]. *)
Definition run_segment (params : CircuitDesignParams) (segmentId : nat)
    (currentY direction : R) : PipeSegment :=
  mkPipeSegment ("seg_" ++ JSNum.decimal segmentId)
    (mkPoint2D (if Req_dec_T direction 1 then 0 else room_width params) currentY)
    (mkPoint2D (if Req_dec_T direction 1 then room_width params else 0) currentY)
    (pipe_diameter params) false None None.

Definition turn_segment (params : CircuitDesignParams) (segmentId : nat)
    (currentY direction : R) : PipeSegment :=
  mkPipeSegment ("seg_" ++ JSNum.decimal segmentId)
    (mkPoint2D (if Req_dec_T direction 1 then room_width params else 0) currentY)
    (mkPoint2D (if Req_dec_T direction 1 then room_width params else 0)
       (currentY + pipe_spacing params))
    (pipe_diameter params) true None (Some (pipe_spacing params / 2)).

(** [n] rows remain to be laid from height [y0]: the loop test succeeds at
    [y0], [y0 + spacing], ..., [y0 + (n-1) spacing] and fails at
    [y0 + n spacing]. *)
Definition rows_remaining (params : CircuitDesignParams) (n : nat) (y0 : R) : Prop :=
  (forall k, (k < n)%nat -> y0 + INR k * pipe_spacing params < room_length params) /\
  room_length params <= y0 + INR n * pipe_spacing params.

(** What the loop appends when [n] rows remain. *)
Fixpoint layout_from (params : CircuitDesignParams) (n segmentId : nat)
    (currentY direction : R) : list PipeSegment :=
  match n with
  | O => []
  | S O => [run_segment params segmentId currentY direction]
  | S n' =>
      run_segment params segmentId currentY direction ::
      turn_segment params (S segmentId) currentY direction ::
      layout_from params n' (S (S segmentId)) (currentY + pipe_spacing params)
        (direction * -1)
  end.

(** The straight runs and the turns of a layout. *)
Definition straight_runs (l : list PipeSegment) : list PipeSegment :=
  filter (fun s => negb (is_curved s)) l.

Definition turns (l : list PipeSegment) : list PipeSegment :=
  filter is_curved l.

End Layout.

Module Grid.

Import HeatSimulation.

(** The grid in which every cell holds [v]. *)
Definition uniform (v : R) (nrows ncols : nat) : list (list R) :=
  repeat (repeat v ncols) nrows.

(** A buffer of [nrows] rows of [ncols] cells. *)
Definition shape (nrows ncols : nat) (grid : list (list R)) : Prop :=
  List.length grid = nrows /\ Forall (fun r => List.length r = ncols) grid.

(** Both buffers have [rows] rows of [cols] cells, as the constructor builds
    them and every method keeps them; on such an instance every index that
    [step], [getMaxChange] and [getAverageTemp] use is inside the grid. *)
Definition well_formed (s : t) : Prop :=
  shape (rows s) (cols s) (temp s) /\ shape (rows s) (cols s) (tempNext s).

(** The ambient state: no heat source, outside temperature 20, and both
    buffers filled with 20 as the constructor leaves them. *)
Definition ambient (s : t) : Prop :=
  heatSources s = [] /\ outsideTemp s = 20 /\
  temp s = uniform 20 (rows s) (cols s) /\
  tempNext s = uniform 20 (rows s) (cols s).

End Grid.

Module SteadyState.

Import HeatSimulation.

(** How a run of [runToSteadyState] ends: by the [break] of the convergence
    test, or with the step budget spent. *)
Inductive TerminationMode : Type := Converged | Exhausted.

Definition is_log (line : ConsoleLine) : bool :=
  match line with log _ => true | warn _ => false end.

(** The [console.log] lines of a console output. *)
Definition logs (out : list ConsoleLine) : list ConsoleLine := filter is_log out.

(** The mode of a run, read off the console: the run logs a line exactly
    when it leaves the loop by [break]. *)
Definition mode_of (out : list ConsoleLine) : TerminationMode :=
  match logs out with [] => Exhausted | _ :: _ => Converged end.

(** The line logged when the test succeeds at loop index [i]. *)
Definition converged_line (i : nat) : ConsoleLine :=
  log ("Converged after " ++ JSNum.decimal i ++ " steps").

(** The convergence test of loop index [i] on the grid [s] just stepped. *)
Definition test_passes (i : nat) (s : t) : Prop :=
  (i mod 100 = 0)%nat /\ getMaxChange s < 0.01.

(** [m] is the largest absolute difference, over the cells of the grid,
    between the two buffers of [s] (0 for a grid without cells). *)
Definition largest_change (s : t) (m : R) : Prop :=
  (forall i j, (i < rows s)%nat -> (j < cols s)%nat ->
     Rabs (get2 (temp s) i j - get2 (tempNext s) i j) <= m) /\
  (m = 0 \/
   exists i j, (i < rows s)%nat /\ (j < cols s)%nat /\
     m = Rabs (get2 (temp s) i j - get2 (tempNext s) i j)).

(** The grid a step starts from: the current buffer with the heat sources
    pinned. *)
Definition pinned (s : t) : list (list R) :=
  fold_left (pin s) (heatSources s) (temp s).

(** The caller of [runToSteadyState] holds the step budget it passed and the
    instance after the call (the method returns [undefined]).  It can tell
    the two modes apart when some observation of these recovers the mode. *)
Definition caller_can_distinguish : Prop :=
  exists observe : nat -> t -> TerminationMode,
  forall maxSteps s s' out,
    runToSteadyState maxSteps s = Some (s', out) ->
    observe maxSteps s' = mode_of out.

(** A one-cell simulator (a 0.125 m square room on the default grid) whose
    outside temperature has been set to 20.72: the cell holds [a], the
    other buffer [b]. *)
Definition cell (a b : R) : t :=
  mkHeatSimulation 0.125 0.125 0.125 1 1 [[a]] [[b]] [] 20.72.

(** The boundary rule with the outside temperature at 20.72. *)
Definition cool (v : R) : R := v - 1.4 * (v - 20.72) * 0.01.

(** The fill value of a fresh grid. *)
Definition a0 : R := 20.

End SteadyState.

Module Analysis.

(** The argument of the logarithm in the Swamee-Jain formula. *)
Definition sj_arg (reynolds diameter : R) : R :=
  PPipe.PIPE_ROUGHNESS / (3.7 * diameter) + 5.74 / Rpower reynolds 0.9.

(** The pressure loss in mbar of a circuit of total length [length] whose
    first segment has diameter [diameter], at flow rate [flow] (L/h). *)
Definition darcy (flow length diameter : R) : R :=
  let velocity := flow / 3600 / 1000 / (PI * (diameter / 2) ^ 2) in
  let reynolds := PPipe.calculateReynolds velocity diameter in
  PPipe.calculateFrictionFactor reynolds diameter * (length / diameter) *
  (PPipe.WATER_DENSITY * velocity ^ 2 / 2) * 0.01.

(** The Reynolds number of the flow [flow] (L/h) in a pipe of diameter
    [diameter]. *)
Definition reynolds_of (flow diameter : R) : R :=
  PPipe.calculateReynolds
    (flow / 3600 / 1000 / (PI * (diameter / 2) ^ 2)) diameter.

(** [Re * D], which depends on the flow only. *)
Definition kappa (flow : R) : R :=
  PPipe.WATER_DENSITY * (flow / 3600 / 1000 / (PI / 4)) / PPipe.WATER_VISCOSITY.

(** [l] is a chain of lower bounds of successive squares starting at [a]. *)
Fixpoint squares_below (a : R) (l : list R) : Prop :=
  match l with
  | [] => True
  | b :: l' => 0 <= b /\ b <= a * a /\ squares_below b l'
  end.

(** [l] is a chain of upper bounds of successive squares starting at [a]. *)
Fixpoint squares_above (a : R) (l : list R) : Prop :=
  match l with
  | [] => True
  | b :: l' => a * a <= b /\ squares_above b l'
  end.

End Analysis.

Module Examples.

Import PPipe.

(** The 180-degree turn of the test suite ([seg_2]). *)
Definition test_turn : PipeSegment :=
  mkPipeSegment "seg_2" (mkPoint2D 5 0) (mkPoint2D 5 0.125) 0.016 true None
    (Some 0.0625).

(** A circuit of one straight 5 m segment of 16 mm pipe. *)
Definition one_run (flow : R) : HeatingCircuit :=
  mkHeatingCircuit "test_circuit" "test_room"
    [mkPipeSegment "seg_1" (mkPoint2D 0 0) (mkPoint2D 5 0) 0.016 false None None]
    flow 35 30.

(** A synthetic circuit at the critical threshold: one straight run of
    16 mm pipe at 300 L/h, as long as it takes to lose exactly 300 mbar. *)
Definition boundary_circuit : HeatingCircuit :=
  mkHeatingCircuit "boundary_circuit" "test_room"
    [mkPipeSegment "seg_1" (mkPoint2D 0 0)
       (mkPoint2D (300 / Analysis.darcy 300 1 0.016) 0) 0.016 false None None]
    300 35 30.

End Examples.

(** ** Further notions used to state the properties *)

Module GeometryNotions.

Import PPipe.

(** The length of the polyline through the points of [l]. *)
Fixpoint path_length (l : list Point2D) : R :=
  match l with
  | a :: ((b :: _) as rest) => Spec.distance a b + path_length rest
  | _ => 0
  end.

(** The segment laid the other way round: end points swapped, control
    points in reverse order. *)
Definition reverse_segment (s : PipeSegment) : PipeSegment :=
  mkPipeSegment (id s) (end_ s) (start s) (diameter s) (is_curved s)
    (option_map (@rev Point2D) (control_points s)) (bend_radius s).

(** The circuit [c] with the segments [l]. *)
Definition with_segments (c : HeatingCircuit) (l : list PipeSegment)
  : HeatingCircuit :=
  mkHeatingCircuit (circuit_id c) (room_id c) l (flow_rate c)
    (supply_temperature c) (return_temperature c).

(** A straight segment from [a] to [b]. *)
Definition straight (name : string) (a b : Point2D) (d : R) : PipeSegment :=
  mkPipeSegment name a b d false None None.

(** The point at parameter [t] on the line from [a] to [b]. *)
Definition point_at (a b : Point2D) (t : R) : Point2D :=
  mkPoint2D (x a + t * (x b - x a)) (y a + t * (y b - y a)).

End GeometryNotions.

Module LayoutShape.
Import PPipe.
Import HydraulicSolver.

(** Each segment ends where the next one starts. *)
Fixpoint connected (l : list PipeSegment) : Prop :=
  match l with
  | a :: ((b :: _) as rest) => end_ a = start b /\ connected rest
  | _ => True
  end.

(** A point on the left or the right wall, at a height between half a
    spacing and the room length. *)
Definition on_side_wall (params : CircuitDesignParams) (p : Point2D) : Prop :=
  (x p = 0 \/ x p = room_width params) /\
  pipe_spacing params / 2 <= y p < room_length params.

(** The number of rows of the layout. *)
Definition row_count (params : CircuitDesignParams) : nat :=
  Z.to_nat (Zceil ((room_length params - pipe_spacing params / 2)
                   / pipe_spacing params)).

End LayoutShape.

Module Ledger.
Import CostAPI.

(** The material id is one of the price table. *)
Definition known (materialId : string) : bool :=
  existsb (fun m => String.eqb (id m) materialId) MATERIAL_COSTS_2025.

(** The sum of the item totals of a budget. *)
Definition items_total (l : list BudgetItem) : R :=
  fold_right (fun it acc => total_price it + acc) 0 l.

(** An item of a budget is priced from the table. *)
Definition priced (it : BudgetItem) : Prop :=
  exists m, getMaterialPrice (material_id it) = Some m /\
            unit_price it = price_per_unit m /\
            total_price it = unit_price it * quantity it.

End Ledger.

Module Envelope.

Import LFloor.

(** The room with other walls and windows. *)
Definition with_envelope (room : Room.t) (walls : list Wall.t)
    (windows : list Window.t) : Room.t :=
  Room.mk (Room.id room) (Room.name room) (Room.area room) (Room.height room)
    (Room.target_temperature room) walls windows.

(** The room with another target temperature. *)
Definition with_target (room : Room.t) (target : R) : Room.t :=
  Room.mk (Room.id room) (Room.name room) (Room.area room) (Room.height room)
    target (Room.walls room) (Room.windows room).

(** The transmission of a wall and of a window, in W/K. *)
Definition wall_transmission (wall : Wall.t) : R :=
  if Wall.is_exterior wall then
    u_value (Wall.material wall) * (Wall.length wall * Wall.height wall) +
    thermal_bridge_coefficient (Wall.material wall) * Wall.length wall
  else 0.

Definition window_transmission (window : Window.t) : R :=
  Window.u_value window * (Window.width window * Window.height window).

Definition total (l : list R) : R := fold_right Rplus 0 l.

(** The transmission of the room, in W/K. *)
Definition transmission (room : Room.t) : R :=
  total (map wall_transmission (Room.walls room)) +
  total (map window_transmission (Room.windows room)).

(** What an upgrade to triple glazing gains on the single-glazed windows,
    in W/K. *)
Definition upgrade_gain (room : Room.t) : R :=
  total (map (fun w => (Window.u_value w - WINDOW_U_VALUES.triple) *
                     (Window.width w * Window.height w))
         (filter WindowUpgrade.is_single (Room.windows room))).

(** A living room of the 1957 house: an outer wall of hollow blocks, an
    inner wall, a single-glazed and a double-glazed window. *)
Definition living_room : Room.t :=
  Room.mk "living" "Wohnzimmer" 20 2.5 21
    [ Wall.mk "north" 5 2.5 HOLLOW_BLOCK_1957 true;
      Wall.mk "hall" 4 2.5 HOLLOW_BLOCK_1957 false ]
    [ Window.mk "w1" 1.2 1.4 1 WINDOW_U_VALUES.single;
      Window.mk "w2" 1 1 2 WINDOW_U_VALUES.double ].

End Envelope.

Module Stencil.

Import HeatSimulation.

(** The cell lies on the rim of the grid. *)
Definition on_boundary (s : t) (i j : nat) : bool :=
  ((i =? 0) || (i =? rows s - 1) || (j =? 0) || (j =? cols s - 1))%nat.

(** The explicit five-point update of an interior cell. *)
Definition stencil (r : R) (cur : list (list R)) (i j : nat) : R :=
  get2 cur i j +
  r * (get2 cur (i - 1) j + get2 cur (i + 1) j +
       get2 cur i (j - 1) + get2 cur i (j + 1) - 4 * get2 cur i j).

(** What a step stores for the cell, given the grid [cur] it starts from. *)
Definition next_value (s : t) (r : R) (cur : list (list R)) (i j : nat) : R :=
  if on_boundary s i j then applyBoundary s (get2 cur i j)
  else stencil r cur i j.

(** [r = alpha * dt / dx^2] of a step. *)
Definition courant (deltaTime : R) (s : t) : R :=
  0.0001 * deltaTime / (gridSize s * gridSize s).

(** Every cell of the grid holds a value between [lo] and [hi]. *)
Definition cells_within (lo hi : R) (nrows ncols : nat) (grid : list (list R))
  : Prop :=
  forall i j, (i < nrows)%nat -> (j < ncols)%nat -> lo <= get2 grid i j <= hi.

(** The grid, the heat sources and the outside lie between [lo] and [hi]. *)
Definition within (lo hi : R) (s : t) : Prop :=
  cells_within lo hi (rows s) (cols s) (temp s) /\
  Forall (fun src => lo <= temperature src <= hi) (heatSources s) /\
  lo <= outsideTemp s <= hi.

(** The buffer [next] has the shape of the grid and holds the new value of
    the cell [(i, j)]. *)
Definition holds (s : t) (r : R) (cur : list (list R)) (i j : nat)
    (next : list (list R)) : Prop :=
  Grid.shape (rows s) (cols s) next /\
  get2 next i j = next_value s r cur i j.

(** No heat source sits on the cell. *)
Definition unheated (s : t) (i j : nat) : Prop :=
  Forall (fun src => ~ (row src = Z.of_nat i /\ col src = Z.of_nat j))
    (heatSources s).

(** Every heat source has the temperature [T] and sits inside the grid. *)
Definition registered (T : R) (s : t) : Prop :=
  Forall (fun src => temperature src = T /\
                     in_range s (row src) (col src) = true) (heatSources s).

End Stencil.

Module GeometryExamples.

Import PPipe.

(** A spline from (0, 0) to (4, 0) over the control point (2, 1.5). *)
Definition arch : PipeSegment :=
  mkPipeSegment "arch" (mkPoint2D 0 0) (mkPoint2D 4 0) 0.016 true
    (Some [mkPoint2D 2 1.5]) None.

(** A circuit of a 16 mm run followed by a 20 mm run. *)
Definition mixed_circuit : HeatingCircuit :=
  mkHeatingCircuit "mixed" "room"
    [ mkPipeSegment "seg_0" (mkPoint2D 0 0) (mkPoint2D 3 0) 0.016 false None None;
      mkPipeSegment "seg_1" (mkPoint2D 3 0) (mkPoint2D 3 4) 0.02 false None None ]
    300 35 30.

End GeometryExamples.

Module SolverExamples.
Import HydraulicSolver.
(** A 4 m by 5 m room with 20 mm pipe at a spacing of 0.2 m. *)
Definition livingParams : CircuitDesignParams :=
  mkCircuitDesignParams 20 0.2 4 5 0.02 40 35 2000.
(** A room shorter than half the pipe spacing. *)
Definition nicheParams : CircuitDesignParams :=
  mkCircuitDesignParams 0.3 0.2 3 0.1 0.016 35 30 30.
End SolverExamples.

Module GridExamples.

Import HeatSimulation.

(** A 3 by 3 grid at 20 degrees with a source of 35 degrees on its middle
    cell: [new HeatSimulation(0.375, 0.375, 0.125)] after
    [addHeatSource(0.2, 0.2, 35)]. *)
Definition plate : t :=
  mkHeatSimulation 0.375 0.375 0.125 3 3
    (Grid.uniform 20 3 3) (Grid.uniform 20 3 3) [mkHeatSource 1 1 35] (-10).

End GridExamples.

(** ** The main application script: [ThermaCraft.runSimulation] *)

Module ThermaCraft.

Import HeatSimulation.

(** The heat simulation of [runSimulation()]: a 10 m by 10 m grid of the
    default cell size, a heat source of 35 degrees at every point sampled
    along the pipes, and at most 500 steps.  [points] are the points
    [(x, y)] passed to [addHeatSource], in the order of the two loops; a
    point with a coordinate that is no finite number (a pipe of length 0
    gives [0 / 0]) is dropped by [addHeatSource] and is not listed.  The
    result is the instance [sim] after the run and the console output of
    the run. *)
Definition runSimulation (points : list (R * R))
  : option (t * list ConsoleLine) :=
  match new 10 10 0.125 with
  | None => None
  | Some sim =>
      let sim :=
        fold_left (fun sim p => addHeatSource (fst p) (snd p) 35 sim)
          points sim in
      runToSteadyState 500 sim
  end.

End ThermaCraft.

(** Positivity of products and quotients of positive terms. *)
Ltac positive :=
  repeat first [ lra | apply Rdiv_lt_0_compat | apply Rmult_lt_0_compat
               | apply Rinv_0_lt_compat ].

(** * Geometry kernel *)

Section Geometry.

Import PPipe.

Lemma truthy_nonzero (r : R) : r <> 0 -> JSNum.truthy (Some r) = Some r.
Proof.
  intros Hr. unfold JSNum.truthy. destruct (Req_dec_T r 0); [contradiction | reflexivity].
Qed.

Lemma truthy_zero : JSNum.truthy (Some 0) = None.
Proof.
  unfold JSNum.truthy. destruct (Req_dec_T 0 0); [reflexivity | contradiction].
Qed.

Lemma straight_length (s : PipeSegment) :
  is_curved s = false -> calculateSegmentLength s = Spec.chord s.
Proof.
  intros H. unfold calculateSegmentLength. rewrite H. reflexivity.
Qed.

Lemma arc_length (s : PipeSegment) (r : R) :
  is_curved s = true -> bend_radius s = Some r -> r <> 0 ->
  calculateSegmentLength s =
  r * (2 * asin (Spec.clamp (Spec.chord s / (2 * r)) (-1) 1)).
Proof.
  intros Hc Hb Hr. unfold calculateSegmentLength.
  rewrite Hc, Hb, (truthy_nonzero r Hr). reflexivity.
Qed.

Lemma chord_nonneg (s : PipeSegment) : 0 <= Spec.chord s.
Proof. apply sqrt_pos. Qed.

Lemma clamp_above (v : R) : 1 <= v -> Spec.clamp v (-1) 1 = 1.
Proof.
  intros Hv. unfold Spec.clamp.
  rewrite (Rmin_left 1 v Hv). apply Rmax_right. lra.
Qed.

Lemma clamp_inside (v : R) : -1 <= v <= 1 -> Spec.clamp v (-1) 1 = v.
Proof.
  intros [Hlo Hhi]. unfold Spec.clamp.
  rewrite (Rmin_right 1 v Hhi). apply Rmax_right. exact Hlo.
Qed.

(** A chord of at least the diameter [2 r] gives a half circle. *)
Lemma half_turn_length (s : PipeSegment) (r : R) :
  is_curved s = true -> bend_radius s = Some r -> 0 < r ->
  2 * r <= Spec.chord s -> calculateSegmentLength s = PI * r.
Proof.
  intros Hc Hb Hr Hch.
  rewrite (arc_length s r Hc Hb (Rgt_not_eq _ _ Hr)), clamp_above, asin_1;
    [field |].
  apply (Rmult_le_reg_r (2 * r)); [lra |].
  unfold Rdiv. rewrite Rmult_assoc, Rinv_l; lra.
Qed.

(** C3.  An arc segment (curved, bend radius [r > 0]) has length
    [r * 2 * asin (clamp (chord / (2 r)) (-1) 1)]; when the chord exceeds
    [2 r] the ratio is clamped and the length is [PI * r], and when the
    chord equals [2 r] the length is [PI * r] as well. *)
Theorem arc_segment_length (s : PipeSegment) (r : R) :
  is_curved s = true -> bend_radius s = Some r -> 0 < r ->
  calculateSegmentLength s =
    r * 2 * asin (Spec.clamp (Spec.chord s / (2 * r)) (-1) 1) /\
  (2 * r < Spec.chord s -> calculateSegmentLength s = PI * r) /\
  (Spec.chord s = 2 * r -> calculateSegmentLength s = PI * r).
Proof.
  intros Hc Hb Hr. split; [| split].
  - rewrite (arc_length s r Hc Hb (Rgt_not_eq _ _ Hr)). ring.
  - intros Hch. apply (half_turn_length s r Hc Hb Hr). lra.
  - intros Hch. apply (half_turn_length s r Hc Hb Hr). lra.
Qed.

End Geometry.

Section GeometryExamples.

Import PPipe.
Import Examples.

Lemma sqrt_sum_sq_l (a : R) : sqrt (a * a + 0 * 0) = Rabs a.
Proof.
  replace (a * a + 0 * 0) with (Rsqr a) by (unfold Rsqr; ring).
  apply sqrt_Rsqr_abs.
Qed.

Lemma sqrt_sum_sq_r (a : R) : sqrt (0 * 0 + a * a) = Rabs a.
Proof.
  replace (0 * 0 + a * a) with (Rsqr a) by (unfold Rsqr; ring).
  apply sqrt_Rsqr_abs.
Qed.

Lemma distance_same_y (x0 x1 y0 : R) :
  Spec.distance (mkPoint2D x0 y0) (mkPoint2D x1 y0) = Rabs (x1 - x0).
Proof.
  unfold Spec.distance; simpl.
  replace (y0 - y0) with 0 by ring. apply sqrt_sum_sq_l.
Qed.

Lemma distance_same_x (x0 y0 y1 : R) :
  Spec.distance (mkPoint2D x0 y0) (mkPoint2D x0 y1) = Rabs (y1 - y0).
Proof.
  unfold Spec.distance; simpl.
  replace (x0 - x0) with 0 by ring. apply sqrt_sum_sq_r.
Qed.

Lemma arc_segment_length_witness :
  0 < 0.0625 /\ Spec.chord test_turn = 2 * 0.0625 /\
  calculateSegmentLength test_turn = PI * 0.0625.
Proof.
  assert (Hch : Spec.chord test_turn = 2 * 0.0625).
  { unfold Spec.chord, test_turn; simpl. rewrite distance_same_x.
    rewrite Rabs_pos_eq; lra. }
  split; [lra | split; [exact Hch |]].
  apply (arc_segment_length test_turn 0.0625);
    [reflexivity | reflexivity | lra | exact Hch].
Defined.

End GeometryExamples.

(** * Hydraulic analyser: structure of [calculatePressureLoss] *)

Section Hydraulics.

Import PPipe.

(** C10.  A segment marked curved whose bend radius is absent (or zero,
    which the guard treats as absent) and whose control points are absent or
    empty gets the straight-line distance between its end points. *)
Theorem curved_segment_fallback (s : PipeSegment) :
  is_curved s = true ->
  bend_radius s = None \/ bend_radius s = Some 0 ->
  control_points s = None \/ control_points s = Some [] ->
  calculateSegmentLength s =
  sqrt ((x (end_ s) - x (start s)) * (x (end_ s) - x (start s)) +
        (y (end_ s) - y (start s)) * (y (end_ s) - y (start s))).
Proof.
  intros Hc Hb Hp. unfold calculateSegmentLength. rewrite Hc. simpl.
  assert (Ht : JSNum.truthy (bend_radius s) = None).
  { destruct Hb as [-> | ->]; [reflexivity | apply truthy_zero]. }
  rewrite Ht. destruct Hp as [-> | ->]; reflexivity.
Qed.

Lemma curved_segment_fallback_witness :
  let s := mkPipeSegment "bend" (mkPoint2D 0 0) (mkPoint2D 3 0) 0.016 true
             (Some []) (Some 0) in
  calculateSegmentLength s = 3.
Proof.
  intros s.
  rewrite (curved_segment_fallback s);
    [ | reflexivity | right; reflexivity | right; reflexivity ].
  simpl. replace (0 - 0) with 0 by ring. rewrite sqrt_sum_sq_l.
  rewrite Rabs_pos_eq; lra.
Defined.

(** C9.  A circuit without segments has pressure loss exactly 0: the
    diameter of a first segment is never read. *)
Theorem pressure_loss_no_segments (c : HeatingCircuit) :
  segments c = [] -> calculatePressureLoss c = 0.
Proof.
  intros H. unfold calculatePressureLoss. rewrite H. reflexivity.
Qed.

Lemma pressure_loss_no_segments_witness :
  calculatePressureLoss (mkHeatingCircuit "c" "r" [] 200 35 30) = 0.
Proof.
  apply (pressure_loss_no_segments (mkHeatingCircuit "c" "r" [] 200 35 30)).
  reflexivity.
Defined.

Lemma gtb_true_iff (a b : R) : JSNum.gtb a b = true <-> a > b.
Proof.
  unfold JSNum.gtb. destruct (Rgt_dec a b); split; intros; try easy.
Qed.

Lemma ltb_true_iff (a b : R) : JSNum.ltb a b = true <-> a < b.
Proof.
  unfold JSNum.ltb. destruct (Rlt_dec a b); split; intros; try easy.
Qed.

Lemma ltb_true (a b : R) : a < b -> JSNum.ltb a b = true.
Proof. apply ltb_true_iff. Qed.

Lemma ltb_false (a b : R) : b <= a -> JSNum.ltb a b = false.
Proof.
  intros H. unfold JSNum.ltb. destruct (Rlt_dec a b); [lra | reflexivity].
Qed.

(** C8.  [isCriticalCircuit] answers true exactly when the pressure loss is
    strictly above 300 mbar; a loss of exactly 300 mbar is not critical. *)
Theorem is_critical_iff (c : HeatingCircuit) :
  (isCriticalCircuit c = true <-> calculatePressureLoss c > 300) /\
  (calculatePressureLoss c = 300 -> isCriticalCircuit c = false).
Proof.
  unfold isCriticalCircuit, CRITICAL_PRESSURE_LOSS. split.
  - apply gtb_true_iff.
  - intros H. rewrite H. unfold JSNum.gtb.
    destruct (Rgt_dec 300 300); [lra | reflexivity].
Qed.

End Hydraulics.

(** * Layout generator *)

Section LayoutLoop.

Import PPipe.
Import HydraulicSolver.
Import Layout.

Variable params : CircuitDesignParams.

Lemma serpentine_loop_app (fuel : nat) :
  forall segs segmentId currentY direction,
  serpentine_loop fuel params segs segmentId currentY direction =
  option_map (app segs)
    (serpentine_loop fuel params [] segmentId currentY direction).
Proof.
  induction fuel as [| fuel IH]; intros segs segmentId currentY direction.
  - reflexivity.
  - simpl. destruct (JSNum.ltb currentY (room_length params)).
    + destruct (JSNum.ltb (currentY + pipe_spacing params) (room_length params)).
      * rewrite IH. symmetry. rewrite IH.
        destruct (serpentine_loop fuel params [] _ _ _); simpl;
          [rewrite <- !app_assoc; reflexivity | reflexivity].
      * rewrite IH. symmetry. rewrite IH.
        destruct (serpentine_loop fuel params [] _ _ _); simpl;
          [rewrite <- !app_assoc; reflexivity | reflexivity].
    + simpl. rewrite app_nil_r. reflexivity.
Qed.

Lemma rows_remaining_S (n : nat) (y0 : R) :
  rows_remaining params (S n) y0 ->
  y0 < room_length params /\
  rows_remaining params n (y0 + pipe_spacing params).
Proof.
  intros [Hlt Hge]. split.
  - specialize (Hlt O (Nat.lt_0_succ n)). simpl in Hlt. lra.
  - split.
    + intros k Hk. specialize (Hlt (S k) (proj1 (Nat.succ_lt_mono k n) Hk)).
      rewrite S_INR in Hlt. lra.
    + rewrite S_INR in Hge. lra.
Qed.

Lemma rows_remaining_next (n : nat) (y0 : R) :
  rows_remaining params n y0 ->
  match n with
  | O => room_length params <= y0
  | S _ => y0 < room_length params
  end.
Proof.
  destruct n as [| n]; intros H.
  - destruct H as [_ H]. simpl in H. lra.
  - apply (rows_remaining_S n y0 H).
Qed.

(** With enough fuel the loop returns, and appends [layout_from]. *)
Lemma serpentine_loop_rows (n : nat) :
  forall fuel segmentId currentY direction,
  rows_remaining params n currentY -> (n < fuel)%nat ->
  serpentine_loop fuel params [] segmentId currentY direction =
  Some (layout_from params n segmentId currentY direction).
Proof.
  induction n as [| n IH]; intros fuel segmentId currentY direction Hrows Hfuel.
  - destruct fuel as [| fuel]; [lia |]. simpl.
    rewrite ltb_false; [reflexivity |].
    apply (rows_remaining_next O currentY Hrows).
  - destruct fuel as [| fuel]; [lia |].
    destruct (rows_remaining_S n currentY Hrows) as [Hlt Hrest].
    assert (Hnext := rows_remaining_next n _ Hrest).
    simpl serpentine_loop.
    rewrite (ltb_true _ _ Hlt).
    destruct n as [| n].
    + rewrite (ltb_false _ _ Hnext).
      rewrite serpentine_loop_app, (IH fuel); [reflexivity | exact Hrest | lia].
    + rewrite (ltb_true _ _ Hnext).
      rewrite serpentine_loop_app, (IH fuel); [reflexivity | exact Hrest | lia].
Qed.

(** For a positive spacing the number of remaining rows is the ceiling of
    the remaining height over the spacing. *)
Lemma rows_remaining_ceil (y0 : R) :
  0 < pipe_spacing params ->
  rows_remaining params
    (Z.to_nat (Zceil ((room_length params - y0) / pipe_spacing params))) y0.
Proof.
  intros Hs.
  set (q := (room_length params - y0) / pipe_spacing params).
  assert (Hq : room_length params - y0 = q * pipe_spacing params)
    by (unfold q; field; lra).
  destruct (Zceil_bound q) as [Hlo Hhi].
  destruct (Z_le_gt_dec (Zceil q) 0) as [Hz | Hz].
  - replace (Z.to_nat (Zceil q)) with O by lia.
    split; [intros k Hk; lia |].
    apply IZR_le in Hz. simpl. nra.
  - assert (HI : INR (Z.to_nat (Zceil q)) = IZR (Zceil q)).
    { rewrite INR_IZR_INZ, Z2Nat.id; [reflexivity | lia]. }
    split.
    + intros k Hk.
      assert (Hk' : INR k <= IZR (Zceil q) - 1).
      { rewrite INR_IZR_INZ, <- minus_IZR. apply IZR_le. lia. }
      nra.
    + rewrite HI. nra.
Qed.

End LayoutLoop.

Section LayoutFacts.

Import PPipe.
Import HydraulicSolver.
Import Layout.

Variable params : CircuitDesignParams.

Lemma run_segment_length (segmentId : nat) (currentY direction : R) :
  calculateSegmentLength (run_segment params segmentId currentY direction) =
  Rabs (room_width params).
Proof.
  rewrite straight_length by reflexivity.
  unfold Spec.chord, run_segment. simpl start. simpl end_.
  rewrite distance_same_y.
  destruct (Req_dec_T direction 1).
  - f_equal. ring.
  - replace (0 - room_width params) with (- room_width params) by ring.
    apply Rabs_Ropp.
Qed.

Lemma turn_segment_length (segmentId : nat) (currentY direction : R) :
  0 < pipe_spacing params ->
  calculateSegmentLength (turn_segment params segmentId currentY direction) =
  PI * (pipe_spacing params / 2).
Proof.
  intros Hs.
  apply (half_turn_length _ (pipe_spacing params / 2));
    [reflexivity | reflexivity | lra |].
  unfold Spec.chord, turn_segment. simpl start. simpl end_.
  rewrite distance_same_x.
  replace (currentY + pipe_spacing params - currentY)
    with (pipe_spacing params) by ring.
  rewrite Rabs_pos_eq; lra.
Qed.

Lemma layout_from_straight_runs (n : nat) :
  forall segmentId currentY direction,
  List.length (straight_runs (layout_from params n segmentId currentY direction)) = n.
Proof.
  induction n as [| n IH]; intros segmentId currentY direction; [reflexivity |].
  destruct n as [| n]; [reflexivity |].
  change (S (List.length (straight_runs
            (layout_from params (S n) (S (S segmentId))
               (currentY + pipe_spacing params) (direction * -1)))) = S (S n)).
  rewrite IH. reflexivity.
Qed.

Lemma layout_from_turns (n : nat) :
  forall segmentId currentY direction,
  List.length (turns (layout_from params n segmentId currentY direction)) = (n - 1)%nat.
Proof.
  induction n as [| n IH]; intros segmentId currentY direction; [reflexivity |].
  destruct n as [| n]; [reflexivity |].
  change (S (List.length (turns
            (layout_from params (S n) (S (S segmentId))
               (currentY + pipe_spacing params) (direction * -1)))) = (S (S n) - 1)%nat).
  rewrite IH. lia.
Qed.

Lemma layout_from_straight_length (n : nat) :
  forall segmentId currentY direction s,
  In s (layout_from params n segmentId currentY direction) ->
  is_curved s = false -> calculateSegmentLength s = Rabs (room_width params).
Proof.
  induction n as [| n IH]; intros segmentId currentY direction s Hin Hs;
    [destruct Hin |].
  destruct n as [| n].
  - destruct Hin as [<- | []]. apply run_segment_length.
  - destruct Hin as [<- | [<- | Hin]].
    + apply run_segment_length.
    + discriminate Hs.
    + apply (IH _ _ _ s Hin Hs).
Qed.

Lemma layout_from_diameter (n : nat) :
  forall segmentId currentY direction s,
  In s (layout_from params n segmentId currentY direction) ->
  diameter s = pipe_diameter params.
Proof.
  induction n as [| n IH]; intros segmentId currentY direction s Hin;
    [destruct Hin |].
  destruct n as [| n].
  - destruct Hin as [<- | []]. reflexivity.
  - destruct Hin as [<- | [<- | Hin]]; [reflexivity | reflexivity |].
    apply (IH _ _ _ s Hin).
Qed.

Lemma fold_length_shift (l : list PipeSegment) (a : R) :
  fold_left (fun total s => total + calculateSegmentLength s) l a =
  a + fold_left (fun total s => total + calculateSegmentLength s) l 0.
Proof.
  revert a. induction l as [| s l IH]; intros a; simpl.
  - ring.
  - rewrite IH. symmetry. rewrite IH. ring.
Qed.

(** The pipe length of [n] rows: [n] runs of the room width and [n - 1]
    half-circle turns of diameter [spacing]. *)
Lemma layout_from_length (n : nat) :
  0 < pipe_spacing params ->
  forall segmentId currentY direction,
  fold_left (fun total s => total + calculateSegmentLength s)
    (layout_from params n segmentId currentY direction) 0 =
  INR n * Rabs (room_width params) + INR (n - 1) * (PI * (pipe_spacing params / 2)).
Proof.
  intros Hs. induction n as [| n IH]; intros segmentId currentY direction.
  - simpl. ring.
  - destruct n as [| n].
    + simpl. rewrite run_segment_length. ring.
    + change (fold_left (fun total s => total + calculateSegmentLength s)
               (layout_from params (S n) (S (S segmentId))
                  (currentY + pipe_spacing params) (direction * -1))
               (0 + calculateSegmentLength
                      (run_segment params segmentId currentY direction)
                  + calculateSegmentLength
                      (turn_segment params (S segmentId) currentY direction)) =
              INR (S (S n)) * Rabs (room_width params) +
              INR (S (S n) - 1) * (PI * (pipe_spacing params / 2))).
      rewrite fold_length_shift, IH, run_segment_length,
        (turn_segment_length _ _ _ Hs).
      replace (S (S n) - 1)%nat with (S n) by lia.
      replace (S n - 1)%nat with n by lia.
      rewrite !S_INR. ring.
Qed.

End LayoutFacts.

Section LayoutProperties.

Import PPipe.
Import HydraulicSolver.
Import Layout.

(** With a positive spacing the generator returns, for every fuel above the
    number of rows [ceil ((length - spacing/2) / spacing)]. *)
Lemma generateSerpentineLayout_rows (params : CircuitDesignParams) (fuel : nat) :
  0 < pipe_spacing params ->
  let n := Z.to_nat (Zceil ((room_length params - pipe_spacing params / 2)
                            / pipe_spacing params)) in
  (n < fuel)%nat ->
  generateSerpentineLayout fuel params =
  Some (layout_from params n 0 (pipe_spacing params / 2) 1).
Proof.
  intros Hs n Hfuel. unfold generateSerpentineLayout.
  apply serpentine_loop_rows; [| exact Hfuel].
  apply rows_remaining_ceil. exact Hs.
Qed.

(** C5.  For a 3 m by 5 m room and a spacing of 0.125 m the generator emits
    exactly [ceil ((5 - 0.125/2) / 0.125) = 40] straight runs, each of
    length 3 (the room width). *)
Theorem serpentine_test_room (area diameter supply ret heat : R) (extra : nat) :
  let params := mkCircuitDesignParams area 0.125 3 5 diameter supply ret heat in
  exists l,
    generateSerpentineLayout (41 + extra) params = Some l /\
    Zceil ((room_length params - pipe_spacing params / 2) / pipe_spacing params)
      = 40%Z /\
    List.length (straight_runs l) = 40%nat /\
    forall s, In s l -> is_curved s = false ->
      calculateSegmentLength s = room_width params /\
      Rabs (calculateSegmentLength s - 3.0) <= 1e-9.
Proof.
  intros params.
  assert (Hc : Zceil ((room_length params - pipe_spacing params / 2)
                      / pipe_spacing params) = 40%Z).
  { apply Zceil_eq. simpl. lra. }
  exists (layout_from params 40 0 (pipe_spacing params / 2) 1).
  split; [| split; [exact Hc | split]].
  - rewrite (generateSerpentineLayout_rows params (41 + extra)).
    + rewrite Hc. reflexivity.
    + simpl. lra.
    + rewrite Hc. simpl. lia.
  - apply layout_from_straight_runs.
  - intros s Hin Hs.
    rewrite (layout_from_straight_length params _ _ _ _ s Hin Hs).
    simpl. rewrite (Rabs_pos_eq 3) by lra. split; [reflexivity |].
    replace (3 - 3.0) with 0 by lra. rewrite Rabs_R0. lra.
Qed.

(** With a non-positive spacing and a room longer than half the spacing the
    loop variable never reaches the room length: no amount of fuel lets the
    loop return. *)
Lemma serpentine_loop_diverges (params : CircuitDesignParams) (fuel : nat) :
  pipe_spacing params <= 0 ->
  forall segs segmentId currentY direction,
  currentY < room_length params ->
  serpentine_loop fuel params segs segmentId currentY direction = None.
Proof.
  intros Hs. induction fuel as [| fuel IH];
    intros segs segmentId currentY direction Hy; [reflexivity |].
  simpl. rewrite (ltb_true _ _ Hy).
  destruct (JSNum.ltb (currentY + pipe_spacing params) (room_length params));
    apply IH; lra.
Qed.

(** C2.  The solver does not return on every input: for a non-positive
    pipe spacing and a room length above half the spacing the layout loop
    never leaves its test, whatever the fuel. *)
Theorem solve_diverges_nonpositive_spacing
    (params : CircuitDesignParams) (roomId : string) (totalBudget : R) :
  pipe_spacing params <= 0 ->
  pipe_spacing params / 2 < room_length params ->
  forall fuel, solveHydraulicCircuit fuel params roomId totalBudget = None.
Proof.
  intros Hs Hl fuel. unfold solveHydraulicCircuit, generateSerpentineLayout.
  rewrite (serpentine_loop_diverges params fuel Hs); [reflexivity | exact Hl].
Qed.

Lemma solve_diverges_nonpositive_spacing_witness :
  solveHydraulicCircuit 1000
    (mkCircuitDesignParams 13.0 0 3.5 3.7 0.016 35 30 1300) "kitchen" 15000
  = None.
Proof.
  apply (solve_diverges_nonpositive_spacing
           (mkCircuitDesignParams 13.0 0 3.5 3.7 0.016 35 30 1300));
    simpl; lra.
Defined.

(** For a positive spacing the solver returns a solution, for every fuel
    above the number of rows. *)
Lemma solve_returns_positive_spacing
    (params : CircuitDesignParams) (roomId : string) (totalBudget : R) :
  0 < pipe_spacing params ->
  exists fuel0, forall fuel, (fuel0 <= fuel)%nat ->
  exists solution,
    solveHydraulicCircuit fuel params roomId totalBudget = Some solution.
Proof.
  intros Hs.
  exists (S (Z.to_nat (Zceil ((room_length params - pipe_spacing params / 2)
                               / pipe_spacing params)))).
  intros fuel Hfuel. unfold solveHydraulicCircuit.
  rewrite (generateSerpentineLayout_rows params fuel Hs) by lia.
  eexists. reflexivity.
Qed.

End LayoutProperties.

(** * Heat grid simulator *)

Section HeatGrid.

Import HeatSimulation.
Import Grid.

Lemma set_nth_repeat {A : Type} (v : A) (n i : nat) :
  set_nth i v (repeat v n) = repeat v n.
Proof.
  revert i. induction n as [| n IH]; intros i; destruct i as [| i]; simpl;
    try reflexivity.
  rewrite IH. reflexivity.
Qed.

Lemma set_nth_overflow {A : Type} (v : A) (l : list A) (i : nat) :
  (List.length l <= i)%nat -> set_nth i v l = l.
Proof.
  revert i. induction l as [| h l IH]; intros i Hi; destruct i as [| i];
    simpl in *; try reflexivity; [lia |].
  rewrite IH by lia. reflexivity.
Qed.

Lemma nth_repeat_in {A : Type} (v d : A) (n i : nat) :
  (i < n)%nat -> nth i (repeat v n) d = v.
Proof.
  revert i. induction n as [| n IH]; intros i Hi; [lia |].
  destruct i as [| i]; simpl; [reflexivity | apply IH; lia].
Qed.

Lemma get2_uniform (v : R) (nrows ncols i j : nat) :
  (i < nrows)%nat -> (j < ncols)%nat -> get2 (uniform v nrows ncols) i j = v.
Proof.
  intros Hi Hj. unfold get2, uniform.
  rewrite (nth_repeat_in _ _ _ _ Hi). apply nth_repeat_in. exact Hj.
Qed.

Lemma set2_uniform (v : R) (nrows ncols i j : nat) :
  set2 (uniform v nrows ncols) i j v = uniform v nrows ncols.
Proof.
  unfold set2, uniform.
  destruct (Nat.lt_ge_cases i nrows) as [Hi | Hi].
  - rewrite (nth_repeat_in _ _ _ _ Hi), set_nth_repeat. apply set_nth_repeat.
  - apply set_nth_overflow. rewrite repeat_length. exact Hi.
Qed.

Lemma fold_left_invariant {A B : Type} (P : A -> Prop) (f : A -> B -> A)
    (l : list B) (a : A) :
  (forall a b, In b l -> P a -> P (f a b)) -> P a -> P (fold_left f l a).
Proof.
  revert a. induction l as [| b l IH]; intros a Hf Ha; simpl; [exact Ha |].
  apply IH.
  - intros a' b' Hin. apply Hf. right. exact Hin.
  - apply Hf; [left; reflexivity | exact Ha].
Qed.

Lemma set_nth_length {A : Type} (v : A) (l : list A) (i : nat) :
  List.length (set_nth i v l) = List.length l.
Proof.
  revert i. induction l as [| h l IH]; intros i; destruct i as [| i]; simpl;
    try reflexivity.
  rewrite IH. reflexivity.
Qed.

Lemma set_nth_Forall {A : Type} (P : A -> Prop) (v : A) (l : list A) (i : nat) :
  Forall P l -> ((i < List.length l)%nat -> P v) -> Forall P (set_nth i v l).
Proof.
  revert i. induction l as [| h l IH]; intros i Hl Hv; destruct i as [| i];
    simpl; try exact Hl.
  - inversion Hl; subst. constructor; [apply Hv; simpl; lia | assumption].
  - inversion Hl; subst. constructor; [assumption |].
    apply IH; [assumption |]. intros Hi. apply Hv. simpl. lia.
Qed.

Lemma set2_shape (nrows ncols i j : nat) (v : R) (grid : list (list R)) :
  shape nrows ncols grid -> shape nrows ncols (set2 grid i j v).
Proof.
  intros [Hlen Hall]. unfold set2. split.
  - rewrite set_nth_length. exact Hlen.
  - apply set_nth_Forall; [exact Hall |].
    intros Hi. rewrite set_nth_length.
    apply (proj1 (Forall_forall _ _) Hall). apply nth_In. exact Hi.
Qed.

Lemma uniform_shape (v : R) (nrows ncols : nat) :
  shape nrows ncols (uniform v nrows ncols).
Proof.
  unfold shape, uniform. split; [apply repeat_length |].
  apply Forall_forall. intros r Hr. apply repeat_spec in Hr. subst r.
  apply repeat_length.
Qed.

Lemma new_well_formed (w h g : R) (s : t) : new w h g = Some s -> well_formed s.
Proof.
  unfold new. destruct (Req_dec_T g 0); [discriminate |].
  destruct (_ && _)%bool; [| discriminate].
  intros H. injection H as <-. split; apply uniform_shape.
Qed.

Lemma step_well_formed (dt : R) (s s' : t) (o : list ConsoleLine) :
  well_formed s -> step dt s = Some (s', o) -> well_formed s'.
Proof.
  intros [Ht Hn]. unfold step. destruct (xorb _ _); [discriminate |].
  intros H. injection H as <- _. unfold well_formed. cbn [rows cols temp tempNext].
  split.
  - unfold boundary_cols. apply fold_left_invariant.
    { intros a i _ Ha. apply set2_shape, set2_shape. exact Ha. }
    unfold boundary_rows. apply fold_left_invariant.
    { intros a j _ Ha. apply set2_shape, set2_shape. exact Ha. }
    unfold diffuse. apply fold_left_invariant; [| exact Hn].
    intros a i _ Ha. apply fold_left_invariant; [| exact Ha].
    intros a' j _ Ha'. apply set2_shape. exact Ha'.
  - apply fold_left_invariant; [| exact Ht].
    intros a src _ Ha. unfold pin. destruct (in_range _ _ _); [| exact Ha].
    apply set2_shape. exact Ha.
Qed.
Lemma applyBoundary_ambient (s : t) : outsideTemp s = 20 -> applyBoundary s 20 = 20.
Proof. intros H. unfold applyBoundary. rewrite H. lra. Qed.

(** A step of an ambient grid with at least one cell changes nothing. *)
Lemma step_ambient (dt : R) (s : t) :
  ambient s -> (0 < rows s)%nat -> (0 < cols s)%nat ->
  exists out, step dt s = Some (s, out).
Proof.
  intros (Hsrc & Hout & Htemp & Hnext) Hr Hc.
  unfold step.
  replace (xorb (rows s =? 0)%nat (cols s =? 0)%nat) with false.
  2:{ destruct (rows s); [lia |]. destruct (cols s); [lia | reflexivity]. }
  rewrite Hsrc. simpl fold_left. eexists. f_equal. f_equal.
  set (U := uniform 20 (rows s) (cols s)).
  assert (Hget : forall i j, (i < rows s)%nat -> (j < cols s)%nat ->
                 get2 (temp s) i j = 20).
  { intros i j Hi Hj. rewrite Htemp. apply get2_uniform; assumption. }
  assert (Hd : diffuse s (0.0001 * dt / (gridSize s * gridSize s)) (temp s)
                 (tempNext s) = U).
  { unfold diffuse. apply fold_left_invariant; [| exact Hnext].
    intros a i Hi Ha. apply in_seq in Hi.
    apply fold_left_invariant; [| exact Ha].
    intros a' j Hj Ha'. apply in_seq in Hj.
    rewrite !Hget by lia. subst a'.
    replace (20 + _ * (20 + 20 + 20 + 20 - 4 * 20)) with 20 by ring.
    apply set2_uniform. }
  assert (Hbr : boundary_rows s (temp s) U = U).
  { unfold boundary_rows. apply fold_left_invariant; [| reflexivity].
    intros a j Hj Ha. apply in_seq in Hj.
    rewrite !Hget by lia. rewrite (applyBoundary_ambient s Hout). subst a.
    unfold U. rewrite !set2_uniform. reflexivity. }
  assert (Hbc : boundary_cols s (temp s) U = U).
  { unfold boundary_cols. apply fold_left_invariant; [| reflexivity].
    intros a i Hi Ha. apply in_seq in Hi.
    rewrite !Hget by lia. rewrite (applyBoundary_ambient s Hout). subst a.
    unfold U. rewrite !set2_uniform. reflexivity. }
  rewrite Hd, Hbr, Hbc. unfold U. rewrite <- Htemp at 1.
  destruct s; simpl in *. subst. reflexivity.
Qed.

Lemma steps_ambient (n : nat) (s : t) :
  ambient s -> (0 < rows s)%nat -> (0 < cols s)%nat -> steps n s = Some s.
Proof.
  intros Ha Hr Hc. induction n as [| n IH]; [reflexivity |].
  simpl. destruct (step_ambient 1.0 s Ha Hr Hc) as [out ->]. exact IH.
Qed.

End HeatGrid.

Section HeatGridAverage.

Import HeatSimulation.
Import Grid.

Lemma sum_count_row (f : nat -> R) (v : R) (l : list nat) :
  (forall j, In j l -> f j = v) ->
  forall acc : R * nat,
  fold_left (fun acc j => (fst acc + f j, S (snd acc))) l acc =
  (fst acc + v * INR (List.length l), (snd acc + List.length l)%nat).
Proof.
  induction l as [| j l IH]; intros Hf acc.
  - simpl. rewrite Nat.add_0_r, Rmult_0_r, Rplus_0_r. destruct acc; reflexivity.
  - cbn [fold_left]. rewrite IH by (intros j' Hj'; apply Hf; right; exact Hj').
    cbn [fst snd List.length]. rewrite (Hf j (or_introl eq_refl)), S_INR.
    f_equal; [ring | lia].
Qed.

Lemma sum_count_rows (F : R * nat -> nat -> R * nat) (c : R) (k : nat)
    (l : list nat) :
  (forall acc i, In i l -> F acc i = (fst acc + c, (snd acc + k)%nat)) ->
  forall acc : R * nat,
  fold_left F l acc =
  (fst acc + c * INR (List.length l), (snd acc + k * List.length l)%nat).
Proof.
  induction l as [| i l IH]; intros HF acc.
  - simpl. rewrite Nat.mul_0_r, Nat.add_0_r, Rmult_0_r, Rplus_0_r.
    destruct acc; reflexivity.
  - cbn [fold_left]. rewrite IH by (intros a i' Hi'; apply HF; right; exact Hi').
    rewrite (HF acc i (or_introl eq_refl)).
    cbn [fst snd List.length]. rewrite S_INR. f_equal; [ring | lia].
Qed.

(** The average of a grid whose cells all hold [v] is [v], provided the
    grid has a cell. *)
Lemma getAverageTemp_uniform (s : t) (v : R) :
  (forall i j, (i < rows s)%nat -> (j < cols s)%nat -> get2 (temp s) i j = v) ->
  (0 < rows s)%nat -> (0 < cols s)%nat ->
  getAverageTemp s = v.
Proof.
  intros Hget Hr Hc. unfold getAverageTemp.
  rewrite (sum_count_rows _ (v * INR (cols s)) (cols s)).
  - rewrite !length_seq. cbn [fst snd]. rewrite Nat.add_0_l, Rplus_0_l.
    rewrite mult_INR.
    assert (0 < INR (rows s)) by (apply lt_0_INR; exact Hr).
    assert (0 < INR (cols s)) by (apply lt_0_INR; exact Hc).
    field. split; lra.
  - intros acc i Hi. apply in_seq in Hi.
    rewrite (sum_count_row (fun j => get2 (temp s) i j) v).
    + rewrite length_seq. reflexivity.
    + intros j Hj. apply in_seq in Hj. apply Hget; lia.
Qed.

Lemma new_ambient (w h g : R) (s0 : t) :
  new w h g = Some s0 -> ambient (set_outsideTemp 20 s0).
Proof.
  unfold new. destruct (Req_dec_T g 0); [discriminate |].
  destruct (_ && _)%bool; [| discriminate].
  intros H. injection H as <-. repeat split.
Qed.

(** C6.  A simulator with at least one cell, without heat sources, with
    the outside temperature at 20 and its buffers filled with 20 as the
    constructor leaves them, still has every cell at exactly 20 after any
    number of steps, and its average temperature is 20. *)
Theorem ambient_steady_state (s : t) (n : nat) :
  ambient s -> (0 < rows s)%nat -> (0 < cols s)%nat ->
  exists s',
    steps n s = Some s' /\
    (forall i j, (i < rows s')%nat -> (j < cols s')%nat ->
       get2 (temp s') i j = 20) /\
    getAverageTemp s' = 20.
Proof.
  intros Ha Hr Hc. exists s.
  assert (Hcells : forall i j, (i < rows s)%nat -> (j < cols s)%nat ->
            get2 (temp s) i j = 20).
  { intros i j Hi Hj. destruct Ha as (_ & _ & -> & _).
    apply get2_uniform; assumption. }
  split; [apply steps_ambient; assumption | split; [exact Hcells |]].
  apply getAverageTemp_uniform; assumption.
Qed.

(** A 0.25 m by 0.25 m room on the default grid, outside temperature set to
    the fill value. *)
Lemma ambient_steady_state_witness :
  exists s0 s',
    new 0.25 0.25 0.125 = Some s0 /\
    steps 250 (set_outsideTemp 20 s0) = Some s' /\
    (forall i j, (i < rows s')%nat -> (j < cols s')%nat ->
       get2 (temp s') i j = 20) /\
    getAverageTemp s' = 20.
Proof.
  assert (Hnew : new 0.25 0.25 0.125 =
            Some (mkHeatSimulation 0.25 0.25 0.125 2 2 [[20; 20]; [20; 20]]
                    [[20; 20]; [20; 20]] [] (-10))).
  { unfold new. destruct (Req_dec_T 0.125 0) as [E | _]; [exfalso; lra |].
    replace (Zceil (0.25 / 0.125)) with 2%Z; [reflexivity |].
    symmetry. apply Zceil_eq. lra. }
  eexists.
  destruct (ambient_steady_state _ 250 (new_ambient _ _ _ _ Hnew))
    as (s' & Hsteps & Hcells & Havg); [simpl; lia | simpl; lia |].
  exists s'. split; [exact Hnew | split; [exact Hsteps | split; assumption]].
Defined.

End HeatGridAverage.

(** * Running to the steady state *)

Section SteadyStateFacts.

Import HeatSimulation.
Import SteadyState.

Lemma logs_app (a b : list ConsoleLine) : logs (a ++ b) = logs a ++ logs b.
Proof. apply filter_app. Qed.

Lemma step_logs (dt : R) (s s' : t) (o : list ConsoleLine) :
  step dt s = Some (s', o) -> logs o = [].
Proof.
  unfold step. destruct (xorb _ _); [discriminate |].
  intros H. injection H as _ <-. destruct (JSNum.gtb _ _); reflexivity.
Qed.

Lemma step_dims (dt : R) (s s' : t) (o : list ConsoleLine) :
  step dt s = Some (s', o) -> rows s' = rows s /\ cols s' = cols s.
Proof.
  unfold step. destruct (xorb _ _); [discriminate |].
  intros H. injection H as <- _. split; reflexivity.
Qed.

Lemma step_returns (dt : R) (s : t) :
  xorb (rows s =? 0)%nat (cols s =? 0)%nat = false ->
  exists s' o, step dt s = Some (s', o).
Proof.
  intros H. unfold step. rewrite H. eexists. eexists. reflexivity.
Qed.

(** After a step the other buffer holds the grid the step started from,
    with the heat sources pinned. *)
Lemma step_snapshot (dt : R) (s s' : t) (o : list ConsoleLine) :
  step dt s = Some (s', o) -> tempNext s' = pinned s.
Proof.
  unfold step. destruct (xorb _ _); [discriminate |].
  intros H. injection H as <- _. reflexivity.
Qed.

Lemma test_passes_dec (i : nat) (s : t) :
  (if (i mod 100 =? 0)%nat then JSNum.ltb (getMaxChange s) 0.01 else false) = true
  <-> test_passes i s.
Proof.
  unfold test_passes. destruct (Nat.eqb_spec (i mod 100) 0) as [E | E].
  - rewrite ltb_true_iff. tauto.
  - split; [discriminate | tauto].
Qed.

Lemma run_loop_S (todo i : nat) (s : t) (out : list ConsoleLine) :
  run_loop (S todo) i s out =
  match step 1.0 s with
  | None => None
  | Some (s', o) =>
      if (if (i mod 100 =? 0)%nat then JSNum.ltb (getMaxChange s') 0.01
          else false)
      then Some (s', (out ++ o) ++ [converged_line i])
      else run_loop todo (S i) s' (out ++ o)
  end.
Proof.
  cbn [run_loop]. destruct (step 1.0 s) as [[s' o] |]; [| reflexivity].
  destruct (i mod 100 =? 0)%nat; reflexivity.
Qed.

Lemma run_loop_spec (todo : nat) :
  forall i s out s' out',
  run_loop todo i s out = Some (s', out') ->
  exists k,
    (k <= todo)%nat /\ steps k s = Some s' /\
    (forall j sj, (S j < k)%nat -> steps (S j) s = Some sj ->
       ~ test_passes (i + j) sj) /\
    (((0 < k)%nat /\ test_passes (i + (k - 1)) s' /\
      logs out' = logs out ++ [converged_line (i + (k - 1))]) \/
     (k = todo /\ (k = O \/ ~ test_passes (i + (k - 1)) s') /\
      logs out' = logs out)).
Proof.
  induction todo as [| todo IH]; intros i s out s' out' Hrun.
  - injection Hrun as <- <-. exists O. repeat split; [lia | lia |].
    right. repeat split. left. reflexivity.
  - rewrite run_loop_S in Hrun.
    destruct (step 1.0 s) as [[s1 o] |] eqn:Hstep; [| discriminate].
    assert (Ho := step_logs _ _ _ _ Hstep).
    destruct (if (i mod 100 =? 0)%nat then JSNum.ltb (getMaxChange s1) 0.01
              else false) eqn:Htest.
    + (* the test succeeds: break *)
      assert (Hp := proj1 (test_passes_dec i s1) Htest).
      injection Hrun as <- <-. exists 1%nat.
      split; [lia |]. split; [simpl; rewrite Hstep; reflexivity |].
      split; [intros j sj Hj; lia |]. left.
      replace (i + (1 - 1))%nat with i by lia.
      split; [lia |]. split; [exact Hp |].
      rewrite !logs_app, Ho, app_nil_r. reflexivity.
    + (* no test, or the test fails: next iteration *)
      assert (Hnp : ~ test_passes i s1).
      { intros Hp. apply test_passes_dec in Hp. congruence. }
      destruct (IH _ _ _ _ _ Hrun) as (k & Hk & Hsteps & Hbefore & Hend).
      assert (Hlogs : logs (out ++ o) = logs out).
      { rewrite logs_app, Ho, app_nil_r. reflexivity. }
      exists (S k). split; [lia |].
      split; [simpl; rewrite Hstep; exact Hsteps |]. split.
      * intros j sj Hj Hsj. destruct j as [| j].
        -- simpl in Hsj. rewrite Hstep in Hsj. injection Hsj as <-.
           rewrite Nat.add_0_r. exact Hnp.
        -- replace (i + S j)%nat with (S i + j)%nat by lia.
           apply (Hbefore j sj); [lia |].
           simpl in Hsj. rewrite Hstep in Hsj. exact Hsj.
      * destruct k as [| k].
        -- simpl in Hsteps. injection Hsteps as <-.
           destruct Hend as [(Hpos & _) | (Htodo & _ & Hl)]; [lia |].
           right. replace (i + (1 - 1))%nat with i by lia.
           split; [lia |]. split; [right; exact Hnp |].
           rewrite Hl. exact Hlogs.
        -- replace (i + (S (S k) - 1))%nat with (S i + (S k - 1))%nat by lia.
           destruct Hend as [(_ & Hp & Hl) | (Htodo & Hnp' & Hl)].
           ++ left. split; [lia |]. split; [exact Hp |].
              rewrite Hl, Hlogs. reflexivity.
           ++ right. split; [lia |]. split.
              ** right. destruct Hnp' as [Hz | Hnp']; [lia | exact Hnp'].
              ** rewrite Hl. exact Hlogs.
Qed.

Lemma run_loop_returns (todo : nat) :
  forall i s out,
  xorb (rows s =? 0)%nat (cols s =? 0)%nat = false ->
  exists r, run_loop todo i s out = Some r.
Proof.
  induction todo as [| todo IH]; intros i s out Hs.
  - eexists. reflexivity.
  - rewrite run_loop_S.
    destruct (step_returns 1.0 s Hs) as (s1 & o & Hstep). rewrite Hstep.
    destruct (step_dims _ _ _ _ Hstep) as [Hr Hc].
    assert (Hs1 : xorb (rows s1 =? 0)%nat (cols s1 =? 0)%nat = false)
      by (rewrite Hr, Hc; exact Hs).
    destruct (if (i mod 100 =? 0)%nat then _ else _);
      [eexists; reflexivity | apply IH; exact Hs1].
Qed.

End SteadyStateFacts.

Section OneCell.

Import HeatSimulation.
Import SteadyState.

Lemma step_cell (a b : R) : step 1.0 (cell a b) = Some (cell (cool a) a, []).
Proof.
  unfold step, cell.
  cbn [rows cols gridSize heatSources temp tempNext width height outsideTemp
       Nat.eqb xorb fold_left].
  unfold JSNum.gtb. destruct (Rgt_dec _ _) as [H | _]; [exfalso; lra |].
  reflexivity.
Qed.

Lemma getMaxChange_cell (a b : R) : getMaxChange (cell a b) = Rabs (a - b).
Proof.
  unfold getMaxChange, cell. cbn.
  apply Rmax_right. apply Rabs_pos.
Qed.

End OneCell.

Section SteadyStateProperties.

Import HeatSimulation.
Import Grid.
Import SteadyState.

Lemma fold_max_row (g : nat -> R) (l : list nat) :
  forall m0,
  let m := fold_left (fun m j => Rmax m (g j)) l m0 in
  m0 <= m /\ (forall j, In j l -> g j <= m) /\
  (m = m0 \/ exists j, In j l /\ m = g j).
Proof.
  induction l as [| a l IH]; intros m0; cbn [fold_left].
  - split; [lra | split; [intros j [] | left; reflexivity]].
  - destruct (IH (Rmax m0 (g a))) as (H1 & H2 & H3).
    assert (Hl := Rmax_l m0 (g a)). assert (Hr := Rmax_r m0 (g a)).
    split; [lra | split].
    + intros j [<- | Hj]; [lra | apply H2; exact Hj].
    + destruct H3 as [H3 | (j & Hj & H3)].
      * destruct (Rle_dec m0 (g a)) as [E | E].
        -- right. exists a. split; [left; reflexivity |].
           rewrite H3. apply Rmax_right. exact E.
        -- left. rewrite H3. apply Rmax_left. lra.
      * right. exists j. split; [right; exact Hj | exact H3].
Qed.

Lemma fold_max_grid (g : nat -> nat -> R) (lj li : list nat) :
  forall m0,
  let m := fold_left (fun m i => fold_left (fun m j => Rmax m (g i j)) lj m) li m0 in
  m0 <= m /\ (forall i j, In i li -> In j lj -> g i j <= m) /\
  (m = m0 \/ exists i j, In i li /\ In j lj /\ m = g i j).
Proof.
  induction li as [| a li IH]; intros m0; cbn [fold_left].
  - split; [lra | split; [intros i j [] | left; reflexivity]].
  - destruct (fold_max_row (g a) lj m0) as (R1 & R2 & R3).
    destruct (IH (fold_left (fun m j => Rmax m (g a j)) lj m0)) as (H1 & H2 & H3).
    split; [lra | split].
    + intros i j [<- | Hi] Hj.
      * specialize (R2 j Hj). lra.
      * apply H2; assumption.
    + destruct H3 as [H3 | (i & j & Hi & Hj & H3)].
      * destruct R3 as [R3 | (j & Hj & R3)].
        -- left. rewrite H3. exact R3.
        -- right. exists a, j. split; [left; reflexivity |].
           split; [exact Hj | rewrite H3; exact R3].
      * right. exists i, j. split; [right; exact Hi | split; [exact Hj | exact H3]].
Qed.

(** [getMaxChange] is the largest absolute difference, over the cells of
    the grid, between the two buffers. *)
Lemma getMaxChange_largest (s : t) : largest_change s (getMaxChange s).
Proof.
  destruct (fold_max_grid
              (fun i j => Rabs (get2 (temp s) i j - get2 (tempNext s) i j))
              (seq 0 (cols s)) (seq 0 (rows s)) 0) as (_ & H2 & H3).
  split.
  - intros i j Hi Hj. apply H2; apply in_seq; lia.
  - destruct H3 as [H3 | (i & j & Hi & Hj & H3)]; [left; exact H3 |].
    right. exists i, j. apply in_seq in Hi. apply in_seq in Hj.
    split; [lia | split; [lia | exact H3]].
Qed.

(** C4.  On a well-formed grid (one with a cell, or without rows and
    columns) [runToSteadyState] returns after [k <= maxSteps] steps.  The
    convergence test is made at the loop indices divisible by 100 only; it
    compares with 0.01 the largest absolute per-cell difference between the
    grid and the other buffer, which holds the grid the last step started
    from (heat sources pinned).  The run stops at the first index whose
    test passes and logs a line, or else runs all [maxSteps] steps and logs
    nothing; the mode of the run shows on the console only. *)
Theorem run_to_steady_state_modes (maxSteps : nat) (s : t) :
  well_formed s -> xorb (rows s =? 0)%nat (cols s =? 0)%nat = false ->
  exists s' out k,
    runToSteadyState maxSteps s = Some (s', out) /\
    (k <= maxSteps)%nat /\ steps k s = Some s' /\
    (forall j sj, (S j < k)%nat -> steps (S j) s = Some sj ->
       ~ test_passes j sj) /\
    (((0 < k)%nat /\ test_passes (k - 1) s' /\
      logs out = [converged_line (k - 1)] /\ mode_of out = Converged) \/
     (k = maxSteps /\ (k = O \/ ~ test_passes (k - 1) s') /\
      logs out = [] /\ mode_of out = Exhausted)) /\
    (forall u, largest_change u (getMaxChange u)) /\
    (forall u u' o, step 1.0 u = Some (u', o) -> tempNext u' = pinned u).
Proof.
  intros _ Hs. unfold runToSteadyState.
  destruct (run_loop_returns maxSteps 0 s [] Hs) as [[s' out] Hrun].
  destruct (run_loop_spec _ _ _ _ _ _ Hrun) as (k & Hk & Hsteps & Hbefore & Hend).
  exists s', out, k. rewrite Hrun.
  split; [reflexivity |]. split; [exact Hk |]. split; [exact Hsteps |].
  split; [exact Hbefore |]. split.
  - cbn [Nat.add logs filter app] in Hend.
    destruct Hend as [(Hpos & Hp & Hl) | (Hm & Hnp & Hl)].
    + left. repeat split; try assumption; try apply Hp.
      unfold mode_of. rewrite Hl. reflexivity.
    + right. repeat split; try assumption.
      unfold mode_of. rewrite Hl. reflexivity.
  - split; [exact getMaxChange_largest | exact (step_snapshot 1.0)].
Qed.

(** A fresh one-cell simulator whose outside temperature is then set to
    20.72 is [cell 20 20], and its first step leads to [cell (cool 20) 20]. *)
Lemma fresh_cell :
  exists s0, new 0.125 0.125 0.125 = Some s0 /\
             set_outsideTemp 20.72 s0 = cell a0 a0.
Proof.
  eexists. split.
  - unfold new. destruct (Req_dec_T 0.125 0) as [E | _]; [exfalso; lra |].
    replace (Zceil (0.125 / 0.125)) with 1%Z; [reflexivity |].
    symmetry. apply Zceil_eq. lra.
  - reflexivity.
Qed.

Lemma change_first : Rabs (cool a0 - a0) = 0.01008.
Proof. unfold cool, a0, Rabs. destruct (Rcase_abs _); lra. Qed.

Lemma change_second : Rabs (cool (cool a0) - cool a0) = 0.00993888.
Proof. unfold cool, a0, Rabs. destruct (Rcase_abs _); lra. Qed.

(** From the fresh cell: two steps without a successful test, the budget
    is spent. *)
Lemma run_exhausted (b : R) :
  runToSteadyState 2 (cell a0 b) =
  Some (cell (cool (cool a0)) (cool a0), []).
Proof.
  unfold runToSteadyState.
  rewrite run_loop_S, step_cell, getMaxChange_cell, change_first.
  rewrite (ltb_false 0.01008 0.01) by lra.
  change (if (0 mod 100 =? 0)%nat then false else false) with false.
  cbv iota. rewrite run_loop_S, step_cell.
  change (1 mod 100 =? 0)%nat with false. reflexivity.
Qed.

(** From the fresh cell stepped once: one step and a successful test, the
    run converges. *)
Lemma run_converged (b : R) :
  runToSteadyState 2 (cell (cool a0) b) =
  Some (cell (cool (cool a0)) (cool a0), [converged_line 0]).
Proof.
  unfold runToSteadyState.
  rewrite run_loop_S, step_cell, getMaxChange_cell, change_second.
  rewrite (ltb_true 0.00993888 0.01) by lra.
  change (if (0 mod 100 =? 0)%nat then true else false) with true.
  reflexivity.
Qed.

(** C4, the caller's view.  A run that spends its budget and a run that
    converges can leave the caller with the same budget and the same
    instance: no observation of these tells the two modes apart. *)
Lemma caller_cannot_distinguish : ~ caller_can_distinguish.
Proof.
  intros [observe H].
  assert (HA := H _ _ _ _ (run_exhausted a0)).
  assert (HB := H _ _ _ _ (run_converged a0)).
  rewrite HA in HB. discriminate HB.
Qed.

Lemma run_to_steady_state_modes_witness :
  exists s' out k,
    runToSteadyState 2 (cell a0 a0) = Some (s', out) /\
    (k <= 2)%nat /\ steps k (cell a0 a0) = Some s' /\
    (forall j sj, (S j < k)%nat -> steps (S j) (cell a0 a0) = Some sj ->
       ~ test_passes j sj) /\
    (((0 < k)%nat /\ test_passes (k - 1) s' /\
      logs out = [converged_line (k - 1)] /\ mode_of out = Converged) \/
     (k = 2%nat /\ (k = O \/ ~ test_passes (k - 1) s') /\
      logs out = [] /\ mode_of out = Exhausted)) /\
    (forall u, largest_change u (getMaxChange u)) /\
    (forall u u' o, step 1.0 u = Some (u', o) -> tempNext u' = pinned u).
Proof.
  apply (run_to_steady_state_modes 2 (cell a0 a0)); [| reflexivity].
  split; (split; [reflexivity | repeat constructor]).
Defined.

End SteadyStateProperties.

(** * Hydraulic analyser: monotonicity *)

Section SwameeJain.
Import PPipe.
Import Analysis.

Lemma pressure_loss_darcy (c : HeatingCircuit) (first : PipeSegment)
    (rest : list PipeSegment) :
  segments c = first :: rest ->
  calculatePressureLoss c =
  darcy (flow_rate c) (calculateCircuitLength c) (diameter first).
Proof. intros H. unfold calculatePressureLoss. rewrite H. reflexivity. Qed.

Lemma ln_lt_pred (s : R) : 0 < s -> s <> 1 -> ln s < s - 1.
Proof.
  intros Hs Hne.
  assert (H := exp_ineq1 (ln s) (ln_neq_0 s Hne Hs)).
  rewrite (exp_ln s Hs) in H. lra.
Qed.

Lemma ln_le_compat (a b : R) : 0 < a -> a <= b -> ln a <= ln b.
Proof.
  intros Ha [Hlt | ->]; [left; apply ln_increasing; assumption | right; reflexivity].
Qed.

Lemma ln_3_lower : 0.9 < ln 3.
Proof.
  rewrite <- (ln_exp 0.9). apply ln_increasing; [apply exp_pos |].
  apply Rlt_le_trans with (exp 1); [apply exp_increasing; lra | apply exp_le_3].
Qed.

Lemma ln_10_pos : 0 < ln 10.
Proof. rewrite <- ln_1. apply ln_increasing; lra. Qed.

Lemma neg_ln_lower (v : R) : 0 < v -> v <= 1 / 3 -> 0.9 < - ln v.
Proof.
  intros Hv Hle.
  assert (H : ln v <= ln (/ 3)) by (apply ln_le_compat; lra).
  rewrite ln_Rinv in H by lra. assert (H3 := ln_3_lower). lra.
Qed.

Lemma Rpower_gt_1 (s e : R) : 1 < s -> 0 < e -> 1 < Rpower s e.
Proof.
  intros Hs He. unfold Rpower. rewrite <- exp_0. apply exp_increasing.
  apply Rmult_lt_0_compat; [exact He |]. rewrite <- ln_1. apply ln_increasing; lra.
Qed.

Lemma friction_factor_log (Re D : R) :
  ln (sj_arg Re D) <> 0 ->
  calculateFrictionFactor Re D = 0.25 * (ln 10) ^ 2 / (ln (sj_arg Re D)) ^ 2.
Proof.
  intros H. unfold calculateFrictionFactor, JSNum.log10. fold (sj_arg Re D).
  assert (H10 := ln_10_pos). field. split; lra.
Qed.

Lemma sj_arg_pos (Re D : R) : 0 < D -> 0 < sj_arg Re D.
Proof.
  intros HD. unfold sj_arg, PIPE_ROUGHNESS.
  assert (0 < Rpower Re 0.9) by apply exp_pos.
  apply Rplus_lt_0_compat; apply Rdiv_lt_0_compat; lra.
Qed.

(** More flow, same pipe: [Re^2 f] grows. *)
Lemma friction_flow_increasing (D Re1 Re2 : R) :
  0 < D -> 0 < Re1 -> Re1 < Re2 -> sj_arg Re1 D <= 1 / 3 ->
  Re1 ^ 2 * calculateFrictionFactor Re1 D <
  Re2 ^ 2 * calculateFrictionFactor Re2 D.
Proof.
  intros HD H1 H12 Hx1.
  set (s := Re2 / Re1).
  assert (Hs : 1 < s).
  { unfold s. apply (Rmult_lt_reg_r Re1); [lra |]. field_simplify; lra. }
  assert (HRe2 : Re2 = Re1 * s) by (unfold s; field; lra).
  set (S := Rpower s 0.9).
  assert (HS : 1 < S) by (apply Rpower_gt_1; lra).
  assert (HlnS : ln S = 0.9 * ln s) by (unfold S, Rpower; apply ln_exp).
  assert (HP : Rpower Re2 0.9 = Rpower Re1 0.9 * S).
  { rewrite HRe2. symmetry. apply Rpower_mult_distr; lra. }
  assert (HP1 : 0 < Rpower Re1 0.9) by apply exp_pos.
  set (t1 := PIPE_ROUGHNESS / (3.7 * D)).
  assert (Ht1 : 0 < t1).
  { unfold t1, PIPE_ROUGHNESS. apply Rdiv_lt_0_compat; lra. }
  set (x1 := sj_arg Re1 D) in *. set (x2 := sj_arg Re2 D).
  assert (Hx1' : x1 = t1 + 5.74 / Rpower Re1 0.9) by reflexivity.
  assert (Hx2' : x2 = t1 + 5.74 / (Rpower Re1 0.9 * S)).
  { unfold x2, sj_arg. rewrite HP. reflexivity. }
  assert (Hq : 0 < 5.74 / Rpower Re1 0.9) by (apply Rdiv_lt_0_compat; lra).
  assert (Hq2 : 5.74 / (Rpower Re1 0.9 * S) = 5.74 / Rpower Re1 0.9 / S)
    by (field; lra).
  assert (HSi : 0 < / S < 1).
  { split; [apply Rinv_0_lt_compat; lra |].
    rewrite <- Rinv_1. apply Rinv_lt_contravar; lra. }
  assert (Hx2pos : 0 < x2) by (apply sj_arg_pos; exact HD).
  assert (Hx21 : x2 < x1).
  { rewrite Hx1', Hx2', Hq2. unfold Rdiv at 1. 
    assert (5.74 / Rpower Re1 0.9 * / S < 5.74 / Rpower Re1 0.9 * 1)
      by (apply Rmult_lt_compat_l; lra). lra. }
  assert (Hx12 : x1 <= x2 * S).
  { rewrite Hx1', Hx2', Hq2.
    replace ((t1 + 5.74 / Rpower Re1 0.9 / S) * S)
      with (t1 * S + 5.74 / Rpower Re1 0.9) by (field; lra).
    nra. }
  assert (Hl1 : ln x2 < ln x1) by (apply ln_increasing; lra).
  assert (Hl2 : ln x1 <= ln x2 + 0.9 * ln s).
  { rewrite <- HlnS, <- ln_mult by lra. apply ln_le_compat; lra. }
  assert (Hh1 : 0.9 < - ln x1) by (apply neg_ln_lower; lra).
  assert (Hls : ln s < s - 1) by (apply ln_lt_pred; lra).
  rewrite !friction_factor_log by (fold x1; fold x2; lra).
  fold x1. fold x2.
  set (h1 := - ln x1) in *. set (h2 := - ln x2).
  assert (Hh2 : h1 < h2) by (unfold h1, h2; lra).
  assert (Hh2s : h2 < s * h1) by (unfold h2, h1 in *; nra).
  assert (H10 := ln_10_pos).
  replace (Re1 ^ 2 * (0.25 * ln 10 ^ 2 / ln x1 ^ 2))
    with (0.25 * ln 10 ^ 2 * (Re1 / h1) ^ 2) by (unfold h1 in *; field; lra).
  replace (Re2 ^ 2 * (0.25 * ln 10 ^ 2 / ln x2 ^ 2))
    with (0.25 * ln 10 ^ 2 * (Re2 / h2) ^ 2)
    by (unfold h2, h1 in *; field; lra).
  assert (Hab : Re1 / h1 < Re2 / h2).
  { apply (Rmult_lt_reg_r (h1 * h2)); [nra |].
    replace (Re1 / h1 * (h1 * h2)) with (Re1 * h2) by (field; lra).
    replace (Re2 / h2 * (h1 * h2)) with (Re1 * (s * h1)) by (rewrite HRe2; field; lra).
    apply Rmult_lt_compat_l; lra. }
  assert (Ha : 0 < Re1 / h1) by (apply Rdiv_lt_0_compat; lra).
  assert (0 < 0.25 * ln 10 ^ 2) by nra.
  apply Rmult_lt_compat_l; [assumption |]. nra.
Qed.

(** A larger pipe, same flow ([Re * D] is then constant): [f / D^5]
    shrinks. *)
Lemma friction_diameter_decreasing (kappa D1 D2 : R) :
  0 < kappa -> 0 < D1 -> D1 < D2 ->
  sj_arg (kappa / D1) D1 <= 1 / 3 -> sj_arg (kappa / D2) D2 <= 1 / 3 ->
  calculateFrictionFactor (kappa / D2) D2 / D2 ^ 5 <
  calculateFrictionFactor (kappa / D1) D1 / D1 ^ 5.
Proof.
  intros Hk H1 H12 Hx1 Hx2.
  set (s := D2 / D1).
  assert (Hs : 1 < s).
  { unfold s. apply (Rmult_lt_reg_r D1); [lra |]. field_simplify; lra. }
  assert (HD2 : D2 = D1 * s) by (unfold s; field; lra).
  set (S := Rpower s 0.9).
  assert (HS : 1 < S) by (apply Rpower_gt_1; lra).
  assert (HlnS : ln S = 0.9 * ln s) by (unfold S, Rpower; apply ln_exp).
  assert (HR2 : 0 < kappa / D2) by (apply Rdiv_lt_0_compat; lra).
  assert (HP : Rpower (kappa / D1) 0.9 = Rpower (kappa / D2) 0.9 * S).
  { replace (kappa / D1) with (kappa / D2 * s) by (rewrite HD2; field; lra).
    symmetry. apply Rpower_mult_distr; lra. }
  assert (HP2 : 0 < Rpower (kappa / D2) 0.9) by apply exp_pos.
  set (P2 := Rpower (kappa / D2) 0.9) in *.
  set (x1 := sj_arg (kappa / D1) D1) in *.
  set (x2 := sj_arg (kappa / D2) D2) in *.
  assert (Hx1' : x1 = PIPE_ROUGHNESS / (3.7 * D1) + 5.74 / (P2 * S)).
  { unfold x1, sj_arg. rewrite HP. reflexivity. }
  assert (Hx2' : x2 = PIPE_ROUGHNESS / (3.7 * D1) / s + 5.74 / P2).
  { unfold x2, sj_arg. fold P2. rewrite HD2. f_equal. field. lra. }
  assert (Ht1 : 0 < PIPE_ROUGHNESS / (3.7 * D1)).
  { unfold PIPE_ROUGHNESS. apply Rdiv_lt_0_compat; lra. }
  set (t1 := PIPE_ROUGHNESS / (3.7 * D1)) in *.
  assert (Hq : 0 < 5.74 / P2) by (apply Rdiv_lt_0_compat; lra).
  assert (Hx1pos : 0 < x1) by (apply sj_arg_pos; lra).
  assert (Hx2pos : 0 < x2) by (apply sj_arg_pos; lra).
  assert (Hsi : 0 < / s < 1).
  { split; [apply Rinv_0_lt_compat; lra |].
    rewrite <- Rinv_1. apply Rinv_lt_contravar; lra. }
  assert (Hx21 : x2 <= x1 * S).
  { rewrite Hx1', Hx2'.
    replace ((t1 + 5.74 / (P2 * S)) * S) with (t1 * S + 5.74 / P2)
      by (field; lra).
    unfold Rdiv at 1. nra. }
  assert (Hl : ln x2 <= ln x1 + 0.9 * ln s).
  { rewrite <- HlnS, <- ln_mult by lra. apply ln_le_compat; lra. }
  assert (Hh1 : 0.9 < - ln x1) by (apply neg_ln_lower; lra).
  assert (Hh2 : 0.9 < - ln x2) by (apply neg_ln_lower; lra).
  assert (Hls : ln s < s - 1) by (apply ln_lt_pred; lra).
  rewrite !friction_factor_log by (fold x1; fold x2; lra).
  fold x1. fold x2.
  set (h1 := - ln x1) in *. set (h2 := - ln x2) in *.
  assert (Hh : h1 < s * h2) by (unfold h1, h2 in *; nra).
  assert (H10 := ln_10_pos).
  assert (Hsq : h1 ^ 2 < s ^ 5 * h2 ^ 2).
  { assert (h1 ^ 2 < (s * h2) ^ 2) by nra.
    assert (s ^ 2 <= s ^ 5).
    { replace (s ^ 5) with (s ^ 2 * s ^ 3) by ring.
      assert (1 <= s ^ 3) by (apply pow_R1_Rle; lra). nra. }
    nra. }
  replace (0.25 * ln 10 ^ 2 / ln x2 ^ 2 / D2 ^ 5)
    with (0.25 * ln 10 ^ 2 / D1 ^ 5 * / (s ^ 5 * h2 ^ 2))
    by (unfold h2, h1 in *; rewrite HD2; field; lra).
  replace (0.25 * ln 10 ^ 2 / ln x1 ^ 2 / D1 ^ 5)
    with (0.25 * ln 10 ^ 2 / D1 ^ 5 * / (h1 ^ 2))
    by (unfold h2, h1 in *; field; lra).
  assert (0 < D1 ^ 5) by (apply pow_lt; lra).
  assert (0 < 0.25 * ln 10 ^ 2 / D1 ^ 5) by (apply Rdiv_lt_0_compat; nra).
  apply Rmult_lt_compat_l; [assumption |].
  apply Rinv_lt_contravar; [| exact Hsq].
  assert (0 < h1 ^ 2) by nra. nra.
Qed.

Lemma Rpower_09_lower (a r : R) :
  0 < a -> 0 < r -> a ^ 10 <= r ^ 9 -> a <= Rpower r 0.9.
Proof.
  intros Ha Hr H.
  assert (Hl : ln (a ^ 10) <= ln (r ^ 9)).
  { apply ln_le_compat; [apply pow_lt; exact Ha | exact H]. }
  rewrite !ln_pow in Hl by assumption.
  replace (INR 10) with 10 in Hl by (simpl; lra).
  replace (INR 9) with 9 in Hl by (simpl; lra).
  rewrite <- (exp_ln a Ha). unfold Rpower.
  destruct (Req_dec (ln a) (0.9 * ln r)) as [-> | Hne]; [right; reflexivity |].
  left. apply exp_increasing. lra.
Qed.

Lemma Rpower_09_upper (b r : R) :
  0 < b -> 0 < r -> r ^ 9 <= b ^ 10 -> Rpower r 0.9 <= b.
Proof.
  intros Hb Hr H.
  assert (Hl : ln (r ^ 9) <= ln (b ^ 10)).
  { apply ln_le_compat; [apply pow_lt; exact Hr | exact H]. }
  rewrite !ln_pow in Hl by assumption.
  replace (INR 10) with 10 in Hl by (simpl; lra).
  replace (INR 9) with 9 in Hl by (simpl; lra).
  rewrite <- (exp_ln b Hb). unfold Rpower.
  destruct (Req_dec (0.9 * ln r) (ln b)) as [-> | Hne]; [right; reflexivity |].
  left. apply exp_increasing. lra.
Qed.

(** In the turbulent range, and for a pipe of at least 1 mm, the argument
    of the logarithm is small. *)
Lemma sj_arg_turbulent (Re D : R) :
  4000 <= Re -> 0.001 <= D -> sj_arg Re D <= 1 / 3.
Proof.
  intros HRe HD. unfold sj_arg, PIPE_ROUGHNESS.
  assert (HP : 1000 <= Rpower Re 0.9).
  { apply Rle_trans with (Rpower 4000 0.9).
    - apply Rpower_09_lower; lra.
    - apply Rle_Rpower_l; lra. }
  assert (Ht1 : 0.0000015 / (3.7 * D) <= 0.0000015 / (3.7 * 0.001)).
  { unfold Rdiv. apply Rmult_le_compat_l; [lra |].
    apply Rinv_le_contravar; lra. }
  assert (Ht2 : 5.74 / Rpower Re 0.9 <= 5.74 / 1000).
  { unfold Rdiv. apply Rmult_le_compat_l; [lra |].
    apply Rinv_le_contravar; lra. }
  lra.
Qed.
End SwameeJain.

Section Darcy.
Import PPipe.
Import Analysis.

Lemma PI_bounds : 3.1415 < PI < 3.1421.
Proof.
  destruct (PI_2_3_7_ineq 1) as [Hlo Hhi].
  unfold sum_f_R0, tg_alt, PI_2_3_7_tg, Ratan_seq in Hlo, Hhi.
  simpl in Hlo, Hhi. lra.
Qed.

Lemma reynolds_of_kappa (flow D : R) :
  0 < D -> reynolds_of flow D = kappa flow / D.
Proof.
  intros HD. unfold reynolds_of, kappa, calculateReynolds, WATER_DENSITY,
    WATER_VISCOSITY.
  assert (HPI := PI_RGT_0). field. split; lra.
Qed.

Lemma kappa_pos (flow : R) : 0 < flow -> 0 < kappa flow.
Proof.
  intros H. unfold kappa, WATER_DENSITY, WATER_VISCOSITY.
  assert (HPI := PI_RGT_0).
  assert (0 < flow / 3600 / 1000 / (PI / 4))
    by positive.
  apply Rdiv_lt_0_compat; [apply Rmult_lt_0_compat |]; lra.
Qed.

Lemma kappa_increasing (q1 q2 : R) : q1 < q2 -> kappa q1 < kappa q2.
Proof.
  intros H. unfold kappa, WATER_DENSITY, WATER_VISCOSITY.
  assert (HPI := PI_RGT_0).
  assert (Hc : 0 < 998.2 / 3600 / 1000 / (PI / 4) / 0.001002).
  { positive. }
  replace (998.2 * (q1 / 3600 / 1000 / (PI / 4)) / 0.001002)
    with (q1 * (998.2 / 3600 / 1000 / (PI / 4) / 0.001002)) by (field; lra).
  replace (998.2 * (q2 / 3600 / 1000 / (PI / 4)) / 0.001002)
    with (q2 * (998.2 / 3600 / 1000 / (PI / 4) / 0.001002)) by (field; lra).
  apply Rmult_lt_compat_r; assumption.
Qed.

(** [darcy] through [Re^2 f]. *)
Lemma darcy_by_reynolds (flow L D : R) :
  0 < D ->
  darcy flow L D =
  (reynolds_of flow D ^ 2 * calculateFrictionFactor (reynolds_of flow D) D) *
  (L / D * (WATER_VISCOSITY ^ 2 / (WATER_DENSITY * D ^ 2)) / 2 * 0.01).
Proof.
  intros HD. unfold darcy. fold (reynolds_of flow D).
  set (f := calculateFrictionFactor (reynolds_of flow D) D).
  unfold reynolds_of, calculateReynolds, WATER_DENSITY, WATER_VISCOSITY.
  assert (HPI := PI_RGT_0). field. split; lra.
Qed.

(** [darcy] through [f / D^5]. *)
Lemma darcy_by_diameter (flow L D : R) :
  0 < D ->
  darcy flow L D =
  (calculateFrictionFactor (kappa flow / D) D / D ^ 5) *
  (L * WATER_DENSITY / 2 * 0.01 * (flow / 3600 / 1000 / (PI / 4)) ^ 2).
Proof.
  intros HD. unfold darcy. fold (reynolds_of flow D).
  rewrite (reynolds_of_kappa flow D HD).
  set (f := calculateFrictionFactor (kappa flow / D) D).
  unfold WATER_DENSITY.
  assert (HPI := PI_RGT_0). field. split; lra.
Qed.

Lemma friction_factor_pos (Re D : R) :
  0 < D -> sj_arg Re D <= 1 / 3 -> 0 < calculateFrictionFactor Re D.
Proof.
  intros HD Hx.
  assert (Hpos := sj_arg_pos Re D HD).
  assert (Hh := neg_ln_lower _ Hpos Hx).
  rewrite friction_factor_log by lra.
  assert (H10 := ln_10_pos).
  apply Rdiv_lt_0_compat; nra.
Qed.

Lemma darcy_flow_increasing (q1 q2 L D : R) :
  0 < D -> 0 < L -> 0 < q1 -> q1 < q2 ->
  sj_arg (reynolds_of q1 D) D <= 1 / 3 ->
  darcy q1 L D < darcy q2 L D.
Proof.
  intros HD HL Hq1 Hq Hx.
  rewrite !darcy_by_reynolds by exact HD.
  apply Rmult_lt_compat_r.
  - unfold WATER_VISCOSITY, WATER_DENSITY.
    assert (0 < L / D) by (apply Rdiv_lt_0_compat; lra).
    assert (0 < 0.001002 ^ 2 / (998.2 * D ^ 2)) by (apply Rdiv_lt_0_compat; nra).
    nra.
  - apply friction_flow_increasing; try assumption.
    + rewrite reynolds_of_kappa by exact HD.
      apply Rdiv_lt_0_compat; [apply kappa_pos |]; lra.
    + rewrite !reynolds_of_kappa by exact HD.
      unfold Rdiv. apply Rmult_lt_compat_r;
        [apply Rinv_0_lt_compat; lra | apply kappa_increasing; exact Hq].
Qed.

Lemma darcy_length_increasing (q L1 L2 D : R) :
  0 < D -> 0 < q -> L1 < L2 ->
  sj_arg (reynolds_of q D) D <= 1 / 3 ->
  darcy q L1 D < darcy q L2 D.
Proof.
  intros HD Hq HL Hx.
  assert (Hf := friction_factor_pos _ _ HD Hx).
  assert (Hre : 0 < reynolds_of q D).
  { rewrite reynolds_of_kappa by exact HD.
    apply Rdiv_lt_0_compat; [apply kappa_pos |]; lra. }
  rewrite !darcy_by_reynolds by exact HD.
  apply Rmult_lt_compat_l; [apply Rmult_lt_0_compat; [nra | exact Hf] |].
  unfold WATER_VISCOSITY, WATER_DENSITY.
  assert (Hc : 0 < / D * (0.001002 ^ 2 / (998.2 * D ^ 2)) / 2 * 0.01).
  { assert (0 < / D) by (apply Rinv_0_lt_compat; lra).
    assert (0 < 0.001002 ^ 2 / (998.2 * D ^ 2)) by (apply Rdiv_lt_0_compat; nra).
    nra. }
  replace (L1 / D * (0.001002 ^ 2 / (998.2 * D ^ 2)) / 2 * 0.01)
    with (L1 * (/ D * (0.001002 ^ 2 / (998.2 * D ^ 2)) / 2 * 0.01))
    by (field; lra).
  replace (L2 / D * (0.001002 ^ 2 / (998.2 * D ^ 2)) / 2 * 0.01)
    with (L2 * (/ D * (0.001002 ^ 2 / (998.2 * D ^ 2)) / 2 * 0.01))
    by (field; lra).
  apply Rmult_lt_compat_r; assumption.
Qed.

Lemma darcy_diameter_decreasing (q L D1 D2 : R) :
  0 < D1 -> D1 < D2 -> 0 < L -> 0 < q ->
  sj_arg (reynolds_of q D1) D1 <= 1 / 3 ->
  sj_arg (reynolds_of q D2) D2 <= 1 / 3 ->
  darcy q L D2 < darcy q L D1.
Proof.
  intros H1 H12 HL Hq Hx1 Hx2.
  rewrite reynolds_of_kappa in Hx1, Hx2 by lra.
  rewrite !darcy_by_diameter by lra.
  apply Rmult_lt_compat_r.
  - unfold WATER_DENSITY. assert (HPI := PI_RGT_0).
    assert (Hw : 0 < (q / 3600 / 1000 / (PI / 4)) ^ 2) by (apply pow_lt; positive).
    set (W := (q / 3600 / 1000 / (PI / 4)) ^ 2) in *. nra.
  - apply friction_diameter_decreasing; try assumption. apply kappa_pos; exact Hq.
Qed.

Lemma darcy_linear (q L D : R) : D <> 0 -> darcy q L D = L * darcy q 1 D.
Proof.
  intros HD. unfold darcy.
  set (f := calculateFrictionFactor _ D).
  set (v := q / 3600 / 1000 / (PI * (D / 2) ^ 2)).
  field. exact HD.
Qed.

Lemma friction_factor_defined_pos (Re D : R) :
  0 < D -> sj_arg Re D <> 1 -> 0 < calculateFrictionFactor Re D.
Proof.
  intros HD Hne.
  assert (Hpos := sj_arg_pos Re D HD).
  unfold calculateFrictionFactor, JSNum.log10. fold (sj_arg Re D).
  assert (Hln : ln (sj_arg Re D) <> 0).
  { intros H0. apply Hne. apply ln_inv; [exact Hpos | lra |].
    rewrite ln_1. exact H0. }
  assert (H10 := ln_10_pos).
  assert (Hq : ln (sj_arg Re D) / ln 10 <> 0).
  { unfold Rdiv. apply Rmult_integral_contrapositive_currified; [exact Hln |].
    apply Rinv_neq_0_compat. lra. }
  apply Rdiv_lt_0_compat; [lra |].
  apply pow_nonzero with (n := 2%nat) in Hq.
  assert (H := pow2_ge_0 (ln (sj_arg Re D) / ln 10)). lra.
Qed.

(** The loss per metre is positive wherever the friction factor is
    defined. *)
Lemma darcy_unit_pos (q D : R) :
  0 < q -> 0 < D -> sj_arg (reynolds_of q D) D <> 1 -> 0 < darcy q 1 D.
Proof.
  intros Hq HD Hsj. unfold darcy. fold (reynolds_of q D).
  assert (Hf := friction_factor_defined_pos _ _ HD Hsj).
  assert (HPI := PI_RGT_0).
  assert (Hv : 0 < q / 3600 / 1000 / (PI * (D / 2) ^ 2)).
  { apply Rdiv_lt_0_compat; [lra |].
    apply Rmult_lt_0_compat; [exact HPI |]. apply pow_lt. lra. }
  apply Rmult_lt_0_compat; [| lra].
  apply Rmult_lt_0_compat.
  - apply Rmult_lt_0_compat; [exact Hf |]. apply Rdiv_lt_0_compat; lra.
  - apply Rdiv_lt_0_compat; [| lra].
    apply Rmult_lt_0_compat; [unfold WATER_DENSITY; lra |].
    apply pow_lt. exact Hv.
Qed.

(** Longer circuit, same flow and pipe: the loss grows wherever the
    friction factor is defined, in the laminar range too. *)
Lemma darcy_length_increasing_defined (q L1 L2 D : R) :
  0 < D -> 0 < q -> L1 < L2 ->
  sj_arg (reynolds_of q D) D <> 1 ->
  darcy q L1 D < darcy q L2 D.
Proof.
  intros HD Hq HL Hsj.
  rewrite (darcy_linear q L1 D), (darcy_linear q L2 D) by lra.
  apply Rmult_lt_compat_r; [apply darcy_unit_pos; assumption | exact HL].
Qed.

End Darcy.

Section Monotone.
Import PPipe.
Import Analysis.
Import Examples.

(** C7.  For two circuits with a first segment of positive diameter and
    a positive flow rate: the pressure loss is strictly increasing in the
    circuit length, the flow rate and the diameter being fixed, wherever
    the friction factor is defined, that is wherever the argument of the
    Swamee-Jain logarithm, [roughness / (3.7 D) + 5.74 / Re^0.9], differs
    from 1.  Where this argument is at most 1/3 (as it is in the whole
    turbulent range, see [sj_arg_turbulent]) the loss of a circuit of
    positive length is also strictly increasing in the flow rate and
    strictly decreasing in the first-segment diameter, the other two being
    fixed. *)
Theorem pressure_loss_monotone
    (c1 c2 : HeatingCircuit) (f1 f2 : PipeSegment) (r1 r2 : list PipeSegment) :
  segments c1 = f1 :: r1 -> segments c2 = f2 :: r2 ->
  0 < diameter f1 -> 0 < diameter f2 ->
  0 < flow_rate c1 -> 0 < flow_rate c2 ->
  (sj_arg (reynolds_of (flow_rate c1) (diameter f1)) (diameter f1) <= 1 / 3 ->
   sj_arg (reynolds_of (flow_rate c2) (diameter f2)) (diameter f2) <= 1 / 3 ->
   diameter f1 = diameter f2 ->
   calculateCircuitLength c1 = calculateCircuitLength c2 ->
   0 < calculateCircuitLength c1 ->
   flow_rate c1 < flow_rate c2 ->
   calculatePressureLoss c1 < calculatePressureLoss c2) /\
  (sj_arg (reynolds_of (flow_rate c1) (diameter f1)) (diameter f1) <> 1 ->
   diameter f1 = diameter f2 ->
   flow_rate c1 = flow_rate c2 ->
   calculateCircuitLength c1 < calculateCircuitLength c2 ->
   calculatePressureLoss c1 < calculatePressureLoss c2) /\
  (sj_arg (reynolds_of (flow_rate c1) (diameter f1)) (diameter f1) <= 1 / 3 ->
   sj_arg (reynolds_of (flow_rate c2) (diameter f2)) (diameter f2) <= 1 / 3 ->
   flow_rate c1 = flow_rate c2 ->
   calculateCircuitLength c1 = calculateCircuitLength c2 ->
   0 < calculateCircuitLength c1 ->
   diameter f1 < diameter f2 ->
   calculatePressureLoss c2 < calculatePressureLoss c1).
Proof.
  intros Hs1 Hs2 HD1 HD2 Hq1 Hq2.
  rewrite (pressure_loss_darcy c1 f1 r1 Hs1), (pressure_loss_darcy c2 f2 r2 Hs2).
  split; [| split].
  - intros Hx1 Hx2 HD HL HLpos Hq. rewrite <- HD, <- HL.
    apply darcy_flow_increasing; assumption.
  - intros Hx1 HD Hq HL. rewrite <- HD, <- Hq.
    apply darcy_length_increasing_defined; assumption.
  - intros Hx1 Hx2 Hq HL HLpos HD. rewrite <- Hq, <- HL. rewrite <- Hq in Hx2.
    apply darcy_diameter_decreasing; assumption.
Qed.

Lemma one_run_length (flow : R) : calculateCircuitLength (one_run flow) = 5.
Proof.
  unfold calculateCircuitLength, one_run. cbn [segments fold_left].
  rewrite straight_length by reflexivity. unfold Spec.chord. cbn [start end_].
  rewrite distance_same_y, Rabs_pos_eq; lra.
Qed.

Lemma reynolds_of_bounds (q D : R) :
  0 < q -> 0 < D ->
  q * 1.1068 / (3.1421 * D) < reynolds_of q D /\
  reynolds_of q D < q * 1.1069 / (3.1415 * D).
Proof.
  intros Hq HD. destruct PI_bounds as [Hlo Hhi].
  rewrite reynolds_of_kappa by exact HD.
  unfold kappa, WATER_DENSITY, WATER_VISCOSITY.
  replace (998.2 * (q / 3600 / 1000 / (PI / 4)) / 0.001002 / D)
    with (q * (998.2 * 4 / 3600 / 1000 / 0.001002) / D * / PI) by (field; lra).
  assert (Hi : / 3.1421 < / PI < / 3.1415).
  { split; apply Rinv_lt_contravar; try lra; apply Rmult_lt_0_compat; lra. }
  assert (Hc : 1.1068 < 998.2 * 4 / 3600 / 1000 / 0.001002 < 1.1069) by lra.
  assert (HDi : 0 < / D) by (apply Rinv_0_lt_compat; lra).
  replace (q * 1.1068 / (3.1421 * D)) with (q * / D * (1.1068 * / 3.1421))
    by (field; lra).
  replace (q * 1.1069 / (3.1415 * D)) with (q * / D * (1.1069 * / 3.1415))
    by (field; lra).
  replace (q * (998.2 * 4 / 3600 / 1000 / 0.001002) / D * / PI)
    with (q * / D * (998.2 * 4 / 3600 / 1000 / 0.001002 * / PI)) by (field; lra).
  assert (0 < q * / D) by (apply Rmult_lt_0_compat; lra).
  split; apply Rmult_lt_compat_l; try assumption; nra.
Qed.

Lemma pressure_loss_monotone_witness :
  calculatePressureLoss (one_run 300) < calculatePressureLoss (one_run 400).
Proof.
  destruct (reynolds_of_bounds 300 0.016) as [H300 _]; [lra | lra |].
  destruct (reynolds_of_bounds 400 0.016) as [H400 _]; [lra | lra |].
  assert (Hall := pressure_loss_monotone
                    (one_run 300) (one_run 400) _ _ [] [] eq_refl eq_refl).
  cbn [one_run flow_rate diameter] in Hall.
  destruct Hall as [Hflow _]; try lra.
  apply Hflow; try lra.
  - apply sj_arg_turbulent; lra.
  - apply sj_arg_turbulent; lra.
  - rewrite !one_run_length. reflexivity.
  - rewrite one_run_length. lra.
Defined.


Lemma ln_ge_inv (v : R) : 0 < v -> 1 - / v <= ln v.
Proof.
  intros Hv.
  assert (H : ln (/ v) <= / v - 1).
  { destruct (Req_dec (/ v) 1) as [E | E].
    - rewrite E, ln_1. lra.
    - left. apply ln_lt_pred; [apply Rinv_0_lt_compat; exact Hv | exact E]. }
  rewrite ln_Rinv in H by exact Hv. lra.
Qed.

Lemma ln_le_pred (v : R) : 0 < v -> ln v <= v - 1.
Proof.
  intros Hv. destruct (Req_dec v 1) as [E | E].
  - rewrite E, ln_1. lra.
  - left. apply ln_lt_pred; assumption.
Qed.

(** The friction term [Re^2 f] through the logarithm. *)
Lemma friction_term (Re D : R) :
  ln (sj_arg Re D) <> 0 ->
  Re ^ 2 * calculateFrictionFactor Re D =
  0.25 * ln 10 ^ 2 * (Re / - ln (sj_arg Re D)) ^ 2.
Proof.
  intros H. rewrite friction_factor_log by exact H.
  assert (H10 := ln_10_pos). field. lra.
Qed.

(** C7, below the turbulent range.  Raising the flow from 0.34 to 0.9 L/h
    in a 16 mm pipe (Reynolds number from about 7.5 to about 20) lowers the
    computed pressure loss: the Swamee-Jain logarithm crosses zero near
    [Re = 7]. *)
Lemma pressure_loss_not_monotone_laminar :
  flow_rate (one_run 0.34) < flow_rate (one_run 0.9) /\
  segments (one_run 0.34) = segments (one_run 0.9) /\
  calculatePressureLoss (one_run 0.9) < calculatePressureLoss (one_run 0.34).
Proof.
  split; [simpl; lra | split; [reflexivity |]].
  rewrite (pressure_loss_darcy (one_run 0.34) _ [] eq_refl),
          (pressure_loss_darcy (one_run 0.9) _ [] eq_refl).
  rewrite !one_run_length. cbn [one_run flow_rate diameter].
  rewrite (darcy_by_reynolds 0.9), (darcy_by_reynolds 0.34) by lra.
  destruct (reynolds_of_bounds 0.34 0.016) as [Hlo1 Hhi1]; [lra | lra |].
  destruct (reynolds_of_bounds 0.9 0.016) as [Hlo2 Hhi2]; [lra | lra |].
  set (R1 := reynolds_of 0.34 0.016) in *.
  set (R2 := reynolds_of 0.9 0.016) in *.
  assert (HR1 : 7.4852 < R1 < 7.4882) by lra.
  assert (HR2 : 19.8138 < R2 < 19.82) by lra.
  clear Hlo1 Hhi1 Hlo2 Hhi2.
  assert (HP1lo : 6.1 <= Rpower R1 0.9).
  { apply Rle_trans with (Rpower 7.4852 0.9).
    - apply Rpower_09_lower; lra.
    - apply Rle_Rpower_l; lra. }
  assert (HP1hi : Rpower R1 0.9 <= 6.13).
  { apply Rle_trans with (Rpower 7.4882 0.9).
    - apply Rle_Rpower_l; lra.
    - apply Rpower_09_upper; lra. }
  assert (HP2lo : 14.6 <= Rpower R2 0.9).
  { apply Rle_trans with (Rpower 19.8138 0.9).
    - apply Rpower_09_lower; lra.
    - apply Rle_Rpower_l; lra. }
  assert (Hx1 : 0.936 <= sj_arg R1 0.016 <= 0.9411).
  { unfold sj_arg, PIPE_ROUGHNESS.
    assert (5.74 / 6.13 <= 5.74 / Rpower R1 0.9 <= 5.74 / 6.1).
    { unfold Rdiv. split; apply Rmult_le_compat_l; try lra;
        apply Rinv_le_contravar; lra. }
    lra. }
  assert (Hx2 : 0 < sj_arg R2 0.016 <= 0.3932).
  { split; [apply sj_arg_pos; lra |]. unfold sj_arg, PIPE_ROUGHNESS.
    assert (5.74 / Rpower R2 0.9 <= 5.74 / 14.6).
    { unfold Rdiv. apply Rmult_le_compat_l; [lra |].
      apply Rinv_le_contravar; lra. }
    lra. }
  assert (Hl1 : -0.0684 <= ln (sj_arg R1 0.016) <= -0.0589).
  { split.
    - apply Rle_trans with (1 - / sj_arg R1 0.016); [| apply ln_ge_inv; lra].
      assert (/ sj_arg R1 0.016 <= / 0.936) by (apply Rinv_le_contravar; lra).
      lra.
    - apply Rle_trans with (sj_arg R1 0.016 - 1); [apply ln_le_pred |]; lra. }
  assert (Hl2 : ln (sj_arg R2 0.016) <= -0.6068).
  { apply Rle_trans with (sj_arg R2 0.016 - 1); [apply ln_le_pred |]; lra. }
  rewrite !friction_term by lra.
  set (h1 := - ln (sj_arg R1 0.016)). set (h2 := - ln (sj_arg R2 0.016)).
  assert (Hh1 : 0.0589 <= h1 <= 0.0684) by (unfold h1; lra).
  assert (Hh2 : 0.6068 <= h2) by (unfold h2; lra).
  assert (Hab : R2 / h2 < R1 / h1).
  { apply (Rmult_lt_reg_r (h1 * h2)); [nra |].
    replace (R2 / h2 * (h1 * h2)) with (R2 * h1) by (field; lra).
    replace (R1 / h1 * (h1 * h2)) with (R1 * h2) by (field; lra).
    nra. }
  assert (Ha : 0 < R2 / h2) by (apply Rdiv_lt_0_compat; lra).
  assert (H10 := ln_10_pos).
  assert (Hc : 0 < 5 / 0.016 *
                   (WATER_VISCOSITY ^ 2 / (WATER_DENSITY * 0.016 ^ 2)) / 2 * 0.01).
  { unfold WATER_VISCOSITY, WATER_DENSITY. lra. }
  apply Rmult_lt_compat_r; [exact Hc |].
  apply Rmult_lt_compat_l; [nra |]. nra.
Qed.

End Monotone.

(** * The kitchen prototype *)

Section ExpBounds.

Import Analysis.

Lemma last_cons {A : Type} (b : A) (l : list A) (d : A) :
  last (b :: l) d = last l b.
Proof.
  revert b d. induction l as [| c l IH]; intros b d; [reflexivity |].
  change (last (c :: l) d = last (c :: l) b). rewrite !IH. reflexivity.
Qed.

Lemma exp_squares_lower (l : list R) :
  forall a t, 0 <= a -> a <= exp t -> squares_below a l ->
  last l a <= exp (t * 2 ^ List.length l).
Proof.
  induction l as [| b l IH]; intros a t Ha Hexp Hch.
  - simpl. rewrite Rmult_1_r. exact Hexp.
  - destruct Hch as (Hb & Hsq & Hch). rewrite last_cons.
    replace (t * 2 ^ List.length (b :: l)) with ((t + t) * 2 ^ List.length l)
      by (simpl; ring).
    apply IH; [exact Hb | | exact Hch].
    rewrite exp_plus. nra.
Qed.

Lemma exp_squares_upper (l : list R) :
  forall a t, exp t <= a -> squares_above a l ->
  exp (t * 2 ^ List.length l) <= last l a.
Proof.
  induction l as [| b l IH]; intros a t Hexp Hch.
  - simpl. rewrite Rmult_1_r. exact Hexp.
  - destruct Hch as (Hsq & Hch). rewrite last_cons.
    replace (t * 2 ^ List.length (b :: l)) with ((t + t) * 2 ^ List.length l)
      by (simpl; ring).
    apply IH; [| exact Hch].
    rewrite exp_plus. assert (Hp := exp_pos t). nra.
Qed.

Lemma exp_le_inv_pred (t : R) : t < 1 -> exp t <= / (1 - t).
Proof.
  intros Ht. assert (H := exp_ineq1_le (- t)). rewrite exp_Ropp in H.
  assert (Hp := exp_pos t).
  rewrite <- (Rinv_inv (exp t)). apply Rinv_le_contravar; lra.
Qed.

Lemma exp_5_95_lower : 377.2 <= exp 5.95.
Proof.
  assert (H := exp_squares_lower
    [1.011654856; 1.023445547; 1.047440787; 1.097132202; 1.203699068;
     1.448891446; 2.099286422; 4.407003481; 19.421679681; 377.201641631]
    (1 + 5.95 / 1024) (5.95 / 1024)).
  cbn [last List.length squares_below] in H.
  replace (5.95 / 1024 * 2 ^ 10) with 5.95 in H by lra.
  apply Rle_trans with (2 := H ltac:(lra) (exp_ineq1_le _) ltac:(repeat split; lra)).
  lra.
Qed.

Lemma exp_2_315_lower : 10 <= exp 2.315.
Proof.
  assert (H := exp_squares_lower
    [1.004526595; 1.00907368; 1.018229691; 1.036791703; 1.074937035;
     1.155489629; 1.335156282; 1.782642297; 3.177813559; 10.098499015]
    (1 + 2.315 / 1024) (2.315 / 1024)).
  cbn [last List.length squares_below] in H.
  replace (2.315 / 1024 * 2 ^ 10) with 2.315 in H by lra.
  apply Rle_trans with (2 := H ltac:(lra) (exp_ineq1_le _) ltac:(repeat split; lra)).
  lra.
Qed.

Lemma exp_5_85_upper : exp 5.85 <= 353.2.
Proof.
  assert (H := exp_squares_upper
    [1.011524444; 1.023181701; 1.046900794; 1.096001273; 1.201218791;
     1.442926584; 2.082037127; 4.334878599; 18.791172469; 353.10816276]
    1.005745715268 (5.85 / 1024)).
  cbn [last List.length squares_above] in H.
  replace (5.85 / 1024 * 2 ^ 10) with 5.85 in H by lra.
  apply Rle_trans with (1 := H ltac:(apply Rle_trans with (/ (1 - 5.85 / 1024));
      [apply exp_le_inv_pred; lra |];
      apply (Rmult_le_reg_r (1 - 5.85 / 1024)); [lra |];
      rewrite Rinv_l; lra) ltac:(repeat split; lra)).
  lra.
Qed.

Lemma exp_2_29_upper : exp 2.29 <= 10.
Proof.
  assert (H := exp_squares_upper
    [1.004487705; 1.00899555; 1.01807202; 1.036470638; 1.074271384;
     1.154059007; 1.331852192; 1.773830262; 3.146473799; 9.900297368]
    1.002241340498 (2.29 / 1024)).
  cbn [last List.length squares_above] in H.
  replace (2.29 / 1024 * 2 ^ 10) with 2.29 in H by lra.
  apply Rle_trans with (1 := H ltac:(apply Rle_trans with (/ (1 - 2.29 / 1024));
      [apply exp_le_inv_pred; lra |];
      apply (Rmult_le_reg_r (1 - 2.29 / 1024)); [lra |];
      rewrite Rinv_l; lra) ltac:(repeat split; lra)).
  lra.
Qed.

Lemma ln_10_bounds : 2.29 <= ln 10 <= 2.315.
Proof.
  split.
  - rewrite <- (ln_exp 2.29). apply ln_le_compat; [apply exp_pos |].
    apply exp_2_29_upper.
  - rewrite <- (ln_exp 2.315). apply ln_le_compat; [lra |].
    apply exp_2_315_lower.
Qed.

End ExpBounds.

Section Kitchen.

Import PPipe.
Import HydraulicSolver.
Import Analysis.
Import Layout.

Lemma kitchen_flow_rate :
  224.0056 < calculateRequiredFlowRate 1300 35 30 < 224.0057.
Proof.
  unfold calculateRequiredFlowRate, WATER_SPECIFIC_HEAT, WATER_DENSITY. lra.
Qed.

Lemma ln_between (v lo hi : R) :
  0 < v -> exp lo <= v -> v <= exp hi -> lo <= ln v <= hi.
Proof.
  intros Hv Hlo Hhi. split.
  - rewrite <- (ln_exp lo). apply ln_le_compat; [apply exp_pos | exact Hlo].
  - rewrite <- (ln_exp hi). apply ln_le_compat; assumption.
Qed.

(** The friction term [Re^2 f] of the kitchen circuit. *)
Lemma kitchen_friction_term (Re : R) :
  4931.6 <= Re <= 4933.1 ->
  900638 <= Re ^ 2 * calculateFrictionFactor Re 0.016 <= 952733.
Proof.
  intros HRe.
  assert (HPlo : 2107.1 <= Rpower Re 0.9).
  { apply Rle_trans with (Rpower 4931.6 0.9).
    - apply Rpower_09_lower; lra.
    - apply Rle_Rpower_l; lra. }
  assert (HPhi : Rpower Re 0.9 <= 2107.8).
  { apply Rle_trans with (Rpower 4933.1 0.9).
    - apply Rle_Rpower_l; lra.
    - apply Rpower_09_upper; lra. }
  assert (Hx : 0.002748 <= sj_arg Re 0.016 <= 0.00275).
  { unfold sj_arg, PIPE_ROUGHNESS.
    assert (5.74 / 2107.8 <= 5.74 / Rpower Re 0.9 <= 5.74 / 2107.1).
    { unfold Rdiv. split; apply Rmult_le_compat_l; try lra;
        apply Rinv_le_contravar; lra. }
    lra. }
  assert (Hl : Ropp 5.95 <= ln (sj_arg Re 0.016) <= Ropp 5.85).
  { apply ln_between; [lra | |].
    - rewrite exp_Ropp.
      apply Rle_trans with (/ 377.2); [| lra].
      apply Rinv_le_contravar; [lra | apply exp_5_95_lower].
    - rewrite exp_Ropp.
      apply Rle_trans with (/ 353.2); [lra |].
      apply Rinv_le_contravar; [apply exp_pos | apply exp_5_85_upper]. }
  rewrite friction_term by lra.
  set (h := - ln (sj_arg Re 0.016)).
  assert (Hh : 5.85 <= h <= 5.95) by (unfold h; lra).
  destruct ln_10_bounds as [H10lo H10hi].
  set (G := ln 10 * (Re / h)).
  replace (0.25 * ln 10 ^ 2 * (Re / h) ^ 2) with (0.25 * G ^ 2)
    by (unfold G; ring).
  assert (Hq : 4931.6 / 5.95 <= Re / h <= 4933.1 / 5.85).
  { assert (Hhi : / 5.95 <= / h <= / 5.85)
      by (split; apply Rinv_le_contravar; lra).
    unfold Rdiv. split.
    - apply Rmult_le_compat; lra.
    - apply Rmult_le_compat; lra. }
  assert (HG : 1898.04 <= G <= 1952.16).
  { unfold G. split.
    - apply Rle_trans with (2.29 * (4931.6 / 5.95)); [lra |].
      apply Rmult_le_compat; lra.
    - apply Rle_trans with (2.315 * (4933.1 / 5.85)); [| lra].
      apply Rmult_le_compat; lra. }
  assert (Hsq1 : 1898.04 * 1898.04 <= G * G) by (apply Rmult_le_compat; lra).
  assert (Hsq2 : G * G <= 1952.16 * 1952.16) by (apply Rmult_le_compat; lra).
  replace (G ^ 2) with (G * G) by ring. lra.
Qed.

(** The pressure loss of the kitchen circuit, from bounds on its flow rate
    and length. *)
Lemma kitchen_pressure (q L : R) :
  224.0056 < q < 224.0057 -> 110.6939 <= L <= 110.6951 ->
  122 <= darcy q L 0.016 <= 130.
Proof.
  intros Hq HL.
  destruct (reynolds_of_bounds q 0.016) as [Hlo Hhi]; [lra | lra |].
  assert (HRe : 4931.6 <= reynolds_of q 0.016 <= 4933.1).
  { split.
    - apply Rle_trans with (q * 1.1068 / (3.1421 * 0.016)); lra.
    - apply Rle_trans with (q * 1.1069 / (3.1415 * 0.016)); lra. }
  rewrite darcy_by_reynolds by lra.
  assert (HA := kitchen_friction_term _ HRe).
  set (A := reynolds_of q 0.016 ^ 2 *
            calculateFrictionFactor (reynolds_of q 0.016) 0.016) in *.
  unfold WATER_VISCOSITY, WATER_DENSITY.
  set (C := L / 0.016 * (0.001002 ^ 2 / (998.2 * 0.016 ^ 2)) / 2 * 0.01).
  assert (HC : 0.00013591 <= C <= 0.00013592) by (unfold C; lra).
  split.
  - apply Rle_trans with (900638 * 0.00013591); [lra |].
    apply Rmult_le_compat; lra.
  - apply Rle_trans with (952733 * 0.00013592); [| lra].
    apply Rmult_le_compat; lra.
Qed.

Lemma layout_from_SS (params : CircuitDesignParams) (n segmentId : nat)
    (currentY direction : R) :
  layout_from params (S (S n)) segmentId currentY direction =
  run_segment params segmentId currentY direction ::
  turn_segment params (S segmentId) currentY direction ::
  layout_from params (S n) (S (S segmentId))
    (currentY + pipe_spacing params) (direction * -1).
Proof. reflexivity. Qed.

(** C1.  The kitchen prototype: the total pipe length is within 1 m of
    110.7 m, the pressure loss within 5 mbar of 126 mbar, and the circuit
    is not critical. *)
Theorem kitchen_prototype (extra : nat) :
  exists solution,
    solveKitchenPrototype (31 + extra) = Some solution /\
    Rabs (total_length solution - 110.7) <= 1 /\
    Rabs (pressure_loss solution - 126) <= 5 /\
    is_critical solution = false.
Proof.
  assert (Hc : Zceil ((room_length kitchenParams - pipe_spacing kitchenParams / 2)
                      / pipe_spacing kitchenParams) = 30%Z).
  { apply Zceil_eq. simpl. lra. }
  assert (Hgen : generateSerpentineLayout (31 + extra) kitchenParams =
                 Some (layout_from kitchenParams 30 0 (0.125 / 2) 1)).
  { rewrite (generateSerpentineLayout_rows kitchenParams (31 + extra)).
    - rewrite Hc. reflexivity.
    - simpl. lra.
    - rewrite Hc. simpl. lia. }
  unfold solveKitchenPrototype, solveHydraulicCircuit. rewrite Hgen.
  eexists. split; [reflexivity |].
  cbn [total_length pressure_loss is_critical].
  set (circuit := mkHeatingCircuit _ _ _ _ _ _).
  assert (HL : calculateCircuitLength circuit =
               30 * 3.5 + 29 * (PI * (0.125 / 2))).
  { unfold calculateCircuitLength, circuit. cbn [segments].
    rewrite (layout_from_length kitchenParams 30) by (simpl; lra).
    cbn [room_width pipe_spacing kitchenParams].
    rewrite (Rabs_pos_eq 3.5) by lra.
    replace (INR 30) with 30 by (simpl; lra).
    replace (INR (30 - 1)) with 29 by (simpl; lra). reflexivity. }
  destruct PI_bounds as [Hpl Hph].
  assert (HLb : 110.6939 <= calculateCircuitLength circuit <= 110.6951)
    by (rewrite HL; lra).
  assert (HP : 122 <= calculatePressureLoss circuit <= 130).
  { rewrite (pressure_loss_darcy circuit
               (run_segment kitchenParams 0 (0.125 / 2) 1)
               (turn_segment kitchenParams 1 (0.125 / 2) 1 ::
                layout_from kitchenParams 29 2
                  (0.125 / 2 + pipe_spacing kitchenParams) (1 * -1))).
    - apply kitchen_pressure; [apply kitchen_flow_rate | exact HLb].
    - unfold circuit. cbn [segments]. apply layout_from_SS. }
  split; [| split].
  - apply Rabs_le. lra.
  - apply Rabs_le. lra.
  - unfold isCriticalCircuit, CRITICAL_PRESSURE_LOSS, JSNum.gtb.
    destruct (Rgt_dec _ _) as [H | _]; [lra | reflexivity].
Qed.

End Kitchen.

(** * A circuit at exactly 300 mbar *)

Section Boundary.

Import PPipe.
Import Analysis.
Import Examples.

Lemma darcy_per_meter_pos : 0 < darcy 300 1 0.016.
Proof.
  destruct (reynolds_of_bounds 300 0.016) as [Hlo _]; [lra | lra |].
  assert (HRe : 4000 <= reynolds_of 300 0.016) by lra.
  rewrite darcy_by_reynolds by lra.
  assert (Hf := friction_factor_pos _ 0.016 ltac:(lra)
                  (sj_arg_turbulent _ 0.016 HRe ltac:(lra))).
  apply Rmult_lt_0_compat.
  - apply Rmult_lt_0_compat; [apply pow_lt; lra | exact Hf].
  - unfold WATER_VISCOSITY, WATER_DENSITY. lra.
Qed.

Lemma boundary_circuit_loss : calculatePressureLoss boundary_circuit = 300.
Proof.
  assert (Hpos := darcy_per_meter_pos).
  rewrite (pressure_loss_darcy boundary_circuit _ [] eq_refl).
  assert (HL : calculateCircuitLength boundary_circuit = 300 / darcy 300 1 0.016).
  { unfold calculateCircuitLength, boundary_circuit. cbn [segments fold_left].
    rewrite straight_length by reflexivity. unfold Spec.chord. cbn [start end_].
    rewrite distance_same_y, Rabs_pos_eq.
    - ring.
    - assert (0 < 300 / darcy 300 1 0.016) by (apply Rdiv_lt_0_compat; lra).
      lra. }
  rewrite HL. cbn [boundary_circuit flow_rate diameter].
  rewrite darcy_linear by lra. field. lra.
Qed.

Lemma is_critical_iff_witness :
  calculatePressureLoss boundary_circuit = 300 /\
  isCriticalCircuit boundary_circuit = false.
Proof.
  split; [exact boundary_circuit_loss |].
  apply (proj2 (is_critical_iff boundary_circuit)). exact boundary_circuit_loss.
Defined.

End Boundary.

(** * Geometry kernel: further properties *)

Section GeometryMore.

Import PPipe.
Import GeometryNotions.

Lemma distance_sym (a b : Point2D) : Spec.distance a b = Spec.distance b a.
Proof. unfold Spec.distance. f_equal. ring. Qed.

Lemma distance_nonneg (a b : Point2D) : 0 <= Spec.distance a b.
Proof. apply sqrt_pos. Qed.

Lemma distance_triangle (a b c : Point2D) :
  Spec.distance a c <= Spec.distance a b + Spec.distance b c.
Proof.
  assert (H := triangle (x a) (y a) (x c) (y c) (x b) (y b)).
  unfold dist_euc, Rsqr in H. unfold Spec.distance.
  replace ((x c - x a) * (x c - x a) + (y c - y a) * (y c - y a))
    with ((x a - x c) * (x a - x c) + (y a - y c) * (y a - y c)) by ring.
  replace ((x b - x a) * (x b - x a) + (y b - y a) * (y b - y a))
    with ((x a - x b) * (x a - x b) + (y a - y b) * (y a - y b)) by ring.
  replace ((x c - x b) * (x c - x b) + (y c - y b) * (y c - y b))
    with ((x b - x c) * (x b - x c) + (y b - y c) * (y b - y c)) by ring.
  exact H.
Qed.

Lemma path_length_cons2 (a b : Point2D) (l : list Point2D) :
  path_length (a :: b :: l) = Spec.distance a b + path_length (b :: l).
Proof. reflexivity. Qed.

Lemma path_length_nonneg (l : list Point2D) : 0 <= path_length l.
Proof.
  induction l as [| a l IH]; [simpl; lra |].
  destruct l as [| b l]; [simpl; lra |].
  rewrite path_length_cons2. assert (H := distance_nonneg a b). lra.
Qed.

Lemma path_length_snoc (l : list Point2D) (a b : Point2D) :
  path_length (l ++ [a; b]) = path_length (l ++ [a]) + Spec.distance a b.
Proof.
  induction l as [| c l IH]; [simpl; ring |].
  destruct l as [| d l].
  - simpl. ring.
  - change (path_length (c :: d :: (l ++ [a; b])) =
            path_length (c :: d :: (l ++ [a])) + Spec.distance a b).
    rewrite !path_length_cons2.
    change (d :: l ++ [a; b]) with ((d :: l) ++ [a; b]).
    change (d :: l ++ [a]) with ((d :: l) ++ [a]).
    rewrite IH. ring.
Qed.

Lemma path_length_rev (l : list Point2D) : path_length (rev l) = path_length l.
Proof.
  induction l as [| a l IH]; [reflexivity |].
  destruct l as [| b l]; [reflexivity |].
  rewrite path_length_cons2, <- IH.
  change (rev (a :: b :: l)) with ((rev l ++ [b]) ++ [a]).
  rewrite <- app_assoc. change ([b] ++ [a]) with [b; a].
  rewrite path_length_snoc, (distance_sym b a). simpl rev. ring.
Qed.

(** The loop over the control points walks the polyline from [prev]. *)
Lemma spline_fold (cps : list Point2D) :
  forall acc prev,
  fold_left spline_step cps (acc, prev) =
  (acc + path_length (prev :: cps), last cps prev).
Proof.
  induction cps as [| cp cps IH]; intros acc prev.
  - simpl. rewrite Rplus_0_r. reflexivity.
  - cbn [fold_left spline_step]. rewrite IH.
    rewrite path_length_cons2. unfold Spec.distance.
    f_equal; [ring |]. symmetry. apply last_cons.
Qed.

Lemma spline_length (s : PipeSegment) (cp : Point2D) (cps : list Point2D) :
  is_curved s = true -> JSNum.truthy (bend_radius s) = None ->
  control_points s = Some (cp :: cps) ->
  calculateSegmentLength s =
  path_length (start s :: (cp :: cps) ++ [end_ s]).
Proof.
  intros Hc Hb Hp. unfold calculateSegmentLength. rewrite Hc, Hb, Hp.
  cbn [negb]. rewrite spline_fold.
  set (l := cp :: cps).
  assert (Hl : path_length (start s :: l ++ [end_ s]) =
               path_length (start s :: l) + Spec.distance (last l (start s)) (end_ s)).
  { clearbody l. generalize (start s) as p.
    induction l as [| a l IH]; intros p; [simpl; ring |].
    change (path_length (p :: a :: (l ++ [end_ s])) =
            path_length (p :: a :: l) + Spec.distance (last (a :: l) p) (end_ s)).
    rewrite !path_length_cons2, IH.
    rewrite (last_cons a l p).
    ring. }
  rewrite Hl. unfold Spec.distance. ring.
Qed.


(** X1.  The length of a segment does not depend on its direction: swapping
    the end points, and reversing the control points of a spline, leaves
    [calculateSegmentLength] unchanged, for straight, arc, spline and
    fallback segments alike. *)
Theorem segment_length_reverse (s : PipeSegment) :
  calculateSegmentLength (reverse_segment s) = calculateSegmentLength s.
Proof.
  destruct (is_curved s) eqn:Hc.
  - destruct (JSNum.truthy (bend_radius s)) as [r |] eqn:Hb.
    + assert (Hr : exists r', bend_radius s = Some r' /\ r' <> 0).
      { unfold JSNum.truthy in Hb. destruct (bend_radius s) as [r' |];
          [| discriminate].
        destruct (Req_dec_T r' 0); [discriminate |]. exists r'. split; tauto. }
      destruct Hr as (r' & Hr' & Hne).
      rewrite (arc_length s r' Hc Hr' Hne).
      rewrite (arc_length (reverse_segment s) r' Hc Hr' Hne).
      unfold Spec.chord. cbn [reverse_segment start end_].
      rewrite distance_sym. reflexivity.
    + destruct (control_points s) as [[| cp cps] |] eqn:Hp.
      * unfold calculateSegmentLength. cbn [reverse_segment is_curved bend_radius
          control_points start end_]. rewrite Hc, Hb, Hp. cbn [negb option_map rev].
        f_equal. ring.
      * rewrite (spline_length s cp cps Hc Hb Hp).
        destruct (rev (cp :: cps)) as [| q qs] eqn:Hrev.
        { apply (f_equal (@List.length _)) in Hrev.
          rewrite length_rev in Hrev. discriminate. }
        rewrite (spline_length (reverse_segment s) q qs Hc Hb).
        2:{ cbn [reverse_segment control_points]. rewrite Hp. cbn [option_map].
            rewrite Hrev. reflexivity. }
        cbn [reverse_segment start end_]. rewrite <- Hrev.
        rewrite <- (path_length_rev (start s :: (cp :: cps) ++ [end_ s])).
        f_equal. cbn [rev]. rewrite rev_app_distr. cbn [rev app].
        rewrite <- !app_assoc. reflexivity.
      * unfold calculateSegmentLength. cbn [reverse_segment is_curved bend_radius
          control_points start end_]. rewrite Hc, Hb, Hp. cbn [negb option_map].
        f_equal. ring.
  - rewrite !straight_length by assumption.
    unfold Spec.chord. cbn [reverse_segment start end_]. apply distance_sym.
Qed.

Lemma asin_nonneg (v : R) : 0 <= v <= 1 -> 0 <= asin v.
Proof.
  intros Hv. destruct (Rle_lt_dec 0 (asin v)) as [H | H]; [exact H | exfalso].
  assert (Hb := asin_bound v). assert (HPI := PI_RGT_0).
  assert (Hs : sin (asin v) < sin 0) by (apply sin_increasing_1; lra).
  rewrite sin_asin, sin_0 in Hs; lra.
Qed.

Lemma asin_ge_arg (v : R) : 0 <= v <= 1 -> v <= asin v.
Proof.
  intros Hv. assert (H0 := asin_nonneg v Hv).
  destruct H0 as [H0 | H0].
  - left. rewrite <- (sin_asin v) at 1 by lra. apply sin_lt_x. exact H0.
  - right. rewrite <- (sin_asin v) at 1 by lra. rewrite <- H0. apply sin_0.
Qed.

Lemma clamp_bounds (v : R) : -1 <= Spec.clamp v (-1) 1 <= 1.
Proof.
  unfold Spec.clamp. split; [apply Rmax_l |].
  apply Rmax_lub; [lra | apply Rmin_l].
Qed.

Lemma clamp_nonneg (v : R) : 0 <= v -> 0 <= Spec.clamp v (-1) 1.
Proof.
  intros Hv. unfold Spec.clamp.
  apply Rle_trans with (Rmin 1 v); [| apply Rmax_r].
  apply Rmin_glb; lra.
Qed.

Lemma clamp_nonpos (v : R) : v <= 0 -> Spec.clamp v (-1) 1 <= 0.
Proof.
  intros Hv. unfold Spec.clamp.
  apply Rmax_lub; [lra |]. apply Rle_trans with v; [apply Rmin_r | exact Hv].
Qed.

(** X2.  No segment has a negative length, whatever its shape; an arc with a
    negative bend radius included (its angle is negative too). *)
Theorem segment_length_nonneg (s : PipeSegment) : 0 <= calculateSegmentLength s.
Proof.
  destruct (is_curved s) eqn:Hc.
  - destruct (JSNum.truthy (bend_radius s)) as [r |] eqn:Hb.
    + assert (Hr : bend_radius s = Some r /\ r <> 0).
      { unfold JSNum.truthy in Hb. destruct (bend_radius s) as [r' |];
          [| discriminate].
        destruct (Req_dec_T r' 0); [discriminate |].
        injection Hb as <-. split; [reflexivity | assumption]. }
      destruct Hr as [Hr Hne]. rewrite (arc_length s r Hc Hr Hne).
      assert (Hch := chord_nonneg s).
      set (v := Spec.chord s / (2 * r)).
      assert (Hcb := clamp_bounds v).
      destruct (Rlt_le_dec 0 r) as [Hpos | Hneg].
      * assert (Hv : 0 <= v).
        { unfold v, Rdiv. apply Rmult_le_pos; [exact Hch |].
          apply Rlt_le, Rinv_0_lt_compat. lra. }
        assert (Ha := asin_nonneg _ (conj (clamp_nonneg v Hv) (proj2 Hcb))).
        nra.
      * assert (Hv : v <= 0).
        { unfold v, Rdiv. replace (/ (2 * r)) with (- / (2 * - r)) by (field; lra).
          assert (0 < / (2 * - r)) by (apply Rinv_0_lt_compat; lra). nra. }
        assert (Ha : asin (Spec.clamp v (-1) 1) <= 0).
        { assert (Hc' := clamp_nonpos v Hv).
          assert (H := asin_nonneg (- Spec.clamp v (-1) 1) ltac:(lra)).
          rewrite asin_opp in H. lra. }
        nra.
    + destruct (control_points s) as [[| cp cps] |] eqn:Hp.
      * unfold calculateSegmentLength. rewrite Hc, Hb, Hp. apply sqrt_pos.
      * rewrite (spline_length s cp cps Hc Hb Hp). apply path_length_nonneg.
      * unfold calculateSegmentLength. rewrite Hc, Hb, Hp. apply sqrt_pos.
  - rewrite straight_length by assumption. apply chord_nonneg.
Qed.

Lemma path_length_triangle (l : list Point2D) :
  forall a b, Spec.distance a b <= path_length (a :: l ++ [b]).
Proof.
  induction l as [| c l IH]; intros a b.
  - simpl. lra.
  - change (Spec.distance a b <=
            Spec.distance a c + path_length (c :: l ++ [b])).
    apply Rle_trans with (Spec.distance a c + Spec.distance c b);
      [apply distance_triangle |].
    specialize (IH c b). lra.
Qed.

(** X3.  A curved segment without a usable bend radius (absent, or zero) and
    with at least one control point is measured as the polyline from the
    start through the control points to the end; it is never shorter than
    the straight line between its end points. *)
Theorem spline_segment_length (s : PipeSegment) (cp : Point2D)
    (cps : list Point2D) :
  is_curved s = true ->
  bend_radius s = None \/ bend_radius s = Some 0 ->
  control_points s = Some (cp :: cps) ->
  calculateSegmentLength s = path_length (start s :: (cp :: cps) ++ [end_ s]) /\
  Spec.chord s <= calculateSegmentLength s.
Proof.
  intros Hc Hb Hp.
  assert (Ht : JSNum.truthy (bend_radius s) = None).
  { destruct Hb as [-> | ->]; [reflexivity | apply truthy_zero]. }
  rewrite (spline_length s cp cps Hc Ht Hp). split; [reflexivity |].
  apply path_length_triangle.
Qed.

(** X4.  An arc of positive bend radius [r] is at most a half circle,
    [PI * r] long; when the chord fits the circle (chord <= 2 r) the arc is
    at least as long as the chord. *)
Theorem arc_segment_bounds (s : PipeSegment) (r : R) :
  is_curved s = true -> bend_radius s = Some r -> 0 < r ->
  calculateSegmentLength s <= PI * r /\
  (Spec.chord s <= 2 * r -> Spec.chord s <= calculateSegmentLength s).
Proof.
  intros Hc Hb Hr.
  rewrite (arc_length s r Hc Hb (Rgt_not_eq _ _ Hr)).
  set (v := Spec.chord s / (2 * r)).
  assert (Hch := chord_nonneg s).
  assert (Hv : 0 <= v).
  { unfold v, Rdiv. apply Rmult_le_pos; [exact Hch |].
    apply Rlt_le, Rinv_0_lt_compat. lra. }
  split.
  - assert (Hb' := asin_bound (Spec.clamp v (-1) 1)). nra.
  - intros Hle.
    assert (Hv1 : v <= 1).
    { unfold v. apply (Rmult_le_reg_r (2 * r)); [lra |].
      unfold Rdiv. rewrite Rmult_assoc, Rinv_l; lra. }
    rewrite clamp_inside by lra.
    assert (Ha := asin_ge_arg v (conj Hv Hv1)).
    replace (Spec.chord s) with (r * (2 * v)) at 1 by (unfold v; field; lra).
    nra.
Qed.

Lemma circuit_length_app (c : HeatingCircuit) (l1 l2 : list PipeSegment) :
  calculateCircuitLength (with_segments c (l1 ++ l2)) =
  calculateCircuitLength (with_segments c l1) +
  calculateCircuitLength (with_segments c l2).
Proof.
  unfold calculateCircuitLength. cbn [with_segments segments].
  rewrite fold_left_app. apply fold_length_shift.
Qed.

Lemma split_distance (a b : Point2D) (t : R) :
  0 <= t <= 1 ->
  Spec.distance a (point_at a b t) + Spec.distance (point_at a b t) b =
  Spec.distance a b.
Proof.
  intros Ht. unfold Spec.distance, point_at. cbn [x y].
  set (dx := x b - x a). set (dy := y b - y a).
  replace ((x a + t * dx - x a) * (x a + t * dx - x a) +
           (y a + t * dy - y a) * (y a + t * dy - y a))
    with (t * t * (dx * dx + dy * dy)) by ring.
  replace ((x b - (x a + t * dx)) * (x b - (x a + t * dx)) +
           (y b - (y a + t * dy)) * (y b - (y a + t * dy)))
    with ((1 - t) * (1 - t) * (dx * dx + dy * dy)) by (unfold dx, dy; ring).
  assert (Hd : 0 <= dx * dx + dy * dy) by nra.
  rewrite !sqrt_mult by nra.
  rewrite (sqrt_sqrt t) by lra.
  rewrite (sqrt_sqrt (1 - t)) by lra. ring.
Qed.

(** X5.  The circuit length adds up over concatenated segment lists, and
    cutting a straight segment in two at a point between its ends does not
    change it. *)
Theorem circuit_length_additive (c : HeatingCircuit)
    (l1 l2 : list PipeSegment) (n1 n2 n : string) (a b : Point2D)
    (d1 d2 d t : R) :
  0 <= t <= 1 ->
  calculateCircuitLength (with_segments c (l1 ++ l2)) =
    calculateCircuitLength (with_segments c l1) +
    calculateCircuitLength (with_segments c l2) /\
  calculateCircuitLength
    (with_segments c
       (l1 ++ [straight n1 a (point_at a b t) d1;
               straight n2 (point_at a b t) b d2] ++ l2)) =
  calculateCircuitLength (with_segments c (l1 ++ [straight n a b d] ++ l2)).
Proof.
  intros Ht. split; [apply circuit_length_app |].
  rewrite !circuit_length_app. f_equal. f_equal.
  unfold calculateCircuitLength. cbn [with_segments segments fold_left].
  rewrite !straight_length by reflexivity.
  unfold Spec.chord. cbn [straight start end_].
  rewrite <- (split_distance a b t Ht). ring.
Qed.

End GeometryMore.

Section GeometryWitnesses.

Import PPipe.
Import GeometryNotions.
Import GeometryExamples.
Import Examples.
Import Analysis.

Lemma spline_segment_length_witness :
  Spec.chord arch <= calculateSegmentLength arch.
Proof.
  apply (spline_segment_length arch (mkPoint2D 2 1.5) []).
  - reflexivity.
  - left. reflexivity.
  - reflexivity.
Defined.

Lemma arc_segment_bounds_witness :
  calculateSegmentLength test_turn <= PI * 0.0625.
Proof.
  apply (arc_segment_bounds test_turn 0.0625).
  - reflexivity.
  - reflexivity.
  - lra.
Defined.

Lemma circuit_length_additive_witness :
  calculateCircuitLength
    (with_segments mixed_circuit
       ([] ++ [straight "a" (mkPoint2D 0 0)
                 (point_at (mkPoint2D 0 0) (mkPoint2D 3 0) (1 / 2)) 0.016;
               straight "b" (point_at (mkPoint2D 0 0) (mkPoint2D 3 0) (1 / 2))
                 (mkPoint2D 3 0) 0.016] ++ [])) =
  calculateCircuitLength
    (with_segments mixed_circuit
       ([] ++ [straight "seg_0" (mkPoint2D 0 0) (mkPoint2D 3 0) 0.016] ++ [])).
Proof.
  apply (circuit_length_additive mixed_circuit [] [] "a" "b" "seg_0"
           (mkPoint2D 0 0) (mkPoint2D 3 0) 0.016 0.016 0.016 (1 / 2)).
  lra.
Defined.

(** X6.  For a circuit whose first segment has a positive diameter, with a
    positive flow rate and a defined friction factor (the Swamee-Jain
    argument differs from 1), the pressure loss is the total length times a
    positive loss per metre fixed by the flow rate and the diameter of the
    first segment: segments appended to the circuit are charged at that
    rate, whatever their own diameter. *)
Theorem pressure_loss_per_metre (c : HeatingCircuit) (first : PipeSegment)
    (rest more : list PipeSegment) :
  segments c = first :: rest ->
  0 < flow_rate c -> 0 < diameter first ->
  sj_arg (reynolds_of (flow_rate c) (diameter first)) (diameter first) <> 1 ->
  0 < darcy (flow_rate c) 1 (diameter first) /\
  calculatePressureLoss c =
    calculateCircuitLength c * darcy (flow_rate c) 1 (diameter first) /\
  calculatePressureLoss (with_segments c (segments c ++ more)) =
    calculatePressureLoss c +
    calculateCircuitLength (with_segments c more) *
      darcy (flow_rate c) 1 (diameter first).
Proof.
  intros Hseg Hq HD Hsj.
  assert (Hd : diameter first <> 0) by lra.
  split.
  - unfold darcy. fold (reynolds_of (flow_rate c) (diameter first)).
    assert (Hf := friction_factor_defined_pos _ _ HD Hsj).
    assert (HPI := PI_RGT_0).
    assert (Hv : 0 < flow_rate c / 3600 / 1000 / (PI * (diameter first / 2) ^ 2)).
    { apply Rdiv_lt_0_compat; [lra |].
      apply Rmult_lt_0_compat; [exact HPI |]. apply pow_lt. lra. }
    apply Rmult_lt_0_compat; [| lra].
    apply Rmult_lt_0_compat.
    + apply Rmult_lt_0_compat; [exact Hf |]. apply Rdiv_lt_0_compat; lra.
    + apply Rdiv_lt_0_compat; [| lra].
      apply Rmult_lt_0_compat; [unfold WATER_DENSITY; lra |].
      apply pow_lt. exact Hv.
  - rewrite (pressure_loss_darcy c first rest Hseg).
    rewrite (pressure_loss_darcy (with_segments c (segments c ++ more)) first
               (rest ++ more)) by (cbn [with_segments segments]; rewrite Hseg;
                                   reflexivity).
    cbn [with_segments flow_rate].
    rewrite circuit_length_app.
    rewrite (darcy_linear _ (calculateCircuitLength c) _ Hd).
    rewrite (darcy_linear _ (_ + _) _ Hd).
    replace (calculateCircuitLength (with_segments c (segments c)))
      with (calculateCircuitLength c) by reflexivity.
    split; ring.
Qed.

Lemma pressure_loss_per_metre_witness :
  calculatePressureLoss mixed_circuit =
  calculateCircuitLength mixed_circuit * darcy 300 1 0.016.
Proof.
  apply (pressure_loss_per_metre mixed_circuit _ _ [] eq_refl).
  - cbn. lra.
  - cbn. lra.
  - cbn [mixed_circuit flow_rate diameter].
    destruct (reynolds_of_bounds 300 0.016) as [Hlo _]; [lra | lra |].
    assert (H := sj_arg_turbulent (reynolds_of 300 0.016) 0.016
                   ltac:(lra) ltac:(lra)).
    lra.
Defined.

End GeometryWitnesses.

(** * Layout generator and circuit solver: further properties *)

Section LayoutShapeFacts.

Import PPipe.
Import HydraulicSolver.
Import Layout.
Import LayoutShape.

Variable params : CircuitDesignParams.

Lemma layout_from_head (n segmentId : nat) (currentY direction : R) :
  exists rest,
    layout_from params (S n) segmentId currentY direction =
    run_segment params segmentId currentY direction :: rest.
Proof. destruct n; eexists; reflexivity. Qed.

Lemma layout_from_connected (n : nat) :
  forall segmentId currentY direction,
  direction = 1 \/ direction = -1 ->
  connected (layout_from params n segmentId currentY direction).
Proof.
  induction n as [| n IH]; intros segmentId currentY direction Hd; [exact I |].
  destruct n as [| n]; [exact I |].
  assert (Hd' : direction * -1 = 1 \/ direction * -1 = -1)
    by (destruct Hd as [-> | ->]; [right | left]; ring).
  specialize (IH (S (S segmentId)) (currentY + pipe_spacing params)
                (direction * -1) Hd').
  destruct (layout_from_head n (S (S segmentId))
              (currentY + pipe_spacing params) (direction * -1)) as [rest Hrest].
  change (layout_from params (S (S n)) segmentId currentY direction)
    with (run_segment params segmentId currentY direction ::
          turn_segment params (S segmentId) currentY direction ::
          layout_from params (S n) (S (S segmentId))
            (currentY + pipe_spacing params) (direction * -1)).
  rewrite Hrest in *. cbn [connected]. split; [reflexivity |]. split; [| exact IH].
  unfold turn_segment, run_segment. cbn [start end_]. f_equal.
  destruct Hd as [-> | ->].
  - destruct (Req_dec_T 1 1) as [_ | H]; [| lra].
    destruct (Req_dec_T (1 * -1) 1) as [H | _]; [lra | reflexivity].
  - destruct (Req_dec_T (-1) 1) as [H | _]; [lra |].
    destruct (Req_dec_T (-1 * -1) 1) as [_ | H]; [reflexivity | lra].
Qed.

Lemma layout_from_on_side_wall (n : nat) :
  0 < pipe_spacing params ->
  forall segmentId currentY direction s,
  rows_remaining params n currentY ->
  pipe_spacing params / 2 <= currentY ->
  In s (layout_from params n segmentId currentY direction) ->
  on_side_wall params (start s) /\ on_side_wall params (end_ s).
Proof.
  intros Hs. induction n as [| n IH];
    intros segmentId currentY direction s Hrows Hy Hin; [destruct Hin |].
  destruct (rows_remaining_S params n currentY Hrows) as [Hlt Hrest].
  assert (Hrun : on_side_wall params
                   (start (run_segment params segmentId currentY direction)) /\
                 on_side_wall params
                   (end_ (run_segment params segmentId currentY direction))).
  { unfold on_side_wall, run_segment. cbn [start end_ x y].
    destruct (Req_dec_T direction 1); repeat split; auto; lra. }
  destruct n as [| n].
  - destruct Hin as [<- | []]. exact Hrun.
  - destruct (rows_remaining_S params n _ Hrest) as [Hlt' _].
    destruct Hin as [<- | [<- | Hin]].
    + exact Hrun.
    + unfold on_side_wall, turn_segment. cbn [start end_ x y].
      destruct (Req_dec_T direction 1); repeat split; auto; lra.
    + apply (IH _ _ _ s Hrest ltac:(lra) Hin).
Qed.

Lemma layout_from_ids (n : nat) :
  forall segmentId currentY direction,
  map id (layout_from params n segmentId currentY direction) =
  map (fun k => ("seg_" ++ JSNum.decimal k)%string)
    (seq segmentId
       (List.length (layout_from params n segmentId currentY direction))).
Proof.
  induction n as [| n IH]; intros segmentId currentY direction; [reflexivity |].
  destruct n as [| n]; [reflexivity |].
  change (layout_from params (S (S n)) segmentId currentY direction)
    with (run_segment params segmentId currentY direction ::
          turn_segment params (S segmentId) currentY direction ::
          layout_from params (S n) (S (S segmentId))
            (currentY + pipe_spacing params) (direction * -1)).
  cbn [map List.length seq]. rewrite IH. reflexivity.
Qed.

Lemma layout_from_count (n : nat) :
  forall segmentId currentY direction,
  List.length (layout_from params n segmentId currentY direction) =
  (2 * n - 1)%nat.
Proof.
  induction n as [| n IH]; intros segmentId currentY direction; [reflexivity |].
  destruct n as [| n]; [reflexivity |].
  change (layout_from params (S (S n)) segmentId currentY direction)
    with (run_segment params segmentId currentY direction ::
          turn_segment params (S segmentId) currentY direction ::
          layout_from params (S n) (S (S segmentId))
            (currentY + pipe_spacing params) (direction * -1)).
  cbn [List.length]. rewrite IH. lia.
Qed.

Lemma layout_from_turn_length (n : nat) :
  0 < pipe_spacing params ->
  forall segmentId currentY direction s,
  In s (layout_from params n segmentId currentY direction) ->
  is_curved s = true ->
  calculateSegmentLength s = PI * (pipe_spacing params / 2).
Proof.
  intros Hsp. induction n as [| n IH]; intros segmentId currentY direction s Hin Hs;
    [destruct Hin |].
  destruct n as [| n].
  - destruct Hin as [<- | []]. discriminate Hs.
  - destruct Hin as [<- | [<- | Hin]].
    + discriminate Hs.
    + apply turn_segment_length. exact Hsp.
    + apply (IH _ _ _ s Hin Hs).
Qed.

End LayoutShapeFacts.

Section SegmentIds.

Lemma to_uint_nonnil (n : nat) : Nat.to_uint n <> Decimal.Nil.
Proof.
  intros H. assert (H2 := DecimalNat.Unsigned.to_of (Nat.to_uint n)).
  rewrite DecimalNat.Unsigned.of_to, H in H2. discriminate.
Qed.

Lemma decimal_inj (n m : nat) : JSNum.decimal n = JSNum.decimal m -> n = m.
Proof.
  unfold JSNum.decimal. intros H. apply DecimalNat.Unsigned.to_uint_inj.
  assert (Hn := NilZero.usu _ (to_uint_nonnil n)).
  assert (Hm := NilZero.usu _ (to_uint_nonnil m)).
  rewrite H in Hn. congruence.
Qed.

Lemma segment_id_inj :
  Injective (fun k => ("seg_" ++ JSNum.decimal k)%string).
Proof.
  intros n m H. cbn in H. injection H as H. apply decimal_inj. exact H.
Qed.

End SegmentIds.

Section SolverFacts.

Import PPipe.
Import HydraulicSolver.
Import Layout.
Import LayoutShape.

(** The fields of a solution, as the solver computes them from the layout. *)
Lemma solve_fields (fuel : nat) (params : CircuitDesignParams)
    (roomId : string) (totalBudget : R) (sol : CircuitSolution) :
  solveHydraulicCircuit fuel params roomId totalBudget = Some sol ->
  generateSerpentineLayout fuel params = Some (segments (circuit sol)) /\
  flow_rate sol =
    calculateRequiredFlowRate (heat_output_required params)
      (supply_temperature params) (return_temperature params) /\
  PPipe.flow_rate (circuit sol) = flow_rate sol /\
  total_length sol = calculateCircuitLength (circuit sol) /\
  pressure_loss sol = calculatePressureLoss (circuit sol) /\
  is_critical sol = isCriticalCircuit (circuit sol) /\
  estimated_heat_output sol =
    estimateHeatOutput (total_length sol) (supply_temperature params)
      STANDARD_ROOM_TEMP (pipe_spacing params) None /\
  budget sol =
    CostAPI.calculateBudget totalBudget
      [ (if JSNum.geb (pipe_diameter params) 0.02
         then "pipe_20mm"%string else "pipe_16mm"%string, total_length sol);
        ("eps_plate_30mm"%string, room_area params);
        ("alu_sheet"%string, room_area params);
        ("manifold"%string, 1);
        ("thermostat"%string, 1) ].
Proof.
  unfold solveHydraulicCircuit.
  destruct (generateSerpentineLayout fuel params) as [l |]; [| discriminate].
  intros H. injection H as <-. cbn [circuit segments flow_rate PPipe.flow_rate
    total_length pressure_loss is_critical estimated_heat_output budget].
  repeat split; reflexivity.
Qed.

Lemma solve_positive_spacing (fuel : nat) (params : CircuitDesignParams)
    (roomId : string) (totalBudget : R) :
  0 < pipe_spacing params -> (row_count params < fuel)%nat ->
  exists sol,
    solveHydraulicCircuit fuel params roomId totalBudget = Some sol /\
    segments (circuit sol) =
      layout_from params (row_count params) 0 (pipe_spacing params / 2) 1.
Proof.
  intros Hs Hfuel.
  assert (Hl := generateSerpentineLayout_rows params fuel Hs Hfuel).
  unfold solveHydraulicCircuit. cbv zeta in Hl. fold (row_count params) in Hl.
  rewrite Hl. eexists. split; reflexivity.
Qed.

Lemma row_count_bounds (params : CircuitDesignParams) :
  0 < pipe_spacing params -> pipe_spacing params / 2 < room_length params ->
  (1 <= row_count params)%nat /\
  room_length params - pipe_spacing params / 2 <=
    INR (row_count params) * pipe_spacing params /\
  INR (row_count params - 1) * pipe_spacing params <
    room_length params - pipe_spacing params / 2.
Proof.
  intros Hs Hl. unfold row_count.
  set (q := (room_length params - pipe_spacing params / 2) / pipe_spacing params).
  assert (Hq : room_length params - pipe_spacing params / 2 =
               q * pipe_spacing params) by (unfold q; field; lra).
  assert (Hqpos : 0 < q) by (unfold q; apply Rdiv_lt_0_compat; lra).
  destruct (Zceil_bound q) as [Hlo Hhi].
  assert (Hz : (1 <= Zceil q)%Z).
  { apply Z.lt_pred_le. apply lt_IZR. simpl. lra. }
  assert (HI : INR (Z.to_nat (Zceil q)) = IZR (Zceil q)).
  { rewrite INR_IZR_INZ, Z2Nat.id; [reflexivity | lia]. }
  assert (HI' : INR (Z.to_nat (Zceil q) - 1) = IZR (Zceil q) - 1).
  { rewrite minus_INR by lia. rewrite HI. simpl. ring. }
  split; [lia |]. rewrite HI, HI', Hq. split; nra.
Qed.

End SolverFacts.

Section SolverProperties.

Import PPipe.
Import HydraulicSolver.
Import Layout.
Import LayoutShape.
Import SolverExamples.

Lemma row_count_living : row_count livingParams = 25%nat.
Proof.
  unfold row_count.
  replace (Zceil ((room_length livingParams - pipe_spacing livingParams / 2)
                  / pipe_spacing livingParams)) with 25%Z; [reflexivity |].
  symmetry. apply Zceil_eq. simpl. lra.
Qed.

(** X7.  For a positive spacing the layout alternates straight runs and
    turns: with [n] straight runs it has [n - 1] turns, every run is
    [|room_width|] long and every turn [PI * spacing/2], and the total
    length is [n * |room_width| + (n - 1) * PI * spacing/2]; a room longer
    than half the spacing gets at least one run. *)
Theorem solve_layout_length (fuel : nat) (params : CircuitDesignParams)
    (roomId : string) (totalBudget : R) :
  0 < pipe_spacing params -> (row_count params < fuel)%nat ->
  exists sol,
    solveHydraulicCircuit fuel params roomId totalBudget = Some sol /\
    let runs := List.length (straight_runs (segments (circuit sol))) in
    List.length (turns (segments (circuit sol))) = (runs - 1)%nat /\
    (pipe_spacing params / 2 < room_length params -> (1 <= runs)%nat) /\
    (forall s, In s (segments (circuit sol)) ->
       calculateSegmentLength s =
       if is_curved s then PI * (pipe_spacing params / 2)
       else Rabs (room_width params)) /\
    total_length sol =
      INR runs * Rabs (room_width params) +
      INR (runs - 1) * (PI * (pipe_spacing params / 2)).
Proof.
  intros Hs Hfuel.
  destruct (solve_positive_spacing fuel params roomId totalBudget Hs Hfuel)
    as (sol & Hsol & Hseg).
  exists sol. split; [exact Hsol |].
  destruct (solve_fields _ _ _ _ _ Hsol) as (_ & _ & _ & HL & _).
  cbv zeta. rewrite HL. unfold calculateCircuitLength. rewrite Hseg.
  rewrite layout_from_straight_runs, layout_from_turns.
  split; [reflexivity |]. split.
  - intros Hlong. apply (row_count_bounds params Hs Hlong).
  - split.
    + intros s Hin. destruct (is_curved s) eqn:Hc.
      * apply (layout_from_turn_length params _ Hs _ _ _ s Hin Hc).
      * apply (layout_from_straight_length params _ _ _ _ s Hin Hc).
    + apply layout_from_length. exact Hs.
Qed.

Lemma solve_layout_length_witness :
  exists sol,
    solveHydraulicCircuit 26 livingParams "living" 15000 = Some sol /\
    total_length sol =
      INR (List.length (straight_runs (segments (circuit sol)))) * Rabs 4 +
      INR (List.length (straight_runs (segments (circuit sol))) - 1) *
        (PI * (0.2 / 2)).
Proof.
  destruct (solve_layout_length 26 livingParams "living" 15000)
    as (sol & Hsol & _ & _ & _ & HL).
  - simpl. lra.
  - rewrite row_count_living. lia.
  - exists sol. split; [exact Hsol | exact HL].
Defined.

(** X8.  For a positive spacing, a non-negative width and a room longer
    than half the spacing, [total_length * spacing] lies between
    [width * (length - spacing/2)] and
    [width * (length + spacing/2) + PI * spacing/2 * (length - spacing/2)]:
    the pipe length is the floor area over the spacing, up to the edge rows
    and the turns. *)
Theorem pipe_length_area_bounds (fuel : nat) (params : CircuitDesignParams)
    (roomId : string) (totalBudget : R) :
  0 < pipe_spacing params -> 0 <= room_width params ->
  pipe_spacing params / 2 < room_length params ->
  (row_count params < fuel)%nat ->
  exists sol,
    solveHydraulicCircuit fuel params roomId totalBudget = Some sol /\
    room_width params * (room_length params - pipe_spacing params / 2)
      <= total_length sol * pipe_spacing params /\
    total_length sol * pipe_spacing params
      < room_width params * (room_length params + pipe_spacing params / 2) +
        PI * (pipe_spacing params / 2) *
        (room_length params - pipe_spacing params / 2).
Proof.
  intros Hs Hw Hl Hfuel.
  destruct (solve_positive_spacing fuel params roomId totalBudget Hs Hfuel)
    as (sol & Hsol & Hseg).
  exists sol. split; [exact Hsol |].
  destruct (solve_fields _ _ _ _ _ Hsol) as (_ & _ & _ & HL & _).
  rewrite HL. unfold calculateCircuitLength. rewrite Hseg.
  rewrite (layout_from_length params _ Hs).
  rewrite (Rabs_pos_eq _ Hw).
  destruct (row_count_bounds params Hs Hl) as (Hn & Hlo & Hhi).
  set (n := INR (row_count params)) in *.
  set (m := INR (row_count params - 1)) in *.
  assert (Hm : 0 <= m) by apply pos_INR.
  assert (Hnm : n = m + 1).
  { unfold n, m. rewrite minus_INR by lia. simpl. ring. }
  assert (HPI := PI_RGT_0).
  set (s := pipe_spacing params) in *. set (w := room_width params) in *.
  set (L := room_length params) in *.
  rewrite Hnm in *.
  split.
  - assert (0 <= m * (PI * (s / 2)) * s).
    { apply Rmult_le_pos; [| lra]. apply Rmult_le_pos; [exact Hm |].
      apply Rlt_le, Rmult_lt_0_compat; lra. }
    assert (w * (L - s / 2) <= w * ((m + 1) * s))
      by (apply Rmult_le_compat_l; lra).
    lra.
  - assert (H1 : w * ((m + 1) * s) <= w * (L + s / 2))
      by (apply Rmult_le_compat_l; lra).
    assert (H2 : PI * (s / 2) * (m * s) < PI * (s / 2) * (L - s / 2)).
    { apply Rmult_lt_compat_l; [apply Rmult_lt_0_compat; lra | exact Hhi]. }
    lra.
Qed.

Lemma pipe_length_area_bounds_witness :
  exists sol,
    solveHydraulicCircuit 26 livingParams "living" 15000 = Some sol /\
    4 * (5 - 0.2 / 2) <= total_length sol * 0.2 /\
    total_length sol * 0.2 < 4 * (5 + 0.2 / 2) + PI * (0.2 / 2) * (5 - 0.2 / 2).
Proof.
  apply (pipe_length_area_bounds 26 livingParams "living" 15000).
  - simpl. lra.
  - simpl. lra.
  - simpl. lra.
  - rewrite row_count_living. lia.
Defined.

(** X9.  The layout is one connected line: each segment ends where the next
    one starts, the first one starts in the corner [(0, spacing/2)], and
    every segment starts and ends on a side wall ([x = 0] or
    [x = room_width]) at a height from [spacing/2] to below the room
    length. *)
Theorem layout_connected (fuel : nat) (params : CircuitDesignParams)
    (roomId : string) (totalBudget : R) :
  0 < pipe_spacing params -> (row_count params < fuel)%nat ->
  exists sol,
    solveHydraulicCircuit fuel params roomId totalBudget = Some sol /\
    connected (segments (circuit sol)) /\
    (forall first rest, segments (circuit sol) = first :: rest ->
       start first = mkPoint2D 0 (pipe_spacing params / 2)) /\
    (forall s, In s (segments (circuit sol)) ->
       on_side_wall params (start s) /\ on_side_wall params (end_ s)).
Proof.
  intros Hs Hfuel.
  destruct (solve_positive_spacing fuel params roomId totalBudget Hs Hfuel)
    as (sol & Hsol & Hseg).
  exists sol. split; [exact Hsol |]. rewrite Hseg. split; [| split].
  - apply layout_from_connected. left. reflexivity.
  - intros first rest Hl. destruct (row_count params) as [| n]; [discriminate |].
    destruct (layout_from_head params n 0 (pipe_spacing params / 2) 1)
      as [rest' Hrest].
    rewrite Hrest in Hl. injection Hl as <- _.
    unfold run_segment. cbn [start].
    destruct (Req_dec_T 1 1) as [_ | H]; [reflexivity | lra].
  - intros s Hin.
    apply (layout_from_on_side_wall params _ Hs _ _ _ s
             (rows_remaining_ceil params _ Hs) (Rle_refl _) Hin).
Qed.

Lemma layout_connected_witness :
  exists sol,
    solveHydraulicCircuit 26 livingParams "living" 15000 = Some sol /\
    connected (segments (circuit sol)) /\
    forall s, In s (segments (circuit sol)) ->
      on_side_wall livingParams (start s) /\ on_side_wall livingParams (end_ s).
Proof.
  destruct (layout_connected 26 livingParams "living" 15000)
    as (sol & Hsol & Hc & _ & Hw).
  - simpl. lra.
  - rewrite row_count_living. lia.
  - exists sol. split; [exact Hsol |]. split; [exact Hc | exact Hw].
Defined.

(** X10.  For a positive spacing the segments of the layout are named
    [seg_0], [seg_1], ... in their order, so that the ids are pairwise
    distinct; with [n] straight runs there are [2 n - 1] segments. *)
Theorem layout_segment_ids (fuel : nat) (params : CircuitDesignParams)
    (roomId : string) (totalBudget : R) :
  0 < pipe_spacing params -> (row_count params < fuel)%nat ->
  exists sol,
    solveHydraulicCircuit fuel params roomId totalBudget = Some sol /\
    List.length (segments (circuit sol)) =
      (2 * List.length (straight_runs (segments (circuit sol))) - 1)%nat /\
    map id (segments (circuit sol)) =
      map (fun k => ("seg_" ++ JSNum.decimal k)%string)
        (seq 0 (List.length (segments (circuit sol)))) /\
    NoDup (map id (segments (circuit sol))).
Proof.
  intros Hs Hfuel.
  destruct (solve_positive_spacing fuel params roomId totalBudget Hs Hfuel)
    as (sol & Hsol & Hseg).
  exists sol. split; [exact Hsol |]. rewrite Hseg.
  assert (Hids := layout_from_ids params (row_count params) 0
                    (pipe_spacing params / 2) 1).
  split; [rewrite layout_from_straight_runs; apply layout_from_count |].
  split; [exact Hids |].
  rewrite Hids. apply Injective_map_NoDup; [exact segment_id_inj |].
  apply seq_NoDup.
Qed.

Lemma layout_segment_ids_witness :
  exists sol,
    solveHydraulicCircuit 26 livingParams "living" 15000 = Some sol /\
    NoDup (map id (segments (circuit sol))).
Proof.
  destruct (layout_segment_ids 26 livingParams "living" 15000)
    as (sol & Hsol & _ & _ & Hnd).
  - simpl. lra.
  - rewrite row_count_living. lia.
  - exists sol. split; [exact Hsol | exact Hnd].
Defined.

End SolverProperties.

(** * Cost API *)

Section BudgetFacts.

Import CostAPI.
Import Ledger.

Lemma geb_true_iff (a b : R) : JSNum.geb a b = true <-> b <= a.
Proof.
  unfold JSNum.geb. destruct (Rge_dec a b) as [H | H]; split; intros H'.
  - lra.
  - reflexivity.
  - discriminate.
  - exfalso. apply H. lra.
Qed.

Lemma getMaterialPrice_known (materialId : string) :
  known materialId = true <-> exists m, getMaterialPrice materialId = Some m.
Proof.
  unfold known, getMaterialPrice.
  induction MATERIAL_COSTS_2025 as [| m l IH]; simpl.
  - split; [discriminate | intros [m H]; discriminate].
  - destruct (String.eqb (id m) materialId); simpl.
    + split; [intros _; exists m; reflexivity | reflexivity].
    + exact IH.
Qed.

Lemma budget_step_eq (acc : list BudgetItem) (spent : R) (it : string * R) :
  budget_step (acc, spent) it =
  match getMaterialPrice (fst it) with
  | Some m =>
      (acc ++ [mkBudgetItem (fst it) (snd it) (price_per_unit m)
                 (price_per_unit m * snd it)],
       spent + price_per_unit m * snd it)
  | None => (acc, spent)
  end.
Proof. reflexivity. Qed.

Lemma budget_fold (items : list (string * R)) :
  forall acc spent,
  fold_left budget_step items (acc, spent) =
  (acc ++ fst (fold_left budget_step items ([], 0)),
   spent + snd (fold_left budget_step items ([], 0))).
Proof.
  induction items as [| it items IH]; intros acc spent.
  - simpl. rewrite app_nil_r. f_equal. ring.
  - cbn [fold_left]. rewrite !budget_step_eq.
    destruct (getMaterialPrice (fst it)) as [m |].
    + rewrite IH. symmetry. rewrite IH. cbn [fst snd].
      f_equal; [rewrite <- !app_assoc; reflexivity | ring].
    + apply IH.
Qed.

Lemma budget_cons (it : string * R) (items : list (string * R)) :
  fold_left budget_step (it :: items) ([], 0) =
  match getMaterialPrice (fst it) with
  | Some m =>
      (mkBudgetItem (fst it) (snd it) (price_per_unit m)
         (price_per_unit m * snd it)
       :: fst (fold_left budget_step items ([], 0)),
       price_per_unit m * snd it + snd (fold_left budget_step items ([], 0)))
  | None => fold_left budget_step items ([], 0)
  end.
Proof.
  cbn [fold_left]. rewrite budget_step_eq.
  destruct (getMaterialPrice (fst it)) as [m |]; [| reflexivity].
  rewrite budget_fold. cbn [app]. f_equal. ring.
Qed.

Lemma calculateBudget_fields (totalBudget : R) (items : list (string * R)) :
  calculateBudget totalBudget items =
  mkBudget totalBudget (fst (fold_left budget_step items ([], 0)))
    (snd (fold_left budget_step items ([], 0)))
    (totalBudget - snd (fold_left budget_step items ([], 0))).
Proof.
  unfold calculateBudget.
  destruct (fold_left budget_step items ([], 0)) as [l s]. reflexivity.
Qed.

Lemma budget_items_total (items : list (string * R)) :
  snd (fold_left budget_step items ([], 0)) =
  items_total (fst (fold_left budget_step items ([], 0))).
Proof.
  induction items as [| it items IH]; [reflexivity |].
  rewrite budget_cons. destruct (getMaterialPrice (fst it)) as [m |].
  - cbn [fst snd items_total fold_right total_price]. fold (items_total
      (fst (fold_left budget_step items ([], 0)))). rewrite IH. reflexivity.
  - exact IH.
Qed.

Lemma budget_items_priced (items : list (string * R)) :
  Forall priced (fst (fold_left budget_step items ([], 0))).
Proof.
  induction items as [| it items IH]; [constructor |].
  rewrite budget_cons. destruct (getMaterialPrice (fst it)) as [m |] eqn:Hm.
  - cbn [fst]. constructor; [| exact IH].
    exists m. cbn [material_id unit_price total_price quantity].
    split; [exact Hm |]. split; reflexivity.
  - exact IH.
Qed.

Lemma budget_items_ids (items : list (string * R)) :
  map (fun it => (material_id it, quantity it))
    (fst (fold_left budget_step items ([], 0))) =
  filter (fun it => known (fst it)) items.
Proof.
  induction items as [| it items IH]; [reflexivity |].
  rewrite budget_cons. cbn [filter].
  destruct (getMaterialPrice (fst it)) as [m |] eqn:Hm.
  - assert (Hk : known (fst it) = true)
      by (apply getMaterialPrice_known; exists m; exact Hm).
    rewrite Hk. cbn [fst map material_id quantity]. rewrite IH.
    destruct it; reflexivity.
  - assert (Hk : known (fst it) = false).
    { destruct (known (fst it)) eqn:Hk; [| reflexivity].
      apply getMaterialPrice_known in Hk. destruct Hk as [m Hk]. congruence. }
    rewrite Hk. exact IH.
Qed.

Lemma budget_filter (items : list (string * R)) :
  fold_left budget_step (filter (fun it => known (fst it)) items) ([], 0) =
  fold_left budget_step items ([], 0).
Proof.
  induction items as [| it items IH]; [reflexivity |].
  cbn [filter]. destruct (known (fst it)) eqn:Hk.
  - rewrite !budget_cons, IH. reflexivity.
  - rewrite budget_cons.
    destruct (getMaterialPrice (fst it)) as [m |] eqn:Hm; [| exact IH].
    assert (known (fst it) = true)
      by (apply getMaterialPrice_known; exists m; exact Hm).
    congruence.
Qed.

(** X11.  The budget returned by [calculateBudget]: the budget is passed
    through, the remaining budget is the budget less the spending, the
    spending is the sum of the item totals, each item is priced from the
    table (total = unit price * quantity), and the items are the requested
    ones with a known material id, in their order. *)
Theorem budget_accounts (totalBudget : R) (items : list (string * R)) :
  let b := calculateBudget totalBudget items in
  total_budget b = totalBudget /\
  remaining_budget b = totalBudget - total_spent b /\
  total_spent b = items_total (CostAPI.items b) /\
  Forall priced (CostAPI.items b) /\
  map (fun it => (material_id it, quantity it)) (CostAPI.items b) =
    filter (fun it => known (fst it)) items.
Proof.
  cbv zeta. rewrite calculateBudget_fields.
  cbn [total_budget remaining_budget total_spent CostAPI.items].
  split; [reflexivity |]. split; [reflexivity |].
  split; [apply budget_items_total |].
  split; [apply budget_items_priced | apply budget_items_ids].
Qed.

(** X12.  Items with an unknown material id are dropped silently: the budget
    is the one of the known items alone (nothing spent and no item when
    none is known); and the spending of two lists together is the sum of
    their spendings. *)
Theorem budget_unknown_dropped (totalBudget : R)
    (items more : list (string * R)) :
  calculateBudget totalBudget (filter (fun it => known (fst it)) items) =
    calculateBudget totalBudget items /\
  (forallb (fun it => negb (known (fst it))) items = true ->
   total_spent (calculateBudget totalBudget items) = 0 /\
   CostAPI.items (calculateBudget totalBudget items) = []) /\
  total_spent (calculateBudget totalBudget (items ++ more)) =
    total_spent (calculateBudget totalBudget items) +
    total_spent (calculateBudget totalBudget more).
Proof.
  split; [| split].
  - rewrite !calculateBudget_fields, budget_filter. reflexivity.
  - intros Hall. rewrite calculateBudget_fields.
    cbn [total_spent CostAPI.items].
    rewrite <- budget_filter.
    replace (filter (fun it => known (fst it)) items) with (@nil (string * R)).
    + split; reflexivity.
    + symmetry. induction items as [| it items IH]; [reflexivity |].
      cbn [forallb] in Hall. apply andb_true_iff in Hall. destruct Hall as [H1 H2].
      cbn [filter]. apply negb_true_iff in H1. rewrite H1. apply IH. exact H2.
  - rewrite !calculateBudget_fields. cbn [total_spent].
    rewrite fold_left_app.
    destruct (fold_left budget_step items ([], 0)) as [l s] eqn:E.
    rewrite budget_fold. cbn [snd]. reflexivity.
Qed.

Lemma known_price_pos (materialId : string) (m : MaterialPrice) :
  getMaterialPrice materialId = Some m -> 0 < price_per_unit m.
Proof.
  intros H. apply find_some in H. destruct H as [Hin _].
  unfold MATERIAL_COSTS_2025 in Hin. cbn [In] in Hin.
  repeat (destruct Hin as [<- | Hin]; [cbn [price_per_unit]; lra |]).
  destruct Hin.
Qed.

Lemma spent_nonneg (items : list (string * R)) :
  Forall (fun it => 0 <= snd it) items ->
  0 <= snd (fold_left budget_step items ([], 0)).
Proof.
  induction 1 as [| it items Hit _ IH]; [simpl; lra |].
  rewrite budget_cons. destruct (getMaterialPrice (fst it)) as [m |] eqn:Hm;
    [| exact IH].
  cbn [snd]. assert (Hp := known_price_pos _ _ Hm).
  assert (0 <= price_per_unit m * snd it) by (apply Rmult_le_pos; lra). lra.
Qed.

(** X13.  [isWithinBudget] of a computed budget holds exactly when the
    spending does not exceed the budget: spending the budget to the cent is
    within budget.  Further items in non-negative quantities never lower
    the spending, so that they never bring a budget back within its
    limit. *)
Theorem within_budget_iff (totalBudget : R) (items more : list (string * R)) :
  (isWithinBudget (calculateBudget totalBudget items) = true <->
   total_spent (calculateBudget totalBudget items) <= totalBudget) /\
  (Forall (fun it => 0 <= snd it) more ->
   total_spent (calculateBudget totalBudget items) <=
     total_spent (calculateBudget totalBudget (items ++ more)) /\
   (isWithinBudget (calculateBudget totalBudget (items ++ more)) = true ->
    isWithinBudget (calculateBudget totalBudget items) = true)).
Proof.
  assert (Hiff : forall l,
            isWithinBudget (calculateBudget totalBudget l) = true <->
            total_spent (calculateBudget totalBudget l) <= totalBudget).
  { intros l. unfold isWithinBudget.
    rewrite geb_true_iff, calculateBudget_fields.
    cbn [remaining_budget total_spent]. lra. }
  split; [apply Hiff |]. intros Hmore.
  assert (Hle : total_spent (calculateBudget totalBudget items) <=
                total_spent (calculateBudget totalBudget (items ++ more))).
  { rewrite !calculateBudget_fields. cbn [total_spent].
    rewrite fold_left_app.
    destruct (fold_left budget_step items ([], 0)) as [l s] eqn:E.
    rewrite budget_fold. cbn [snd].
    assert (H := spent_nonneg more Hmore). lra. }
  split; [exact Hle |]. intros Hin. apply Hiff. apply Hiff in Hin. lra.
Qed.

End BudgetFacts.

Section SolverAccounts.

Import PPipe.
Import HydraulicSolver.
Import Layout.
Import LayoutShape.
Import SolverExamples.

Lemma solve_short_room_layout (fuel : nat) (params : CircuitDesignParams) :
  room_length params <= pipe_spacing params / 2 ->
  generateSerpentineLayout (S fuel) params = Some [].
Proof.
  intros H. unfold generateSerpentineLayout. cbn [serpentine_loop].
  rewrite ltb_false by exact H. reflexivity.
Qed.

Lemma solver_items_spent (pipeType : string) (price totalLength area : R) :
  CostAPI.getMaterialPrice pipeType =
    Some (CostAPI.mkMaterialPrice pipeType price) ->
  CostAPI.total_spent
    (CostAPI.calculateBudget 0
       [ (pipeType, totalLength);
         ("eps_plate_30mm"%string, area);
         ("alu_sheet"%string, area);
         ("manifold"%string, 1);
         ("thermostat"%string, 1) ]) =
  price * totalLength + 26.5 * area + 435.
Proof.
  intros Hp. rewrite calculateBudget_fields. cbn [CostAPI.total_spent].
  rewrite budget_cons. cbn [fst snd]. rewrite Hp.
  cbn [snd CostAPI.price_per_unit].
  repeat (rewrite budget_cons; cbn [fst snd CostAPI.getMaterialPrice find
            CostAPI.MATERIAL_COSTS_2025 CostAPI.id String.eqb Ascii.eqb
            Bool.eqb CostAPI.price_per_unit]).
  cbn [fold_left snd]. lra.
Qed.

Lemma total_spent_budget_free (b1 b2 : R) (items : list (string * R)) :
  CostAPI.total_spent (CostAPI.calculateBudget b1 items) =
  CostAPI.total_spent (CostAPI.calculateBudget b2 items).
Proof. rewrite !calculateBudget_fields. reflexivity. Qed.

Lemma solve_spent (fuel : nat) (params : CircuitDesignParams)
    (roomId : string) (totalBudget : R) (sol : CircuitSolution) :
  solveHydraulicCircuit fuel params roomId totalBudget = Some sol ->
  CostAPI.total_spent (budget sol) =
    (if JSNum.geb (pipe_diameter params) 0.02 then 5.8 else 4.5) *
      total_length sol + 26.5 * room_area params + 435.
Proof.
  intros Hsol.
  destruct (solve_fields _ _ _ _ _ Hsol) as (_ & _ & _ & _ & _ & _ & _ & Hb).
  rewrite Hb, (total_spent_budget_free totalBudget 0).
  destruct (JSNum.geb (pipe_diameter params) 0.02);
    apply solver_items_spent; reflexivity.
Qed.

(** X14.  The bill of a solution: the pipe length at 5.80 a metre from a
    diameter of 20 mm on and at 4.50 below, 26.50 a square metre of room
    area for the plates and the sheets, and 435 for the manifold and the
    thermostat; the remaining budget is the budget less this sum, and the
    bill has five items. *)
Theorem solve_budget (fuel : nat) (params : CircuitDesignParams)
    (roomId : string) (totalBudget : R) (sol : CircuitSolution) :
  solveHydraulicCircuit fuel params roomId totalBudget = Some sol ->
  CostAPI.total_spent (budget sol) =
    (if JSNum.geb (pipe_diameter params) 0.02 then 5.8 else 4.5) *
      total_length sol + 26.5 * room_area params + 435 /\
  CostAPI.remaining_budget (budget sol) =
    totalBudget - CostAPI.total_spent (budget sol) /\
  List.length (CostAPI.items (budget sol)) = 5%nat.
Proof.
  intros Hsol.
  destruct (solve_fields _ _ _ _ _ Hsol) as (_ & _ & _ & _ & _ & _ & _ & Hb).
  split; [apply (solve_spent _ _ _ _ _ Hsol) |]. rewrite Hb. split.
  - rewrite calculateBudget_fields. reflexivity.
  - rewrite calculateBudget_fields. cbn [CostAPI.items].
    destruct (JSNum.geb (pipe_diameter params) 0.02);
      repeat (rewrite budget_cons; cbn [fst snd CostAPI.getMaterialPrice find
                CostAPI.MATERIAL_COSTS_2025 CostAPI.id String.eqb Ascii.eqb
                Bool.eqb CostAPI.price_per_unit]);
      reflexivity.
Qed.

Lemma solve_budget_witness :
  exists sol,
    solveHydraulicCircuit 26 livingParams "living" 15000 = Some sol /\
    CostAPI.total_spent (budget sol) =
      5.8 * total_length sol + 26.5 * 20 + 435.
Proof.
  destruct (solve_positive_spacing 26 livingParams "living" 15000)
    as (sol & Hsol & _).
  - simpl. lra.
  - rewrite row_count_living. lia.
  - exists sol. split; [exact Hsol |].
    destruct (solve_budget 26 livingParams "living" 15000 sol Hsol) as [H _].
    rewrite H. cbn [livingParams pipe_diameter room_area].
    unfold JSNum.geb. destruct (Rge_dec 0.02 0.02) as [_ | Hn]; [reflexivity |].
    exfalso. apply Hn. lra.
Defined.

(** X15.  The heat estimate of a solution is its pipe length times
    [2 * supply_temperature - 37]; it does not depend on the return
    temperature and on the heat demand of the parameters. *)
Theorem solve_heat_estimate (fuel : nat) (params : CircuitDesignParams)
    (roomId : string) (totalBudget : R) (sol : CircuitSolution) :
  solveHydraulicCircuit fuel params roomId totalBudget = Some sol ->
  estimated_heat_output sol =
    total_length sol * (2 * supply_temperature params - 37) /\
  (forall ret heat sol',
     solveHydraulicCircuit fuel
       (mkCircuitDesignParams (room_area params) (pipe_spacing params)
          (room_width params) (room_length params) (pipe_diameter params)
          (supply_temperature params) ret heat) roomId totalBudget = Some sol' ->
     estimated_heat_output sol' = estimated_heat_output sol).
Proof.
  intros Hsol.
  assert (Hest : forall p s,
            solveHydraulicCircuit fuel p roomId totalBudget = Some s ->
            estimated_heat_output s =
            total_length s * (2 * supply_temperature p - 37)).
  { intros p s Hs.
    destruct (solve_fields _ _ _ _ _ Hs) as (_ & _ & _ & _ & _ & _ & He & _).
    rewrite He. unfold estimateHeatOutput, TYPICAL_TEMP_DROP,
      BASE_HEAT_OUTPUT_PER_METER, HEAT_OUTPUT_TEMP_COEFFICIENT, STANDARD_ROOM_TEMP.
    field. }
  split; [apply Hest; exact Hsol |].
  intros ret heat sol' Hsol'.
  rewrite (Hest _ _ Hsol), (Hest _ _ Hsol'). cbn [supply_temperature].
  f_equal.
  destruct (solve_fields _ _ _ _ _ Hsol) as (Hl & _ & _ & HL & _).
  destruct (solve_fields _ _ _ _ _ Hsol') as (Hl' & _ & _ & HL' & _).
  rewrite HL, HL'. unfold calculateCircuitLength. f_equal.
  unfold generateSerpentineLayout in Hl, Hl'. cbn [pipe_spacing] in Hl'.
  assert (Hloop : forall f segs k yy d,
            serpentine_loop f
              (mkCircuitDesignParams (room_area params) (pipe_spacing params)
                 (room_width params) (room_length params) (pipe_diameter params)
                 (supply_temperature params) ret heat) segs k yy d =
            serpentine_loop f params segs k yy d).
  { induction f as [| f IH]; intros segs k yy d; [reflexivity |].
    cbn [serpentine_loop pipe_spacing room_width room_length pipe_diameter].
    destruct (JSNum.ltb yy (room_length params)); [| reflexivity].
    destruct (JSNum.ltb (yy + pipe_spacing params) (room_length params));
      apply IH. }
  rewrite Hloop in Hl'. congruence.
Qed.

Lemma solve_heat_estimate_witness :
  exists sol,
    solveHydraulicCircuit 26 livingParams "living" 15000 = Some sol /\
    estimated_heat_output sol = total_length sol * (2 * 40 - 37).
Proof.
  destruct (solve_positive_spacing 26 livingParams "living" 15000)
    as (sol & Hsol & _).
  - simpl. lra.
  - rewrite row_count_living. lia.
  - exists sol. split; [exact Hsol |].
    apply (solve_heat_estimate 26 livingParams "living" 15000 sol Hsol).
Defined.

(** X16.  For different supply and return temperatures the flow rate
    carries the required heat: density * flow * specific heat * (supply -
    return) gives the heat output back; swapping supply and return flips
    the sign, and for a positive heat output the flow rate is positive
    exactly when the supply is warmer than the return. *)
Theorem required_flow_energy_balance (heatOutput supplyTemp returnTemp : R) :
  supplyTemp <> returnTemp ->
  let flow := calculateRequiredFlowRate heatOutput supplyTemp returnTemp in
  WATER_DENSITY * (flow / 1000 / 3600) * WATER_SPECIFIC_HEAT *
    (supplyTemp - returnTemp) = heatOutput /\
  calculateRequiredFlowRate heatOutput returnTemp supplyTemp = - flow /\
  (0 < heatOutput -> (0 < flow <-> returnTemp < supplyTemp)).
Proof.
  intros HT. cbv zeta. unfold calculateRequiredFlowRate, WATER_SPECIFIC_HEAT,
    WATER_DENSITY.
  assert (Hd : supplyTemp - returnTemp <> 0) by lra.
  split; [field; lra |]. split; [field; lra |].
  intros Hq.
  replace (heatOutput / (4186 * (supplyTemp - returnTemp)) / 998.2 * 1000 * 3600)
    with (heatOutput * (3600000 / (4186 * 998.2)) / (supplyTemp - returnTemp))
    by (field; lra).
  assert (Hk : 0 < heatOutput * (3600000 / (4186 * 998.2))).
  { apply Rmult_lt_0_compat; [exact Hq |]. apply Rdiv_lt_0_compat; lra. }
  set (k := heatOutput * (3600000 / (4186 * 998.2))) in *.
  split; intros H.
  - destruct (Rlt_le_dec returnTemp supplyTemp) as [Hlt | Hge]; [exact Hlt |].
    exfalso. assert (Hneg : supplyTemp - returnTemp < 0) by lra.
    assert (Hinv : / (supplyTemp - returnTemp) < 0)
      by (apply Rinv_lt_0_compat; exact Hneg).
    unfold Rdiv in H. nra.
  - apply Rdiv_lt_0_compat; lra.
Qed.

Lemma required_flow_energy_balance_witness :
  WATER_DENSITY * (calculateRequiredFlowRate 1300 35 30 / 1000 / 3600) *
    WATER_SPECIFIC_HEAT * (35 - 30) = 1300.
Proof.
  apply (required_flow_energy_balance 1300 35 30). lra.
Defined.

(** X17.  A room not longer than half the pipe spacing gets no pipe, with
    any spacing: the solver returns at the first test of the loop, with an
    empty circuit, a length, a pressure loss and a heat estimate of zero,
    not critical, and still bills the plates, the manifold and the
    thermostat. *)
Theorem solve_short_room (fuel : nat) (params : CircuitDesignParams)
    (roomId : string) (totalBudget : R) :
  room_length params <= pipe_spacing params / 2 ->
  exists sol,
    solveHydraulicCircuit (S fuel) params roomId totalBudget = Some sol /\
    segments (circuit sol) = [] /\
    total_length sol = 0 /\ pressure_loss sol = 0 /\ is_critical sol = false /\
    estimated_heat_output sol = 0 /\
    CostAPI.total_spent (budget sol) = 26.5 * room_area params + 435.
Proof.
  intros Hshort.
  assert (Hl := solve_short_room_layout fuel params Hshort).
  destruct (solveHydraulicCircuit (S fuel) params roomId totalBudget)
    as [sol |] eqn:Hsol.
  2:{ unfold solveHydraulicCircuit in Hsol. rewrite Hl in Hsol. discriminate. }
  exists sol. split; [reflexivity |].
  destruct (solve_fields _ _ _ _ _ Hsol)
    as (Hseg & _ & _ & HL & HP & HC & HE & HB).
  rewrite Hl in Hseg. injection Hseg as Hseg. symmetry in Hseg.
  assert (HL0 : total_length sol = 0).
  { rewrite HL. unfold calculateCircuitLength. rewrite Hseg. reflexivity. }
  assert (HP0 : calculatePressureLoss (circuit sol) = 0).
  { unfold calculatePressureLoss. rewrite Hseg. reflexivity. }
  split; [exact Hseg |]. split; [exact HL0 |]. split; [rewrite HP; exact HP0 |].
  split.
  - rewrite HC. unfold isCriticalCircuit. rewrite HP0.
    unfold JSNum.gtb, CRITICAL_PRESSURE_LOSS.
    destruct (Rgt_dec 0 300) as [H | _]; [lra | reflexivity].
  - split.
    + rewrite HE, HL0. unfold estimateHeatOutput. ring.
    + rewrite (solve_spent _ _ _ _ _ Hsol), HL0. ring.
Qed.

Lemma solve_short_room_witness :
  exists sol,
    solveHydraulicCircuit 1 nicheParams "niche" 15000 = Some sol /\
    segments (circuit sol) = [] /\
    CostAPI.total_spent (budget sol) = 26.5 * 0.3 + 435.
Proof.
  destruct (solve_short_room 0 nicheParams "niche" 15000)
    as (sol & Hsol & Hseg & _ & _ & _ & _ & Hb).
  - simpl. lra.
  - exists sol. split; [exact Hsol |]. split; [exact Hseg | exact Hb].
Defined.

End SolverAccounts.

(** * Heat loss of a room *)

Section HeatLoss.

Import LFloor.
Import Envelope.

Lemma wall_fold (deltaT : R) (l : list Wall.t) (a : R) :
  fold_left (wall_step deltaT) l a =
  a + deltaT * total (map wall_transmission l).
Proof.
  revert a. induction l as [| w l IH]; intros a.
  - simpl. ring.
  - cbn [fold_left map total fold_right]. rewrite IH.
    fold (total (map wall_transmission l)).
    unfold wall_step, wall_transmission. destruct (Wall.is_exterior w); ring.
Qed.

Lemma window_fold (deltaT : R) (l : list Window.t) (a : R) :
  fold_left (window_step deltaT) l a =
  a + deltaT * total (map window_transmission l).
Proof.
  revert a. induction l as [| w l IH]; intros a.
  - simpl. ring.
  - cbn [fold_left map total fold_right]. rewrite IH.
    fold (total (map window_transmission l)).
    unfold window_step, window_transmission. ring.
Qed.

Lemma heat_loss_transmission (room : Room.t) (exterior_temp : R) :
  calculateRoomHeatLoss room exterior_temp =
  (Room.target_temperature room - exterior_temp) * transmission room.
Proof.
  unfold calculateRoomHeatLoss, transmission.
  rewrite window_fold, wall_fold. ring.
Qed.

Lemma total_app (l1 l2 : list R) : total (l1 ++ l2) = total l1 + total l2.
Proof.
  induction l1 as [| a l1 IH]; simpl.
  - ring.
  - fold (total (l1 ++ l2)). fold (total l1). rewrite IH. ring.
Qed.

Lemma total_nonneg (l : list R) : Forall (fun v => 0 <= v) l -> 0 <= total l.
Proof.
  induction 1 as [| v l Hv _ IH]; simpl; [lra |]. fold (total l). lra.
Qed.

(** X18.  The heat loss of a room is the temperature difference times the
    transmission of its envelope (the exterior walls with their thermal
    bridges, and the windows): it is zero when the outside is at the target
    temperature, and the temperature difference times the loss per
    kelvin. *)
Theorem heat_loss_linear (room : Room.t) (exterior_temp : R) :
  calculateRoomHeatLoss room exterior_temp =
    (Room.target_temperature room - exterior_temp) * transmission room /\
  calculateRoomHeatLoss room (Room.target_temperature room) = 0 /\
  calculateRoomHeatLoss room exterior_temp =
    (Room.target_temperature room - exterior_temp) *
    calculateRoomHeatLoss (with_target room 1) 0.
Proof.
  rewrite !heat_loss_transmission. unfold transmission, with_target.
  cbn [Room.target_temperature Room.walls Room.windows].
  repeat split; ring.
Qed.

(** X19.  The heat loss adds up over the walls and the windows, and
    interior walls do not count. *)
Theorem heat_loss_additive (room : Room.t) (exterior_temp : R)
    (walls1 walls2 : list Wall.t) (windows1 windows2 : list Window.t) :
  calculateRoomHeatLoss
    (with_envelope room (walls1 ++ walls2) (windows1 ++ windows2)) exterior_temp =
    calculateRoomHeatLoss (with_envelope room walls1 windows1) exterior_temp +
    calculateRoomHeatLoss (with_envelope room walls2 windows2) exterior_temp /\
  calculateRoomHeatLoss
    (with_envelope room (filter Wall.is_exterior walls1) windows1) exterior_temp =
    calculateRoomHeatLoss (with_envelope room walls1 windows1) exterior_temp.
Proof.
  rewrite !heat_loss_transmission. unfold transmission.
  cbn [with_envelope Room.target_temperature Room.walls Room.windows].
  rewrite !map_app, !total_app. split; [ring |].
  f_equal. f_equal.
  induction walls1 as [| w l IH]; [reflexivity |].
  cbn [filter]. destruct (Wall.is_exterior w) eqn:E.
  - cbn [map total fold_right]. fold (total (map wall_transmission l)).
    fold (total (map wall_transmission (filter Wall.is_exterior l))).
    rewrite IH. reflexivity.
  - cbn [map total fold_right]. fold (total (map wall_transmission l)).
    rewrite IH. unfold wall_transmission at 2. rewrite E. ring.
Qed.

(** X20.  A room at least as warm as the outside, with non-negative
    dimensions and coefficients, has a non-negative heat loss. *)
Theorem heat_loss_nonneg (room : Room.t) (exterior_temp : R) :
  exterior_temp <= Room.target_temperature room ->
  Forall (fun w => Wall.is_exterior w = true ->
            0 <= Wall.length w /\ 0 <= Wall.height w /\
            0 <= u_value (Wall.material w) /\
            0 <= thermal_bridge_coefficient (Wall.material w))
    (Room.walls room) ->
  Forall (fun w => 0 <= Window.u_value w /\
            0 <= Window.width w * Window.height w)
    (Room.windows room) ->
  0 <= calculateRoomHeatLoss room exterior_temp.
Proof.
  intros HT Hwalls Hwindows. rewrite heat_loss_transmission.
  apply Rmult_le_pos; [lra |]. unfold transmission.
  apply Rplus_le_le_0_compat; apply total_nonneg; apply Forall_map.
  - eapply Forall_impl; [| exact Hwalls]. intros w Hw. unfold wall_transmission.
    cbv beta in Hw. destruct (Wall.is_exterior w); [| lra].
    destruct (Hw eq_refl) as (H1 & H2 & H3 & H4).
    apply Rplus_le_le_0_compat; repeat apply Rmult_le_pos; assumption.
  - eapply Forall_impl; [| exact Hwindows]. intros w [H1 H2].
    unfold window_transmission. apply Rmult_le_pos; assumption.
Qed.

Lemma heat_loss_nonneg_witness :
  0 <= calculateRoomHeatLoss living_room (-10).
Proof.
  apply (heat_loss_nonneg living_room (-10)).
  - simpl. lra.
  - unfold living_room, HOLLOW_BLOCK_1957. cbn [Room.walls].
    repeat constructor; cbn; intros; try lra.
  - unfold living_room, WINDOW_U_VALUES.single, WINDOW_U_VALUES.double.
    cbn [Room.windows]. repeat constructor; cbn; lra.
Defined.

End HeatLoss.

Section WindowUpgradeFacts.

Import LFloor.
Import Envelope.
Import WindowUpgrade.

Lemma is_single_true (w : Window.t) :
  is_single w = true <-> Window.glazing_type w = 1.
Proof.
  unfold is_single. destruct (Req_dec_T (Window.glazing_type w) 1);
    split; intros H; try assumption; try reflexivity; try discriminate.
  contradiction.
Qed.

Lemma windowArea_sum (room : Room.t) :
  windowArea room =
  total (map (fun w => Window.width w * Window.height w)
         (filter is_single (Room.windows room))).
Proof.
  unfold windowArea.
  assert (H : forall l a,
             fold_left (fun sum w => sum + Window.width w * Window.height w) l a =
             a + total (map (fun w => Window.width w * Window.height w) l)).
  { induction l as [| w l IH]; intros a; simpl; [ring |].
    rewrite IH. fold (total (map (fun w => Window.width w * Window.height w) l)).
    ring. }
  rewrite H. ring.
Qed.

Lemma total_cons (a : R) (l : list R) : total (a :: l) = a + total l.
Proof. reflexivity. Qed.

Lemma upgraded_transmission (l : list Window.t) :
  total (map window_transmission l) -
  total (map window_transmission
         (map (fun w =>
                 if is_single w
                 then Window.mk (Window.id w) (Window.width w) (Window.height w)
                        3 WINDOW_U_VALUES.triple
                 else w) l)) =
  total (map (fun w => (Window.u_value w - WINDOW_U_VALUES.triple) *
                     (Window.width w * Window.height w))
         (filter is_single l)).
Proof.
  induction l as [| w l IH]; [simpl; ring |].
  cbn [map filter]. destruct (is_single w).
  - cbn [map]. rewrite !total_cons, <- IH. unfold window_transmission at 1 3.
    cbn [Window.u_value Window.width Window.height]. ring.
  - rewrite !total_cons, <- IH. ring.
Qed.

Lemma reduction_gain (room : Room.t) (exterior_temp : R) :
  heatLossReduction room exterior_temp =
  (Room.target_temperature room - exterior_temp) * upgrade_gain room.
Proof.
  unfold heatLossReduction, upgrade_gain.
  rewrite !heat_loss_transmission. unfold transmission, upgradedRoom.
  cbn [Room.target_temperature Room.walls Room.windows].
  rewrite <- upgraded_transmission. ring.
Qed.

Lemma standard_gain (l : list Window.t) :
  Forall (fun w => Window.glazing_type w = 1 ->
            Window.u_value w = WINDOW_U_VALUES.single) l ->
  total (map (fun w => (Window.u_value w - WINDOW_U_VALUES.triple) *
                     (Window.width w * Window.height w))
         (filter is_single l)) =
  5 * total (map (fun w => Window.width w * Window.height w) (filter is_single l)).
Proof.
  induction 1 as [| w l Hw _ IH]; [simpl; ring |].
  cbn [filter]. destruct (is_single w) eqn:E; [| exact IH].
  apply is_single_true in E. cbn [map]. rewrite !total_cons, IH, (Hw E).
  unfold WINDOW_U_VALUES.single, WINDOW_U_VALUES.triple. lra.
Qed.

(** X21.  Upgrading the single-glazed windows to triple glazing reduces the
    heat loss by the temperature difference times the sum, over these
    windows, of (U - 0.8) * area: by nothing when no window is
    single-glazed; and upgrading twice is upgrading once. *)
Theorem window_upgrade_reduction (room : Room.t) (exterior_temp : R) :
  heatLossReduction room exterior_temp =
    (Room.target_temperature room - exterior_temp) * upgrade_gain room /\
  (filter is_single (Room.windows room) = [] ->
   heatLossReduction room exterior_temp = 0) /\
  calculateRoomHeatLoss (upgradedRoom (upgradedRoom room)) exterior_temp =
    calculateRoomHeatLoss (upgradedRoom room) exterior_temp.
Proof.
  split; [apply reduction_gain |]. split.
  - intros Hnone. rewrite reduction_gain. unfold upgrade_gain.
    rewrite Hnone. simpl. ring.
  - assert (H := reduction_gain (upgradedRoom room) exterior_temp).
    unfold heatLossReduction in H.
    assert (Hg : upgrade_gain (upgradedRoom room) = 0).
    { unfold upgrade_gain, upgradedRoom. cbn [Room.windows].
      replace (filter is_single
                 (map (fun w =>
                         if is_single w
                         then Window.mk (Window.id w) (Window.width w)
                                (Window.height w) 3 WINDOW_U_VALUES.triple
                         else w) (Room.windows room))) with (@nil Window.t);
        [reflexivity |].
      symmetry. induction (Room.windows room) as [| w l IH]; [reflexivity |].
      cbn [map filter]. destruct (is_single w) eqn:E.
      - replace (is_single (Window.mk (Window.id w) (Window.width w)
                              (Window.height w) 3 WINDOW_U_VALUES.triple))
          with false; [exact IH |].
        symmetry. unfold is_single. cbn [Window.glazing_type].
        destruct (Req_dec_T 3 1); [lra | reflexivity].
      - rewrite E. exact IH. }
    rewrite Hg in H. lra.
Qed.

(** X22.  When the single-glazed windows have the standard U-value of 5.8
    and some area, and the target differs from the outside temperature, the
    upgrade saves 5 W per square metre and kelvin, and its cost per saved
    watt is 60 / (target - outside): the same for every room of that target
    temperature, whatever its windows. *)
Theorem upgrade_cost_per_watt (room : Room.t) (exterior_temp : R) :
  Forall (fun w => Window.glazing_type w = 1 ->
            Window.u_value w = WINDOW_U_VALUES.single) (Room.windows room) ->
  windowArea room <> 0 ->
  Room.target_temperature room <> exterior_temp ->
  heatLossReduction room exterior_temp =
    5 * windowArea room * (Room.target_temperature room - exterior_temp) /\
  costPerWatt room exterior_temp =
    60 / (Room.target_temperature room - exterior_temp).
Proof.
  intros Hstd Harea HT.
  assert (Hred : heatLossReduction room exterior_temp =
                 5 * windowArea room *
                 (Room.target_temperature room - exterior_temp)).
  { rewrite reduction_gain. unfold upgrade_gain.
    rewrite (standard_gain _ Hstd), windowArea_sum. ring. }
  split; [exact Hred |].
  unfold costPerWatt, upgradeCost. rewrite Hred. field.
  split; [lra | exact Harea].
Qed.

Lemma living_room_windowArea : windowArea living_room = 1.2 * 1.4.
Proof.
  unfold windowArea, living_room. cbn [Room.windows filter].
  unfold is_single. cbn [Window.glazing_type].
  destruct (Req_dec_T 1 1) as [_ | H]; [| lra].
  destruct (Req_dec_T 2 1) as [H | _]; [lra |].
  cbn [fold_left Window.width Window.height]. ring.
Qed.

Lemma upgrade_cost_per_watt_witness :
  costPerWatt living_room (-10) = 60 / (21 - -10).
Proof.
  apply (upgrade_cost_per_watt living_room (-10)).
  - unfold living_room. cbn [Room.windows].
    apply Forall_cons; [intros _; reflexivity |].
    apply Forall_cons; [cbn [Window.glazing_type]; intros H; lra |].
    apply Forall_nil.
  - rewrite living_room_windowArea. lra.
  - simpl. lra.
Defined.

End WindowUpgradeFacts.

(** * Heat grid simulator: further properties *)

Section GridCells.

Import HeatSimulation.
Import Grid.
Import Stencil.

Lemma nth_set_nth_same {A : Type} (v d : A) (l : list A) (i : nat) :
  (i < List.length l)%nat -> nth i (set_nth i v l) d = v.
Proof.
  revert i. induction l as [| h l IH]; intros i Hi; simpl in Hi; [lia |].
  destruct i as [| i]; simpl; [reflexivity | apply IH; lia].
Qed.

Lemma nth_set_nth_other {A : Type} (v d : A) (l : list A) (i k : nat) :
  i <> k -> nth k (set_nth i v l) d = nth k l d.
Proof.
  revert i k. induction l as [| h l IH]; intros i k Hik.
  - destruct i; reflexivity.
  - destruct i as [| i]; destruct k as [| k]; simpl; try reflexivity;
      [lia | apply IH; lia].
Qed.

Lemma shape_row (nrows ncols i : nat) (grid : list (list R)) :
  shape nrows ncols grid -> (i < nrows)%nat ->
  List.length (nth i grid []) = ncols.
Proof.
  intros [Hlen Hall] Hi.
  apply (proj1 (Forall_forall _ _) Hall). apply nth_In. lia.
Qed.

Lemma get2_set2_same (nrows ncols i j : nat) (v : R) (grid : list (list R)) :
  shape nrows ncols grid -> (i < nrows)%nat -> (j < ncols)%nat ->
  get2 (set2 grid i j v) i j = v.
Proof.
  intros Hs Hi Hj. unfold get2, set2.
  rewrite nth_set_nth_same by (destruct Hs; lia).
  apply nth_set_nth_same. rewrite (shape_row _ _ _ _ Hs Hi). exact Hj.
Qed.

Lemma get2_set2_other (i j i' j' : nat) (v : R) (grid : list (list R)) :
  i <> i' \/ j <> j' -> get2 (set2 grid i j v) i' j' = get2 grid i' j'.
Proof.
  intros Hne. unfold get2, set2.
  destruct (Nat.eq_dec i i') as [<- | Hi].
  - destruct Hne as [Hne | Hne]; [contradiction |].
    destruct (Nat.lt_ge_cases i (List.length grid)) as [Hlt | Hge].
    + rewrite nth_set_nth_same by exact Hlt. apply nth_set_nth_other. exact Hne.
    + rewrite set_nth_overflow by exact Hge. reflexivity.
  - rewrite nth_set_nth_other by exact Hi. reflexivity.
Qed.

Lemma fold_left_reach {A B : Type} (P Q : A -> Prop) (f : A -> B -> A)
    (l : list B) (a : A) (x : B) :
  (forall a b, In b l -> P a -> P (f a b)) ->
  (forall a b, In b l -> P a -> Q a -> Q (f a b)) ->
  (forall a, P a -> Q (f a x)) ->
  In x l -> P a -> Q (fold_left f l a).
Proof.
  revert a. induction l as [| b l IH]; intros a HP HQ Hx Hin Ha; [destruct Hin |].
  cbn [fold_left].
  assert (HPl : forall a b, In b l -> P a -> P (f a b))
    by (intros; apply HP; [right |]; assumption).
  assert (HQl : forall a b, In b l -> P a -> Q a -> Q (f a b))
    by (intros; apply HQ; [right | |]; assumption).
  assert (Hfa : P (f a b)) by (apply HP; [left; reflexivity | exact Ha]).
  destruct Hin as [-> | Hin].
  - apply (fold_left_invariant (fun a => P a /\ Q a) f l (f a x)).
    + intros a' b' Hb' [HPa HQa].
      split; [apply HPl | apply HQl]; assumption.
    + split; [exact Hfa | apply Hx; exact Ha].
  - apply IH; assumption.
Qed.

End GridCells.

Section StepCells.

Import HeatSimulation.
Import Grid.
Import Stencil.

Variable s : t.
Variable r : R.
Variable cur : list (list R).

Lemma diffuse_shape (next : list (list R)) :
  shape (rows s) (cols s) next -> shape (rows s) (cols s) (diffuse s r cur next).
Proof.
  intros Hn. unfold diffuse. apply fold_left_invariant; [| exact Hn].
  intros a i _ Ha. apply fold_left_invariant; [| exact Ha].
  intros a' j _ Ha'. apply set2_shape. exact Ha'.
Qed.

Lemma boundary_rows_shape (next : list (list R)) :
  shape (rows s) (cols s) next ->
  shape (rows s) (cols s) (boundary_rows s cur next).
Proof.
  intros Hn. unfold boundary_rows. apply fold_left_invariant; [| exact Hn].
  intros a j _ Ha. apply set2_shape, set2_shape. exact Ha.
Qed.

Lemma boundary_cols_shape (next : list (list R)) :
  shape (rows s) (cols s) next ->
  shape (rows s) (cols s) (boundary_cols s cur next).
Proof.
  intros Hn. unfold boundary_cols. apply fold_left_invariant; [| exact Hn].
  intros a i _ Ha. apply set2_shape, set2_shape. exact Ha.
Qed.

Lemma interior_value (a b : nat) :
  In a (seq 1 (rows s - 2)) -> In b (seq 1 (cols s - 2)) ->
  (a < rows s)%nat /\ (b < cols s)%nat /\
  next_value s r cur a b = stencil r cur a b.
Proof.
  intros Ha Hb. apply in_seq in Ha. apply in_seq in Hb.
  split; [lia |]. split; [lia |].
  unfold next_value, on_boundary.
  replace (a =? 0)%nat with false by (symmetry; apply Nat.eqb_neq; lia).
  replace (a =? rows s - 1)%nat with false by (symmetry; apply Nat.eqb_neq; lia).
  replace (b =? 0)%nat with false by (symmetry; apply Nat.eqb_neq; lia).
  replace (b =? cols s - 1)%nat with false by (symmetry; apply Nat.eqb_neq; lia).
  reflexivity.
Qed.

Lemma rim_row_value (a b : nat) :
  a = O \/ a = (rows s - 1)%nat ->
  next_value s r cur a b = applyBoundary s (get2 cur a b).
Proof.
  intros Ha. unfold next_value, on_boundary.
  destruct Ha as [-> | ->].
  - reflexivity.
  - rewrite Nat.eqb_refl, orb_true_r. reflexivity.
Qed.

Lemma rim_col_value (a b : nat) :
  b = O \/ b = (cols s - 1)%nat ->
  next_value s r cur a b = applyBoundary s (get2 cur a b).
Proof.
  intros Hb. unfold next_value, on_boundary.
  destruct Hb as [-> | ->].
  - cbn [Nat.eqb]. rewrite orb_true_r. reflexivity.
  - rewrite Nat.eqb_refl, !orb_true_r. reflexivity.
Qed.

Variables i j : nat.
Hypothesis Hi : (i < rows s)%nat.
Hypothesis Hj : (j < cols s)%nat.

Lemma write_keeps (next : list (list R)) (a b : nat) :
  holds s r cur i j next ->
  holds s r cur i j (set2 next a b (next_value s r cur a b)).
Proof.
  intros [Hs Hq]. split; [apply set2_shape; exact Hs |].
  destruct (Nat.eq_dec a i) as [-> | Ha].
  - destruct (Nat.eq_dec b j) as [-> | Hb].
    + apply (get2_set2_same _ _ _ _ _ _ Hs Hi Hj).
    + rewrite get2_set2_other by (right; exact Hb). exact Hq.
  - rewrite get2_set2_other by (left; exact Ha). exact Hq.
Qed.

Lemma write_sets (next : list (list R)) :
  shape (rows s) (cols s) next ->
  holds s r cur i j (set2 next i j (next_value s r cur i j)).
Proof.
  intros Hs. split; [apply set2_shape; exact Hs |].
  apply (get2_set2_same _ _ _ _ _ _ Hs Hi Hj).
Qed.

Lemma diffuse_keeps (next : list (list R)) :
  holds s r cur i j next -> holds s r cur i j (diffuse s r cur next).
Proof.
  intros Hn. unfold diffuse. apply fold_left_invariant; [| exact Hn].
  intros a i' Hi' Ha. apply fold_left_invariant; [| exact Ha].
  intros a' j' Hj' Ha'.
  destruct (interior_value i' j' Hi' Hj') as (_ & _ & Hv).
  change (holds s r cur i j (set2 a' i' j' (stencil r cur i' j'))).
  rewrite <- Hv. apply write_keeps. exact Ha'.
Qed.

Lemma boundary_rows_keeps (next : list (list R)) :
  holds s r cur i j next -> holds s r cur i j (boundary_rows s cur next).
Proof.
  intros Hn. unfold boundary_rows. apply fold_left_invariant; [| exact Hn].
  intros a j' _ Ha.
  rewrite <- (rim_row_value O j') by (left; reflexivity).
  rewrite <- (rim_row_value (rows s - 1) j') by (right; reflexivity).
  apply write_keeps, write_keeps. exact Ha.
Qed.

Lemma boundary_cols_keeps (next : list (list R)) :
  holds s r cur i j next -> holds s r cur i j (boundary_cols s cur next).
Proof.
  intros Hn. unfold boundary_cols. apply fold_left_invariant; [| exact Hn].
  intros a i' _ Ha.
  rewrite <- (rim_col_value i' O) by (left; reflexivity).
  rewrite <- (rim_col_value i' (cols s - 1)) by (right; reflexivity).
  apply write_keeps, write_keeps. exact Ha.
Qed.

Lemma diffuse_sets (next : list (list R)) :
  on_boundary s i j = false ->
  shape (rows s) (cols s) next -> holds s r cur i j (diffuse s r cur next).
Proof.
  intros Hb Hn. unfold on_boundary in Hb.
  apply orb_false_iff in Hb. destruct Hb as [Hb Hb4].
  apply orb_false_iff in Hb. destruct Hb as [Hb Hb3].
  apply orb_false_iff in Hb. destruct Hb as [Hb1 Hb2].
  apply Nat.eqb_neq in Hb1, Hb2, Hb3, Hb4.
  unfold diffuse.
  apply (fold_left_reach (shape (rows s) (cols s)) (holds s r cur i j) _ _ _ i).
  - intros a i' _ Ha. apply fold_left_invariant; [| exact Ha].
    intros a' j' _ Ha'. apply set2_shape. exact Ha'.
  - intros a i' Hi' _ Ha. apply fold_left_invariant; [| exact Ha].
    intros a' j' Hj' Ha'.
    destruct (interior_value i' j' Hi' Hj') as (_ & _ & Hv).
    change (holds s r cur i j (set2 a' i' j' (stencil r cur i' j'))).
    rewrite <- Hv. apply write_keeps. exact Ha'.
  - intros a Ha.
    assert (Hin : In i (seq 1 (rows s - 2))) by (apply in_seq; lia).
    apply (fold_left_reach (shape (rows s) (cols s)) (holds s r cur i j) _ _ _ j).
    + intros a' j' _ Ha'. apply set2_shape. exact Ha'.
    + intros a' j' Hj' _ Ha'.
      destruct (interior_value i j' Hin Hj') as (_ & _ & Hv).
      change (holds s r cur i j (set2 a' i j' (stencil r cur i j'))).
      rewrite <- Hv. apply write_keeps. exact Ha'.
    + intros a' Ha'.
      assert (Hjn : In j (seq 1 (cols s - 2))) by (apply in_seq; lia).
      destruct (interior_value i j Hin Hjn) as (_ & _ & Hv).
      change (holds s r cur i j (set2 a' i j (stencil r cur i j))).
      rewrite <- Hv. apply write_sets. exact Ha'.
    + apply in_seq. lia.
    + exact Ha.
  - apply in_seq. lia.
  - exact Hn.
Qed.

Lemma boundary_rows_sets (next : list (list R)) :
  i = O \/ i = (rows s - 1)%nat ->
  shape (rows s) (cols s) next -> holds s r cur i j (boundary_rows s cur next).
Proof.
  intros Hrim Hn. unfold boundary_rows.
  apply (fold_left_reach (shape (rows s) (cols s)) (holds s r cur i j) _ _ _ j).
  - intros a j' _ Ha. apply set2_shape, set2_shape. exact Ha.
  - intros a j' _ _ Ha.
    rewrite <- (rim_row_value O j') by (left; reflexivity).
    rewrite <- (rim_row_value (rows s - 1) j') by (right; reflexivity).
    apply write_keeps, write_keeps. exact Ha.
  - intros a Ha.
    rewrite <- (rim_row_value O j) by (left; reflexivity).
    rewrite <- (rim_row_value (rows s - 1) j) by (right; reflexivity).
    destruct Hrim as [E | E].
    + apply write_keeps. rewrite <- E. apply write_sets. exact Ha.
    + rewrite <- E. apply write_sets. apply set2_shape. exact Ha.
  - apply in_seq. lia.
  - exact Hn.
Qed.

Lemma boundary_cols_sets (next : list (list R)) :
  j = O \/ j = (cols s - 1)%nat ->
  shape (rows s) (cols s) next -> holds s r cur i j (boundary_cols s cur next).
Proof.
  intros Hrim Hn. unfold boundary_cols.
  apply (fold_left_reach (shape (rows s) (cols s)) (holds s r cur i j) _ _ _ i).
  - intros a i' _ Ha. apply set2_shape, set2_shape. exact Ha.
  - intros a i' _ _ Ha.
    rewrite <- (rim_col_value i' O) by (left; reflexivity).
    rewrite <- (rim_col_value i' (cols s - 1)) by (right; reflexivity).
    apply write_keeps, write_keeps. exact Ha.
  - intros a Ha.
    rewrite <- (rim_col_value i O) by (left; reflexivity).
    rewrite <- (rim_col_value i (cols s - 1)) by (right; reflexivity).
    destruct Hrim as [E | E].
    + apply write_keeps. rewrite <- E. apply write_sets. exact Ha.
    + rewrite <- E. apply write_sets. apply set2_shape. exact Ha.
  - apply in_seq. lia.
  - exact Hn.
Qed.

(** The three loops of [step] leave the new value in every cell, whatever
    the buffer held before. *)
Lemma loops_cell (next : list (list R)) :
  shape (rows s) (cols s) next ->
  get2 (boundary_cols s cur (boundary_rows s cur (diffuse s r cur next))) i j =
  next_value s r cur i j.
Proof.
  intros Hn.
  assert (H : holds s r cur i j (boundary_cols s cur
                       (boundary_rows s cur (diffuse s r cur next))));
    [| exact (proj2 H)].
  destruct (on_boundary s i j) eqn:Hb.
  - unfold on_boundary in Hb.
    destruct (Nat.eqb_spec j O) as [Hj0 | Hj0];
      [apply boundary_cols_sets;
       [left; exact Hj0 | apply boundary_rows_shape, diffuse_shape; exact Hn] |].
    destruct (Nat.eqb_spec j (cols s - 1)) as [Hj1 | Hj1];
      [apply boundary_cols_sets;
       [right; exact Hj1 | apply boundary_rows_shape, diffuse_shape; exact Hn] |].
    apply boundary_cols_keeps, boundary_rows_sets;
      [| apply diffuse_shape; exact Hn].
    rewrite !orb_false_r in Hb. apply orb_true_iff in Hb.
    destruct Hb as [Hb | Hb]; apply Nat.eqb_eq in Hb; [left | right]; exact Hb.
  - apply boundary_cols_keeps, boundary_rows_keeps, diffuse_sets;
      [exact Hb | exact Hn].
Qed.

End StepCells.

Section StepProperties.

Import HeatSimulation.
Import Grid.
Import SteadyState.
Import Stencil.

Lemma in_range_spec (s : t) (row col : Z) :
  in_range s row col = true <->
  (0 <= row < Z.of_nat (rows s))%Z /\ (0 <= col < Z.of_nat (cols s))%Z.
Proof.
  unfold in_range. rewrite !andb_true_iff, !Z.leb_le, !Z.ltb_lt. lia.
Qed.

Lemma pin_get2 (s : t) (grid : list (list R)) (src : HeatSource) (i j : nat) :
  shape (rows s) (cols s) grid -> (i < rows s)%nat -> (j < cols s)%nat ->
  get2 (pin s grid src) i j =
  if ((row src =? Z.of_nat i) && (col src =? Z.of_nat j))%Z
  then temperature src else get2 grid i j.
Proof.
  intros Hs Hi Hj. unfold pin.
  destruct (Z.eqb_spec (row src) (Z.of_nat i)) as [Er | Er];
    [destruct (Z.eqb_spec (col src) (Z.of_nat j)) as [Ec | Ec] |]; cbn [andb].
  - replace (in_range s (row src) (col src)) with true
      by (symmetry; apply in_range_spec; lia).
    rewrite Er, Ec, !Nat2Z.id. apply (get2_set2_same _ _ _ _ _ _ Hs Hi Hj).
  - destruct (in_range s (row src) (col src)) eqn:Hr; [| reflexivity].
    apply in_range_spec in Hr. apply get2_set2_other. right. lia.
  - destruct (in_range s (row src) (col src)) eqn:Hr; [| reflexivity].
    apply in_range_spec in Hr. apply get2_set2_other. left. lia.
Qed.

Lemma pin_shape (s : t) (grid : list (list R)) (src : HeatSource) :
  shape (rows s) (cols s) grid -> shape (rows s) (cols s) (pin s grid src).
Proof.
  intros Hs. unfold pin. destruct (in_range _ _ _); [| exact Hs].
  apply set2_shape. exact Hs.
Qed.

Lemma pinned_shape (s : t) :
  well_formed s -> shape (rows s) (cols s) (pinned s).
Proof.
  intros [Ht _]. unfold pinned. apply fold_left_invariant; [| exact Ht].
  intros a src _ Ha. apply pin_shape. exact Ha.
Qed.

Lemma fold_pin_unheated (s : t) (l : list HeatSource) (i j : nat) :
  (i < rows s)%nat -> (j < cols s)%nat ->
  Forall (fun src => ~ (row src = Z.of_nat i /\ col src = Z.of_nat j)) l ->
  forall grid, shape (rows s) (cols s) grid ->
  get2 (fold_left (pin s) l grid) i j = get2 grid i j.
Proof.
  intros Hi Hj Hl. induction Hl as [| src l Hsrc _ IH]; intros grid Hs;
    [reflexivity |].
  cbn [fold_left]. rewrite IH by (apply pin_shape; exact Hs).
  rewrite (pin_get2 _ _ _ _ _ Hs Hi Hj).
  destruct (Z.eqb_spec (row src) (Z.of_nat i)) as [Er | Er];
    [destruct (Z.eqb_spec (col src) (Z.of_nat j)) as [Ec | Ec] |];
    cbn [andb]; try reflexivity.
  exfalso. apply Hsrc. split; assumption.
Qed.

Lemma fold_pin_within (s : t) (lo hi : R) (l : list HeatSource) :
  Forall (fun src => lo <= temperature src <= hi) l ->
  forall grid, shape (rows s) (cols s) grid ->
  cells_within lo hi (rows s) (cols s) grid ->
  cells_within lo hi (rows s) (cols s) (fold_left (pin s) l grid).
Proof.
  intros Hl. induction Hl as [| src l Hsrc _ IH]; intros grid Hs Hc;
    [exact Hc |].
  cbn [fold_left]. apply IH; [apply pin_shape; exact Hs |].
  intros i j Hi Hj. rewrite (pin_get2 _ _ _ _ _ Hs Hi Hj).
  destruct (_ && _)%bool; [exact Hsrc | apply Hc; assumption].
Qed.

Lemma fold_pin_last (s : t) (l : list HeatSource) (src : HeatSource) (i j : nat) :
  (i < rows s)%nat -> (j < cols s)%nat ->
  row src = Z.of_nat i -> col src = Z.of_nat j ->
  forall grid, shape (rows s) (cols s) grid ->
  get2 (fold_left (pin s) (l ++ [src]) grid) i j = temperature src.
Proof.
  intros Hi Hj Er Ec grid Hs. rewrite fold_left_app. cbn [fold_left].
  rewrite pin_get2; [| | exact Hi | exact Hj].
  - rewrite Er, Ec, !Z.eqb_refl. reflexivity.
  - apply fold_left_invariant; [| exact Hs].
    intros a b _ Ha. apply pin_shape. exact Ha.
Qed.

Lemma step_fields (dt : R) (s s' : t) (o : list ConsoleLine) :
  step dt s = Some (s', o) ->
  temp s' =
    boundary_cols s (pinned s)
      (boundary_rows s (pinned s)
         (diffuse s (courant dt s) (pinned s) (tempNext s))) /\
  tempNext s' = pinned s /\
  rows s' = rows s /\ cols s' = cols s /\ gridSize s' = gridSize s /\
  heatSources s' = heatSources s /\ outsideTemp s' = outsideTemp s.
Proof.
  unfold step. destruct (xorb _ _); [discriminate |].
  intros H. injection H as <- _. repeat split.
Qed.

Lemma step_cells (dt : R) (s s' : t) (o : list ConsoleLine) (i j : nat) :
  well_formed s -> step dt s = Some (s', o) ->
  (i < rows s)%nat -> (j < cols s)%nat ->
  get2 (temp s') i j = next_value s (courant dt s) (pinned s) i j.
Proof.
  intros Hwf Hstep Hi Hj.
  destruct (step_fields _ _ _ _ Hstep) as (Ht & _).
  rewrite Ht. apply loops_cell; [exact Hi | exact Hj | apply Hwf].
Qed.

Lemma applyBoundary_mix (s : t) (v : R) :
  applyBoundary s v = 0.986 * v + 0.014 * outsideTemp s.
Proof. unfold applyBoundary. lra. Qed.

Lemma off_boundary (s : t) (i j : nat) :
  on_boundary s i j = false -> (i < rows s)%nat -> (j < cols s)%nat ->
  (1 <= i)%nat /\ (i + 1 < rows s)%nat /\ (1 <= j)%nat /\ (j + 1 < cols s)%nat.
Proof.
  unfold on_boundary. intros Hb Hi Hj.
  apply orb_false_iff in Hb. destruct Hb as [Hb Hb4].
  apply orb_false_iff in Hb. destruct Hb as [Hb Hb3].
  apply orb_false_iff in Hb. destruct Hb as [Hb1 Hb2].
  apply Nat.eqb_neq in Hb1, Hb2, Hb3, Hb4. lia.
Qed.

Lemma next_value_within (s : t) (r lo hi : R) (cur : list (list R)) (i j : nat) :
  0 <= r <= 1 / 4 ->
  cells_within lo hi (rows s) (cols s) cur ->
  lo <= outsideTemp s <= hi ->
  (i < rows s)%nat -> (j < cols s)%nat ->
  lo <= next_value s r cur i j <= hi.
Proof.
  intros Hr Hc Ho Hi Hj. unfold next_value.
  destruct (on_boundary s i j) eqn:Hb.
  - rewrite applyBoundary_mix. specialize (Hc i j Hi Hj). lra.
  - destruct (off_boundary s i j Hb Hi Hj) as (H1 & H2 & H3 & H4).
    unfold stencil.
    assert (Hc0 := Hc i j Hi Hj).
    assert (Hn := Hc (i - 1)%nat j ltac:(lia) Hj).
    assert (Hs := Hc (i + 1)%nat j ltac:(lia) Hj).
    assert (Hw := Hc i (j - 1)%nat Hi ltac:(lia)).
    assert (He := Hc i (j + 1)%nat Hi ltac:(lia)).
    set (c := get2 cur i j) in *. set (n := get2 cur (i - 1) j) in *.
    set (so := get2 cur (i + 1) j) in *. set (w := get2 cur i (j - 1)) in *.
    set (e := get2 cur i (j + 1)) in *.
    replace (c + r * (n + so + w + e - 4 * c))
      with ((1 - 4 * r) * c + r * n + r * so + r * w + r * e) by ring.
    assert (0 <= 1 - 4 * r) by lra.
    split.
    + assert ((1 - 4 * r) * lo <= (1 - 4 * r) * c)
        by (apply Rmult_le_compat_l; lra).
      assert (r * lo <= r * n) by (apply Rmult_le_compat_l; lra).
      assert (r * lo <= r * so) by (apply Rmult_le_compat_l; lra).
      assert (r * lo <= r * w) by (apply Rmult_le_compat_l; lra).
      assert (r * lo <= r * e) by (apply Rmult_le_compat_l; lra).
      lra.
    + assert ((1 - 4 * r) * c <= (1 - 4 * r) * hi)
        by (apply Rmult_le_compat_l; lra).
      assert (r * n <= r * hi) by (apply Rmult_le_compat_l; lra).
      assert (r * so <= r * hi) by (apply Rmult_le_compat_l; lra).
      assert (r * w <= r * hi) by (apply Rmult_le_compat_l; lra).
      assert (r * e <= r * hi) by (apply Rmult_le_compat_l; lra).
      lra.
Qed.

Lemma step_within (dt lo hi : R) (s s' : t) (o : list ConsoleLine) :
  well_formed s -> 0 <= courant dt s <= 1 / 4 -> within lo hi s ->
  step dt s = Some (s', o) -> within lo hi s'.
Proof.
  intros Hwf Hr (Hc & Hsrc & Hout) Hstep.
  destruct (step_fields _ _ _ _ Hstep) as (_ & _ & Hrows & Hcols & _ & Hs & Ho).
  unfold within. rewrite Hrows, Hcols, Hs, Ho.
  split; [| split; assumption].
  intros i j Hi Hj. rewrite (step_cells _ _ _ _ _ _ Hwf Hstep Hi Hj).
  apply next_value_within; try assumption.
  apply fold_pin_within; [exact Hsrc | apply Hwf | exact Hc].
Qed.

Lemma courant_default (s : t) :
  0.0004 <= gridSize s * gridSize s -> 0 <= courant 1.0 s <= 1 / 4.
Proof.
  intros Hg. unfold courant.
  assert (Hpos : 0 < gridSize s * gridSize s) by lra.
  split.
  - apply Rlt_le, Rdiv_lt_0_compat; lra.
  - apply (Rmult_le_reg_r (gridSize s * gridSize s)); [exact Hpos |].
    unfold Rdiv. rewrite Rmult_assoc, Rinv_l by lra. lra.
Qed.

Lemma steps_within (k : nat) (lo hi : R) :
  forall s s',
  well_formed s -> 0.0004 <= gridSize s * gridSize s -> within lo hi s ->
  steps k s = Some s' ->
  well_formed s' /\ within lo hi s' /\ rows s' = rows s /\ cols s' = cols s /\
  gridSize s' = gridSize s.
Proof.
  induction k as [| k IH]; intros s s' Hwf Hg Hin Hsteps.
  - injection Hsteps as <-.
    split; [exact Hwf | split; [exact Hin | repeat split]].
  - cbn [steps] in Hsteps.
    destruct (step 1.0 s) as [[s1 o] |] eqn:Hstep; [| discriminate].
    destruct (step_fields _ _ _ _ Hstep) as (_ & _ & Hr & Hc & Hgs & _).
    destruct (IH s1 s') as (H1 & H2 & H3 & H4 & H5).
    + apply (step_well_formed _ _ _ _ Hwf Hstep).
    + rewrite Hgs. exact Hg.
    + apply (step_within 1.0 lo hi s s1 o Hwf (courant_default s Hg) Hin Hstep).
    + exact Hsteps.
    + split; [exact H1 | split; [exact H2 | repeat split; congruence]].
Qed.

End StepProperties.

Section GridTheorems.

Import HeatSimulation.
Import Grid.
Import SteadyState.
Import Stencil.
Import GridExamples.

Lemma plate_well_formed : well_formed plate.
Proof. split; apply uniform_shape. Qed.

Lemma plate_within : within (-10) 35 plate.
Proof.
  split; [| split].
  - intros i j Hi Hj. unfold plate. cbn [temp rows cols] in *.
    rewrite get2_uniform by assumption. lra.
  - unfold plate. cbn [heatSources]. repeat constructor; cbn; lra.
  - cbn. lra.
Qed.

Lemma plate_built :
  exists s0, new 0.375 0.375 0.125 = Some s0 /\
             addHeatSource 0.2 0.2 35 s0 = plate.
Proof.
  eexists. split.
  - unfold new. destruct (Req_dec_T 0.125 0) as [E | _]; [exfalso; lra |].
    replace (Zceil (0.375 / 0.125)) with 3%Z; [reflexivity |].
    symmetry. apply Zceil_eq. lra.
  - unfold addHeatSource. cbn [gridSize].
    replace (Zfloor (0.2 / 0.125)) with 1%Z; [reflexivity |].
    symmetry. apply Zfloor_eq. lra.
Qed.

(** X23.  A step on a well-formed grid stores in every cell a value computed
    from the grid it starts from (the current grid with the heat sources
    pinned), whatever the other buffer held: the boundary rule on the rim,
    the five-point update inside.  The pinned grid holds the current value
    on a cell without a source and, on the cell of the source registered
    last, the temperature of that source. *)
Theorem step_cell_values (dt : R) (s s' : t) (o : list ConsoleLine) :
  well_formed s -> step dt s = Some (s', o) ->
  (forall i j, (i < rows s)%nat -> (j < cols s)%nat ->
     get2 (temp s') i j = next_value s (courant dt s) (pinned s) i j) /\
  (forall i j, (i < rows s)%nat -> (j < cols s)%nat -> unheated s i j ->
     get2 (pinned s) i j = get2 (temp s) i j) /\
  (forall l src i j, heatSources s = l ++ [src] ->
     (i < rows s)%nat -> (j < cols s)%nat ->
     row src = Z.of_nat i -> col src = Z.of_nat j ->
     get2 (pinned s) i j = temperature src).
Proof.
  intros Hwf Hstep. split; [| split].
  - intros i j Hi Hj. apply (step_cells _ _ _ _ _ _ Hwf Hstep Hi Hj).
  - intros i j Hi Hj Hu. unfold pinned.
    apply fold_pin_unheated; [exact Hi | exact Hj | exact Hu | apply Hwf].
  - intros l src i j Hl Hi Hj Er Ec. unfold pinned. rewrite Hl.
    apply fold_pin_last; [exact Hi | exact Hj | exact Er | exact Ec | apply Hwf].
Qed.

Lemma step_cell_values_witness :
  exists s' o,
    step 1.0 plate = Some (s', o) /\
    get2 (temp s') 1 1 =
      next_value plate (courant 1.0 plate) (pinned plate) 1 1 /\
    get2 (pinned plate) 1 1 = 35.
Proof.
  destruct (step_returns 1.0 plate eq_refl) as (s' & o & Hstep).
  exists s', o. split; [exact Hstep |].
  destruct (step_cell_values 1.0 plate s' o plate_well_formed Hstep)
    as (Hcells & _ & Hlast).
  split.
  - apply Hcells; cbn; lia.
  - apply (Hlast [] (mkHeatSource 1 1 35) 1%nat 1%nat); cbn; try lia;
      reflexivity.
Defined.

(** X24.  A step with a non-negative time step that prints no warning keeps
    the grid between any bounds that hold, before the step, for the grid,
    the heat sources and the outside temperature. *)
Theorem quiet_step_maximum_principle (dt lo hi : R) (s s' : t) :
  well_formed s -> 0 <= dt -> gridSize s <> 0 -> within lo hi s ->
  step dt s = Some (s', []) ->
  within lo hi s' /\ well_formed s'.
Proof.
  intros Hwf Hdt Hg Hin Hstep.
  assert (Hgg : 0 < gridSize s * gridSize s).
  { destruct (Rtotal_order (gridSize s) 0) as [H | [H | H]]; [| contradiction |];
      nra. }
  assert (Hr : 0 <= courant dt s <= 1 / 4).
  { unfold courant. split.
    - apply Rmult_le_pos; [lra |]. apply Rlt_le, Rinv_0_lt_compat. exact Hgg.
    - assert (Hq : JSNum.gtb (0.0001 * dt / (gridSize s * gridSize s)) 0.25
                   = false).
      { unfold step in Hstep. destruct (xorb _ _); [discriminate |].
        destruct (JSNum.gtb _ 0.25); [discriminate | reflexivity]. }
      unfold JSNum.gtb in Hq. destruct (Rgt_dec _ _) as [_ | Hn];
        [discriminate |]. lra. }
  split; [apply (step_within dt lo hi s s' [] Hwf Hr Hin Hstep) |].
  apply (step_well_formed _ _ _ _ Hwf Hstep).
Qed.

Lemma plate_step_quiet : exists s', step 1.0 plate = Some (s', []).
Proof.
  unfold step. cbn [rows cols gridSize plate Nat.eqb xorb].
  unfold JSNum.gtb. destruct (Rgt_dec _ _) as [H | _]; [exfalso; lra |].
  eexists. reflexivity.
Qed.

Lemma quiet_step_maximum_principle_witness :
  exists s', step 1.0 plate = Some (s', []) /\ within (-10) 35 s'.
Proof.
  destruct plate_step_quiet as [s' Hstep]. exists s'.
  split; [exact Hstep |].
  apply (quiet_step_maximum_principle 1.0 (-10) 35 plate s');
    [exact plate_well_formed | lra | cbn; lra | exact plate_within | exact Hstep].
Defined.

End GridTheorems.

Section GridRuns.

Import HeatSimulation.
Import Grid.
Import SteadyState.
Import Stencil.
Import GridExamples.

Lemma sum_row_bounds (f : nat -> R) (lo hi : R) (l : list nat) :
  (forall j, In j l -> lo <= f j <= hi) ->
  forall acc : R * nat,
  let res := fold_left (fun acc j => (fst acc + f j, S (snd acc))) l acc in
  fst acc + lo * INR (List.length l) <= fst res <=
    fst acc + hi * INR (List.length l) /\
  snd res = (snd acc + List.length l)%nat.
Proof.
  induction l as [| j l IH]; intros Hf acc.
  - cbn. rewrite Nat.add_0_r. split; [lra | reflexivity].
  - cbn [fold_left]. cbv zeta.
    destruct (IH (fun j' Hj' => Hf j' (or_intror Hj'))
                (fst acc + f j, S (snd acc))) as [Hsum Hcount].
    cbn [fst snd] in Hsum, Hcount.
    assert (Hj := Hf j (or_introl eq_refl)).
    change (List.length (j :: l)) with (S (List.length l)). rewrite S_INR.
    split; [lra | lia].
Qed.

Lemma sum_rows_bounds (g : nat -> nat -> R) (lo hi : R) (lj li : list nat) :
  (forall i j, In i li -> In j lj -> lo <= g i j <= hi) ->
  forall acc : R * nat,
  let res :=
    fold_left (fun acc i =>
      fold_left (fun acc j => (fst acc + g i j, S (snd acc))) lj acc) li acc in
  fst acc + lo * INR (List.length lj * List.length li) <= fst res <=
    fst acc + hi * INR (List.length lj * List.length li) /\
  snd res = (snd acc + List.length lj * List.length li)%nat.
Proof.
  induction li as [| i li IH]; intros Hg acc.
  - cbn. rewrite Nat.mul_0_r, Nat.add_0_r. cbn. split; [lra | reflexivity].
  - cbn [fold_left]. cbv zeta.
    destruct (sum_row_bounds (g i) lo hi lj
                (fun j Hj => Hg i j (or_introl eq_refl) Hj) acc) as [Hrow Hcnt].
    cbv zeta in Hrow, Hcnt.
    set (acc1 := fold_left (fun acc j => (fst acc + g i j, S (snd acc))) lj acc)
      in *.
    destruct (IH (fun i' j' Hi' Hj' => Hg i' j' (or_intror Hi') Hj') acc1)
      as [Hsum Hcount].
    cbv zeta in Hsum, Hcount.
    change (List.length (i :: li)) with (S (List.length li)).
    replace (List.length lj * S (List.length li))%nat
      with (List.length lj + List.length lj * List.length li)%nat by lia.
    rewrite plus_INR. split; [lra | lia].
Qed.

Lemma getAverageTemp_within (lo hi : R) (s : t) :
  cells_within lo hi (rows s) (cols s) (temp s) ->
  (0 < rows s)%nat -> (0 < cols s)%nat ->
  lo <= getAverageTemp s <= hi.
Proof.
  intros Hc Hr Hcl. unfold getAverageTemp.
  destruct (sum_rows_bounds (get2 (temp s)) lo hi (seq 0 (cols s))
              (seq 0 (rows s))
              (fun i j Hi Hj => Hc i j (proj2 (proj1 (in_seq _ _ _) Hi))
                                  (proj2 (proj1 (in_seq _ _ _) Hj))) (0, O))
    as [Hsum Hcount].
  cbv zeta in Hsum, Hcount. cbn [fst snd] in Hsum, Hcount.
  destruct (fold_left _ (seq 0 (rows s)) (0, O)) as [sum count].
  cbn [fst snd] in Hsum, Hcount. rewrite !length_seq in *.
  rewrite Hcount, Nat.add_0_l.
  set (n := INR (cols s * rows s)) in *.
  assert (Hn : 0 < n).
  { unfold n. rewrite mult_INR.
    apply Rmult_lt_0_compat; apply lt_0_INR; assumption. }
  split.
  - apply (Rmult_le_reg_r n); [exact Hn |].
    unfold Rdiv. rewrite Rmult_assoc, Rinv_l by lra. lra.
  - apply (Rmult_le_reg_r n); [exact Hn |].
    unfold Rdiv. rewrite Rmult_assoc, Rinv_l by lra. lra.
Qed.

Lemma getTempAt_within (lo hi x y : R) (s : t) :
  cells_within lo hi (rows s) (cols s) (temp s) -> lo <= 20 <= hi ->
  lo <= getTempAt x y s <= hi.
Proof.
  intros Hc H20. unfold getTempAt.
  destruct (in_range s _ _) eqn:Hr; [| exact H20].
  apply in_range_spec in Hr. apply Hc; lia.
Qed.

(** X25.  On a grid of 2 cm or more [runToSteadyState] never prints the
    instability warning and keeps the grid within the bounds of the start:
    so is [getTempAt] everywhere (when 20 lies within the bounds) and, on a
    grid with cells, [getAverageTemp]. *)
Theorem run_stays_within (maxSteps : nat) (lo hi : R) (s s' : t)
    (out : list ConsoleLine) :
  well_formed s -> 0.0004 <= gridSize s * gridSize s -> within lo hi s ->
  runToSteadyState maxSteps s = Some (s', out) ->
  within lo hi s' /\
  (lo <= 20 <= hi -> forall x y, lo <= getTempAt x y s' <= hi) /\
  ((0 < rows s)%nat -> (0 < cols s)%nat -> lo <= getAverageTemp s' <= hi) /\
  Forall (fun line => is_log line = true) out.
Proof.
  intros Hwf Hg Hin Hrun. unfold runToSteadyState in Hrun.
  destruct (run_loop_spec _ _ _ _ _ _ Hrun) as (k & _ & Hsteps & _).
  destruct (steps_within k lo hi s s' Hwf Hg Hin Hsteps)
    as (Hwf' & Hin' & Hr & Hc & _).
  split; [exact Hin' |]. split; [| split].
  - intros H20 x y. apply getTempAt_within; [apply Hin' | exact H20].
  - intros Hrows Hcols. apply getAverageTemp_within;
      [apply Hin' | rewrite Hr; exact Hrows | rewrite Hc; exact Hcols].
  - clear Hsteps. revert Hrun.
    assert (Hgen : forall todo i u acc,
              0.0004 <= gridSize u * gridSize u ->
              Forall (fun line => is_log line = true) acc ->
              run_loop todo i u acc = Some (s', out) ->
              Forall (fun line => is_log line = true) out).
    { induction todo as [| todo IH]; intros i u acc Hgu Hacc Hrun.
      - injection Hrun as _ <-. exact Hacc.
      - rewrite run_loop_S in Hrun.
        destruct (step 1.0 u) as [[u1 o] |] eqn:Hstep; [| discriminate].
        assert (Ho : o = []).
        { unfold step in Hstep. destruct (xorb _ _); [discriminate |].
          injection Hstep as _ <-. unfold JSNum.gtb.
          destruct (Rgt_dec _ _) as [Hgt | _]; [| reflexivity].
          exfalso. destruct (courant_default u Hgu) as [_ Hle].
          unfold courant in Hle. lra. }
        subst o. rewrite app_nil_r in Hrun.
        destruct (step_fields _ _ _ _ Hstep) as (_ & _ & _ & _ & Hgs & _).
        destruct (if (i mod 100 =? 0)%nat then _ else _).
        + injection Hrun as _ <-. apply Forall_app. split; [exact Hacc |].
          repeat constructor.
        + apply (IH _ _ _ ltac:(rewrite Hgs; exact Hgu) Hacc Hrun). }
    intros Hrun. apply (Hgen _ _ _ _ Hg (Forall_nil _) Hrun).
Qed.

Lemma run_stays_within_witness :
  exists s' out,
    runToSteadyState 2 (cell a0 a0) = Some (s', out) /\
    within 20 20.72 s' /\
    forall x y, 20 <= getTempAt x y s' <= 20.72.
Proof.
  exists (cell (cool (cool a0)) (cool a0)), [].
  split; [apply run_exhausted |].
  destruct (run_stays_within 2 20 20.72 (cell a0 a0)
              (cell (cool (cool a0)) (cool a0)) [])
    as (Hin & Hat & _).
  - split; (split; [reflexivity | repeat constructor]).
  - cbn. lra.
  - split; [| split].
    + intros i j Hi Hj. cbn in Hi, Hj.
      replace i with O by lia. replace j with O by lia. cbn. unfold a0. lra.
    + constructor.
    + cbn. lra.
  - apply run_exhausted.
  - split; [exact Hin |]. apply Hat. lra.
Defined.

Lemma step_rim_cell (dt : R) (s s' : t) (o : list ConsoleLine) (i j : nat) :
  well_formed s -> step dt s = Some (s', o) ->
  (i < rows s)%nat -> (j < cols s)%nat ->
  on_boundary s i j = true -> unheated s i j ->
  get2 (temp s') i j = applyBoundary s (get2 (temp s) i j).
Proof.
  intros Hwf Hstep Hi Hj Hb Hu.
  rewrite (step_cells _ _ _ _ _ _ Hwf Hstep Hi Hj).
  unfold next_value. rewrite Hb. f_equal. unfold pinned.
  apply fold_pin_unheated; [exact Hi | exact Hj | exact Hu | apply Hwf].
Qed.

(** X26.  On the rim of the grid a cell without a heat source approaches the
    outside temperature by 1.4 percent of the difference at every step,
    whatever the rest of the grid and the heat sources do: after [k] steps
    it holds [outside + (start - outside) * 0.986 ^ k]. *)
Theorem rim_cell_relaxation (k : nat) (i j : nat) :
  forall s s',
  well_formed s -> (i < rows s)%nat -> (j < cols s)%nat ->
  on_boundary s i j = true -> unheated s i j ->
  steps k s = Some s' ->
  get2 (temp s') i j =
  outsideTemp s + (get2 (temp s) i j - outsideTemp s) * 0.986 ^ k.
Proof.
  induction k as [| k IH]; intros s s' Hwf Hi Hj Hb Hu Hsteps.
  - injection Hsteps as <-. simpl. ring.
  - cbn [steps] in Hsteps.
    destruct (step 1.0 s) as [[s1 o] |] eqn:Hstep; [| discriminate].
    destruct (step_fields _ _ _ _ Hstep) as (_ & _ & Hr & Hc & _ & Hs & Ho).
    rewrite (IH s1 s').
    + rewrite (step_rim_cell _ _ _ _ _ _ Hwf Hstep Hi Hj Hb Hu), Ho.
      rewrite applyBoundary_mix.
      change (0.986 ^ S k) with (0.986 * 0.986 ^ k).
      replace (0.986 * get2 (temp s) i j + 0.014 * outsideTemp s - outsideTemp s)
        with (0.986 * (get2 (temp s) i j - outsideTemp s)) by lra.
      ring.
    + apply (step_well_formed _ _ _ _ Hwf Hstep).
    + rewrite Hr. exact Hi.
    + rewrite Hc. exact Hj.
    + unfold on_boundary in *. rewrite Hr, Hc. exact Hb.
    + unfold unheated in *. rewrite Hs. exact Hu.
    + exact Hsteps.
Qed.

Lemma rim_cell_relaxation_witness :
  get2 (temp (cell (cool (cool a0)) (cool a0))) 0 0 =
  20.72 + (20 - 20.72) * 0.986 ^ 2.
Proof.
  apply (rim_cell_relaxation 2 0 0 (cell a0 a0)).
  - split; (split; [reflexivity | repeat constructor]).
  - cbn. lia.
  - cbn. lia.
  - reflexivity.
  - constructor.
  - cbn [steps]. rewrite !step_cell. reflexivity.
Defined.

End GridRuns.

Section GridSources.

Import HeatSimulation.
Import Grid.
Import SteadyState.
Import Stencil.
Import GridExamples.

Lemma floor_nonneg (v : R) : (0 <= Zfloor v)%Z <-> 0 <= v.
Proof.
  destruct (Zfloor_bound v) as [Hlo Hhi]. split; intros H.
  - apply IZR_le in H. lra.
  - apply Zfloor_lub. exact H.
Qed.

Lemma addHeatSource_fields (x y T : R) (s : t) :
  width (addHeatSource x y T s) = width s /\
  height (addHeatSource x y T s) = height s /\
  gridSize (addHeatSource x y T s) = gridSize s /\
  cols (addHeatSource x y T s) = cols s /\
  rows (addHeatSource x y T s) = rows s /\
  temp (addHeatSource x y T s) = temp s /\
  tempNext (addHeatSource x y T s) = tempNext s /\
  outsideTemp (addHeatSource x y T s) = outsideTemp s.
Proof.
  unfold addHeatSource. destruct (in_range s _ _); repeat split.
Qed.

Lemma addHeatSource_sources (x y T : R) (s : t) :
  (addHeatSource x y T s = s /\
   in_range s (Zfloor (y / gridSize s)) (Zfloor (x / gridSize s)) = false) \/
  (heatSources (addHeatSource x y T s) =
     heatSources s ++
     [mkHeatSource (Zfloor (y / gridSize s)) (Zfloor (x / gridSize s)) T] /\
   in_range s (Zfloor (y / gridSize s)) (Zfloor (x / gridSize s)) = true).
Proof.
  unfold addHeatSource. destruct (in_range s _ _).
  - right. split; reflexivity.
  - left. split; reflexivity.
Qed.

Lemma in_range_dims (s s1 : t) (r c : Z) :
  rows s1 = rows s -> cols s1 = cols s -> in_range s1 r c = in_range s r c.
Proof. intros Hr Hc. unfold in_range. rewrite Hr, Hc. reflexivity. Qed.

Lemma addHeatSource_well_formed (x y T : R) (s : t) :
  well_formed s -> well_formed (addHeatSource x y T s).
Proof.
  destruct (addHeatSource_fields x y T s)
    as (_ & _ & _ & Hc & Hr & Ht & Hn & _).
  unfold well_formed. rewrite Hc, Hr, Ht, Hn. exact (fun H => H).
Qed.

Lemma addHeatSource_within (lo hi x y T : R) (s : t) :
  lo <= T <= hi -> within lo hi s -> within lo hi (addHeatSource x y T s).
Proof.
  intros HT (Hcells & Hsrc & Hout).
  destruct (addHeatSource_fields x y T s)
    as (_ & _ & _ & Hc & Hr & Ht & _ & Ho).
  unfold within. rewrite Hc, Hr, Ht, Ho.
  split; [exact Hcells |]. split; [| exact Hout].
  destruct (addHeatSource_sources x y T s) as [[E _] | [E _]]; rewrite E.
  - exact Hsrc.
  - apply Forall_app. split; [exact Hsrc |]. constructor; [exact HT | constructor].
Qed.

Lemma addHeatSource_registered (x y T : R) (s : t) :
  registered T s -> registered T (addHeatSource x y T s).
Proof.
  intros Hall. unfold registered in *.
  destruct (addHeatSource_fields x y T s)
    as (_ & _ & _ & Hc & Hr & _).
  assert (Hsame : forall r c, in_range (addHeatSource x y T s) r c = in_range s r c)
    by (intros r c; apply in_range_dims; assumption).
  apply Forall_forall. intros src Hin. rewrite Hsame.
  destruct (addHeatSource_sources x y T s) as [[E _] | [E Hrange]];
    rewrite E in Hin.
  - apply (proj1 (Forall_forall _ _) Hall src Hin).
  - apply in_app_or in Hin. destruct Hin as [Hin | [<- | []]].
    + apply (proj1 (Forall_forall _ _) Hall src Hin).
    + split; [reflexivity | exact Hrange].
Qed.

(** X27.  [addHeatSource] either leaves the simulator as it is or appends
    one heat source, of the given temperature and on a cell inside the
    grid; with a positive grid size a point with a negative coordinate is
    never registered.  The two buffers, the dimensions, the grid size and
    the outside temperature are not touched, a well-formed simulator stays
    well-formed, and heat sources inside the grid stay inside. *)
Theorem addHeatSource_registers (x y T : R) (s : t) :
  let s1 := addHeatSource x y T s in
  (s1 = s \/
   exists src,
     heatSources s1 = heatSources s ++ [src] /\
     temperature src = T /\ in_range s (row src) (col src) = true) /\
  (0 < gridSize s -> x < 0 \/ y < 0 -> s1 = s) /\
  temp s1 = temp s /\ tempNext s1 = tempNext s /\
  rows s1 = rows s /\ cols s1 = cols s /\
  gridSize s1 = gridSize s /\ outsideTemp s1 = outsideTemp s /\
  (well_formed s -> well_formed s1) /\
  (Forall (fun src => in_range s (row src) (col src) = true) (heatSources s) ->
   Forall (fun src => in_range s1 (row src) (col src) = true)
     (heatSources s1)).
Proof.
  intros s1. unfold s1.
  destruct (addHeatSource_fields x y T s)
    as (_ & _ & Hg & Hc & Hr & Ht & Hn & Ho).
  split; [| split].
  - destruct (addHeatSource_sources x y T s) as [[E _] | [E Hrange]].
    + left. exact E.
    + right. eexists. split; [exact E |]. split; [reflexivity | exact Hrange].
  - intros Hpos Hneg.
    destruct (addHeatSource_sources x y T s) as [[E _] | [_ Hrange]];
      [exact E |].
    exfalso. apply in_range_spec in Hrange. destruct Hrange as [[Hy _] [Hx _]].
    apply floor_nonneg in Hx. apply floor_nonneg in Hy.
    assert (Hi : 0 < / gridSize s) by (apply Rinv_0_lt_compat; exact Hpos).
    assert (Hx' : x = x / gridSize s * gridSize s) by (field; lra).
    assert (Hy' : y = y / gridSize s * gridSize s) by (field; lra).
    assert (0 <= x) by (rewrite Hx'; apply Rmult_le_pos; lra).
    assert (0 <= y) by (rewrite Hy'; apply Rmult_le_pos; lra).
    lra.
  - split; [exact Ht |]. split; [exact Hn |]. split; [exact Hr |].
    split; [exact Hc |]. split; [exact Hg |]. split; [exact Ho |].
    split; [apply addHeatSource_well_formed |].
    intros Hall. apply Forall_forall. intros src Hin.
    rewrite (in_range_dims s _ _ _ Hr Hc).
    destruct (addHeatSource_sources x y T s) as [[E _] | [E Hrange]];
      rewrite E in Hin.
    + apply (proj1 (Forall_forall _ _) Hall src Hin).
    + apply in_app_or in Hin. destruct Hin as [Hin | [<- | []]].
      * apply (proj1 (Forall_forall _ _) Hall src Hin).
      * exact Hrange.
Qed.

(** X28.  When [addHeatSource] has registered the point as the heat source
    [src], then after a step the cell of [src], which is the cell that
    [getTempAt] reads at this point, does not show the temperature [T] of
    the source but what the step makes of it: [T] less 1.4 percent of
    [T - outside] on the rim, and
    [T + r * (sum of the four pinned neighbours - 4 T)] inside; [T] itself
    is left in the other buffer. *)
Theorem heat_source_reading (dt x y T : R) (s s' : t)
    (o : list ConsoleLine) (src : HeatSource) :
  well_formed s ->
  heatSources (addHeatSource x y T s) = heatSources s ++ [src] ->
  step dt (addHeatSource x y T s) = Some (s', o) ->
  let s1 := addHeatSource x y T s in
  let i := Z.to_nat (row src) in
  let j := Z.to_nat (col src) in
  temperature src = T /\ (i < rows s)%nat /\ (j < cols s)%nat /\
  get2 (tempNext s') i j = T /\
  getTempAt x y s' = get2 (temp s') i j /\
  (on_boundary s i j = true ->
   get2 (temp s') i j = T - 1.4 * (T - outsideTemp s) * 0.01) /\
  (on_boundary s i j = false ->
   get2 (temp s') i j =
   T +
   courant dt s *
   (get2 (pinned s1) (i - 1) j + get2 (pinned s1) (i + 1) j +
    get2 (pinned s1) i (j - 1) + get2 (pinned s1) i (j + 1) - 4 * T)).
Proof.
  intros Hwf Hsrc Hstep s1 i j.
  destruct (addHeatSource_fields x y T s)
    as (_ & _ & Hgs & Hcols & Hrows & _ & _ & Hout).
  fold s1 in Hsrc, Hstep, Hgs, Hcols, Hrows, Hout.
  assert (Hwf1 : well_formed s1) by (apply addHeatSource_well_formed; exact Hwf).
  assert (Hreg : src = mkHeatSource (Zfloor (y / gridSize s))
                         (Zfloor (x / gridSize s)) T /\
                 in_range s (row src) (col src) = true).
  { destruct (addHeatSource_sources x y T s) as [[E _] | [E Hrange]];
      fold s1 in E.
    - exfalso. rewrite E in Hsrc. apply (f_equal (@List.length _)) in Hsrc.
      rewrite length_app in Hsrc. cbn in Hsrc. lia.
    - rewrite E in Hsrc. apply app_inv_head in Hsrc.
      injection Hsrc as <-. split; [reflexivity | exact Hrange]. }
  destruct Hreg as [Esrc Hrange].
  assert (HT : temperature src = T) by (rewrite Esrc; reflexivity).
  assert (Erow : Zfloor (y / gridSize s) = row src) by (rewrite Esrc; reflexivity).
  assert (Ecol : Zfloor (x / gridSize s) = col src) by (rewrite Esrc; reflexivity).
  apply in_range_spec in Hrange. destruct Hrange as [Hrow Hcol].
  assert (Hi : (i < rows s1)%nat) by (unfold i; lia).
  assert (Hj : (j < cols s1)%nat) by (unfold j; lia).
  assert (Hpin : get2 (pinned s1) i j = T).
  { unfold pinned. rewrite Hsrc, <- HT.
    apply (fold_pin_last s1 (heatSources s) src);
      [exact Hi | exact Hj | unfold i; lia | unfold j; lia | apply Hwf1]. }
  destruct (step_fields _ _ _ _ Hstep) as (_ & Hnext & Hr' & Hc' & Hg' & _).
  assert (Hcell : get2 (temp s') i j =
                  next_value s1 (courant dt s1) (pinned s1) i j)
    by (apply (step_cells _ _ _ _ _ _ Hwf1 Hstep Hi Hj)).
  assert (Hb : on_boundary s1 i j = on_boundary s i j)
    by (unfold on_boundary; rewrite Hrows, Hcols; reflexivity).
  assert (Hc1 : courant dt s1 = courant dt s)
    by (unfold courant; rewrite Hgs; reflexivity).
  split; [exact HT |].
  split; [rewrite <- Hrows; exact Hi |].
  split; [rewrite <- Hcols; exact Hj |].
  split; [rewrite Hnext; exact Hpin |]. split; [| split]; [| intros Hbd ..].
  - unfold getTempAt. rewrite Hg', Hgs, Erow, Ecol.
    replace (in_range s' (row src) (col src)) with true; [reflexivity |].
    symmetry. apply in_range_spec. rewrite Hr', Hc', Hrows, Hcols. lia.
  - rewrite Hcell. unfold next_value. rewrite Hb, Hbd, Hpin.
    unfold applyBoundary. rewrite Hout. reflexivity.
  - rewrite Hcell. unfold next_value. rewrite Hb, Hbd. unfold stencil.
    rewrite Hpin, Hc1. reflexivity.
Qed.

Lemma heat_source_reading_witness :
  exists s' o,
    step 1.0 plate = Some (s', o) /\ get2 (tempNext s') 1 1 = 35 /\
    getTempAt 0.2 0.2 s' = get2 (temp s') 1 1.
Proof.
  destruct (step_returns 1.0 plate eq_refl) as (s' & o & Hstep).
  exists s', o. split; [exact Hstep |].
  assert (Hfloor : Zfloor (0.2 / 0.125) = 1%Z)
    by (apply Zfloor_eq; lra).
  assert (Hplate : addHeatSource 0.2 0.2 35
                     (mkHeatSimulation 0.375 0.375 0.125 3 3 (uniform 20 3 3)
                        (uniform 20 3 3) [] (-10)) = plate).
  { unfold addHeatSource. cbn [gridSize]. rewrite Hfloor. reflexivity. }
  rewrite <- Hplate in Hstep.
  destruct (heat_source_reading 1.0 0.2 0.2 35
              (mkHeatSimulation 0.375 0.375 0.125 3 3 (uniform 20 3 3)
                 (uniform 20 3 3) [] (-10)) s' o (mkHeatSource 1 1 35))
    as (_ & _ & _ & Hnext & Hat & _).
  - split; apply uniform_shape.
  - rewrite Hplate. reflexivity.
  - exact Hstep.
  - split; [exact Hnext | exact Hat].
Defined.

End GridSources.

Section AppRun.

Import HeatSimulation.
Import Grid.
Import SteadyState.
Import Stencil.
Import ThermaCraft.

Lemma new_default_room :
  new 10 10 0.125 =
  Some (mkHeatSimulation 10 10 0.125 80 80 (uniform 20 80 80) (uniform 20 80 80)
          [] (-10)).
Proof.
  unfold new. destruct (Req_dec_T 0.125 0) as [E | _]; [exfalso; lra |].
  replace (Zceil (10 / 0.125)) with 80%Z; [reflexivity |].
  symmetry. apply Zceil_eq. lra.
Qed.

Lemma add_points_facts (T lo hi : R) (points : list (R * R)) :
  lo <= T <= hi ->
  forall s,
  let s1 := fold_left (fun sim p => addHeatSource (fst p) (snd p) T sim)
              points s in
  well_formed s -> within lo hi s -> registered T s ->
  well_formed s1 /\ within lo hi s1 /\ registered T s1 /\
  rows s1 = rows s /\ cols s1 = cols s /\ gridSize s1 = gridSize s /\
  outsideTemp s1 = outsideTemp s /\ temp s1 = temp s /\
  (List.length (heatSources s1) <= List.length (heatSources s) +
                                   List.length points)%nat.
Proof.
  intros HT. induction points as [| p points IH]; intros s s1 Hwf Hin Hreg.
  - cbn in s1. unfold s1.
    split; [exact Hwf |]. split; [exact Hin |]. split; [exact Hreg |].
    repeat (split; [reflexivity |]). cbn [List.length]. lia.
  - cbn [fold_left] in s1.
    destruct (addHeatSource_fields (fst p) (snd p) T s)
      as (_ & _ & Hg & Hc & Hr & Ht & _ & Ho).
    destruct (IH (addHeatSource (fst p) (snd p) T s)
                (addHeatSource_well_formed _ _ _ _ Hwf)
                (addHeatSource_within _ _ _ _ _ _ HT Hin)
                (addHeatSource_registered _ _ _ _ Hreg))
      as (Hwf1 & Hin1 & Hreg1 & Hr1 & Hc1 & Hg1 & Ho1 & Ht1 & Hlen).
    fold s1 in Hwf1, Hin1, Hreg1, Hr1, Hc1, Hg1, Ho1, Ht1, Hlen.
    split; [exact Hwf1 |]. split; [exact Hin1 |]. split; [exact Hreg1 |].
    split; [congruence |]. split; [congruence |]. split; [congruence |].
    split; [congruence |]. split; [congruence |].
    assert (Hone : (List.length (heatSources (addHeatSource (fst p) (snd p) T s))
                    <= S (List.length (heatSources s)))%nat).
    { destruct (addHeatSource_sources (fst p) (snd p) T s) as [[E _] | [E _]];
        rewrite E; [lia |]. rewrite length_app. cbn. lia. }
    cbn [List.length]. lia.
Qed.

Lemma steps_sources (k : nat) :
  forall s s', steps k s = Some s' ->
  heatSources s' = heatSources s /\ outsideTemp s' = outsideTemp s.
Proof.
  induction k as [| k IH]; intros s s' Hsteps.
  - injection Hsteps as <-. split; reflexivity.
  - cbn [steps] in Hsteps.
    destruct (step 1.0 s) as [[s1 o] |] eqn:Hstep; [| discriminate].
    destruct (step_fields _ _ _ _ Hstep) as (_ & _ & _ & _ & _ & Hs & Ho).
    destruct (IH _ _ Hsteps) as [Hs' Ho']. split; congruence.
Qed.

Lemma run_loop_quiet (s' : t) (out : list ConsoleLine) (todo : nat) :
  forall i u acc,
  0.0004 <= gridSize u * gridSize u ->
  Forall (fun line => is_log line = true) acc ->
  run_loop todo i u acc = Some (s', out) ->
  Forall (fun line => is_log line = true) out.
Proof.
  induction todo as [| todo IH]; intros i u acc Hgu Hacc Hrun.
  - injection Hrun as _ <-. exact Hacc.
  - rewrite run_loop_S in Hrun.
    destruct (step 1.0 u) as [[u1 o] |] eqn:Hstep; [| discriminate].
    assert (Ho : o = []).
    { unfold step in Hstep. destruct (xorb _ _); [discriminate |].
      injection Hstep as _ <-. unfold JSNum.gtb.
      destruct (Rgt_dec _ _) as [Hgt | _]; [| reflexivity].
      exfalso. destruct (courant_default u Hgu) as [_ Hle].
      unfold courant in Hle. lra. }
    subst o. rewrite app_nil_r in Hrun.
    destruct (step_fields _ _ _ _ Hstep) as (_ & _ & _ & _ & Hgs & _).
    destruct (if (i mod 100 =? 0)%nat then _ else _).
    + injection Hrun as _ <-. apply Forall_app. split; [exact Hacc |].
      repeat constructor.
    + apply (IH _ _ _ ltac:(rewrite Hgs; exact Hgu) Hacc Hrun).
Qed.

(** X29.  The heat simulation of [runSimulation] returns, whatever the
    sampled points: on a grid of 80 by 80 cells, without the instability
    warning, with no more heat sources than points, each of 35 degrees and
    inside the grid.  The average temperature shown as the room
    temperature, and the reading at every point, lie between -10 and 35;
    when no point was registered they do not exceed 20. *)
Theorem runSimulation_within (points : list (R * R)) :
  exists sim out,
    runSimulation points = Some (sim, out) /\
    rows sim = 80%nat /\ cols sim = 80%nat /\ outsideTemp sim = -10 /\
    Forall (fun line => is_log line = true) out /\
    (List.length (heatSources sim) <= List.length points)%nat /\
    Forall (fun src => temperature src = 35 /\
                       in_range sim (row src) (col src) = true)
      (heatSources sim) /\
    -10 <= getAverageTemp sim <= 35 /\
    (forall x y, -10 <= getTempAt x y sim <= 35) /\
    (heatSources sim = [] ->
     getAverageTemp sim <= 20 /\ forall x y, getTempAt x y sim <= 20).
Proof.
  unfold runSimulation. rewrite new_default_room.
  set (s0 := mkHeatSimulation 10 10 0.125 80 80 (uniform 20 80 80)
               (uniform 20 80 80) [] (-10)).
  cbv zeta.
  set (s1 := fold_left (fun sim p => addHeatSource (fst p) (snd p) 35 sim)
               points s0).
  assert (Hwf0 : well_formed s0) by (split; apply uniform_shape).
  assert (Hcells0 : forall lo hi, lo <= 20 <= hi ->
            cells_within lo hi (rows s0) (cols s0) (temp s0)).
  { intros lo hi H20 i j Hi Hj. unfold s0 in *. cbn [rows cols temp] in *.
    rewrite get2_uniform by assumption. exact H20. }
  assert (Hin0 : within (-10) 35 s0).
  { split; [apply Hcells0; lra |]. split; [constructor | cbn; lra]. }
  destruct (add_points_facts 35 (-10) 35 points ltac:(lra) s0 Hwf0 Hin0
              (Forall_nil _))
    as (Hwf1 & Hin1 & Hreg1 & Hr1 & Hc1 & Hg1 & Ho1 & Ht1 & Hlen1).
  fold s1 in Hwf1, Hin1, Hreg1, Hr1, Hc1, Hg1, Ho1, Ht1, Hlen1.
  change (rows s0) with 80%nat in Hr1. change (cols s0) with 80%nat in Hc1.
  change (gridSize s0) with 0.125 in Hg1.
  change (outsideTemp s0) with (-10) in Ho1.
  assert (Hgg : 0.0004 <= gridSize s1 * gridSize s1) by (rewrite Hg1; lra).
  destruct (run_loop_returns 500 0 s1 []) as [[sim out] Hrun].
  { rewrite Hr1, Hc1. reflexivity. }
  exists sim, out. unfold runToSteadyState. split; [exact Hrun |].
  destruct (run_loop_spec _ _ _ _ _ _ Hrun) as (k & _ & Hsteps & _).
  destruct (steps_within k (-10) 35 s1 sim Hwf1 Hgg Hin1 Hsteps)
    as (Hwf' & Hin' & Hr' & Hc' & _).
  destruct (steps_sources k _ _ Hsteps) as [Hs' Ho'].
  rewrite Hr1 in Hr'. rewrite Hc1 in Hc'.
  split; [exact Hr' |]. split; [exact Hc' |]. split; [congruence |].
  split; [apply (run_loop_quiet sim out 500 0 s1 [] Hgg (Forall_nil _) Hrun) |].
  split; [rewrite Hs'; cbn in Hlen1; exact Hlen1 |].
  split.
  { rewrite Hs'. unfold registered in Hreg1.
    apply Forall_forall. intros src Hsrc.
    destruct (proj1 (Forall_forall _ _) Hreg1 src Hsrc) as [HT Hrange].
    split; [exact HT |].
    rewrite (in_range_dims s1 sim) by congruence. exact Hrange. }
  split.
  { apply getAverageTemp_within; [apply Hin' | lia | lia]. }
  split.
  { intros x y. apply getTempAt_within; [apply Hin' | lra]. }
  intros Hnone. rewrite Hs' in Hnone.
  assert (Hcold : within (-10) 20 s1).
  { split; [rewrite Hr1, Hc1, Ht1; apply (Hcells0 (-10) 20); lra |].
    split; [rewrite Hnone; constructor | rewrite Ho1; lra]. }
  destruct (steps_within k (-10) 20 s1 sim Hwf1 Hgg Hcold Hsteps)
    as (_ & Hcold' & _).
  split.
  - apply (getAverageTemp_within (-10) 20); [apply Hcold' | lia | lia].
  - intros x y. apply (getTempAt_within (-10) 20); [apply Hcold' | lra].
Qed.

End AppRun.

(** * Cost calculator *)

Section CostCalculatorFacts.

Import CostCalculator.

(** X30.  For every glazing type that is no inherited property name and not
    ['DREIFACH'], [calculateWindowCost] charges 350 per square metre:
    ['EINFACHGLAS'], with its table price of 0, included.  The call
    overwrites the window cost, and ['DREIFACH'] is charged 500. *)
Theorem window_cost_fallback (area : R) (glazingType : string) (c : t) :
  existsb (String.eqb glazingType) inherited = false ->
  glazingType <> "DREIFACH"%string ->
  exists c',
    calculateWindowCost area glazingType c = Some (c', area * 350) /\
    windows (costs c') = area * 350 /\
    getTotalCost c' = getTotalCost c - windows (costs c) + area * 350 /\
    calculateWindowCost area "DREIFACH" c' =
      Some (mk (budget c)
              (mkCosts (pipes (costs c)) (insulation (costs c)) (area * 500)
                 (labor (costs c)) (misc (costs c))), area * 500).
Proof.
  intros Hinh Hne. unfold calculateWindowCost. rewrite Hinh.
  assert (Hprice :
            match JSNum.truthy (lookup glazingType glazing_costs) with
            | Some v => v
            | None => 350
            end = 350).
  { unfold lookup, glazing_costs. cbn [find fst].
    destruct (String.eqb_spec "EINFACHGLAS" glazingType) as [E1 | E1].
    - cbn [option_map snd]. rewrite truthy_zero. reflexivity.
    - destruct (String.eqb_spec "DOPPEL" glazingType) as [E2 | E2].
      + cbn [option_map snd]. rewrite truthy_nonzero by lra. reflexivity.
      + destruct (String.eqb_spec "DREIFACH" glazingType) as [E3 | E3].
        * exfalso. apply Hne. symmetry. exact E3.
        * reflexivity. }
  rewrite Hprice. eexists. split; [reflexivity |].
  cbn [costs windows]. split; [reflexivity |]. split.
  - unfold getTotalCost. cbn [fold_left costs pipes insulation windows labor
      misc]. ring.
  - cbn [existsb inherited String.eqb Ascii.eqb Bool.eqb orb budget costs pipes
      insulation labor misc].
    unfold lookup, glazing_costs. cbn [find fst String.eqb Ascii.eqb Bool.eqb
      option_map snd].
    rewrite truthy_nonzero by lra. reflexivity.
Qed.

Lemma window_cost_fallback_witness :
  exists c',
    calculateWindowCost 4 "EINFACHGLAS" (new 15000) = Some (c', 4 * 350).
Proof.
  destruct (window_cost_fallback 4 "EINFACHGLAS" (new 15000))
    as (c' & H & _).
  - reflexivity.
  - discriminate.
  - exists c'. exact H.
Defined.

End CostCalculatorFacts.
